(** * Othello (Reversi): the rules engine of [othello.py], embedded and verified

    The development follows the source file top to bottom.  Python integers
    are unbounded, hence [Z]; lists are [list]; the legal-move dictionary is
    an association list in insertion order (Python dictionaries iterate in
    insertion order, and [choose_move] depends on it); [None] cells are
    [option].  A raised exception is a value of [Exn]; methods that mutate the
    board run in a state-and-exception monad in which the state reached at the
    moment of the raise is kept, as it is in Python.

    Turtle graphics (drawing of board, tiles and text) does not touch the
    game state and is left out; [print] is kept as a list of printed lines. *)

From Stdlib Require Import ZArith List Lia Bool String Ascii DecimalString Sorted.
From Stdlib Require Decimal DecimalPos DecimalZ.
Import ListNotations.
Open Scope Z_scope.

(** ** Python primitives used by the program *)
Module Py.

Inductive Exn : Type :=
| AssertionError
| IndexError
| KeyError
| AttributeError
| ValueError
| TypeError
| RecursionError.

Inductive result (A : Type) : Type :=
| Ok (a : A)
| Err (e : Exn).
Arguments Ok {A} a.
Arguments Err {A} e.

Definition rbind {A B} (r : result A) (k : A -> result B) : result B :=
  match r with
  | Ok a => k a
  | Err e => Err e
  end.

(** [len(range(start, stop, step))] as CPython computes it ([step <> 0]). *)
Definition range_len (start stop step : Z) : nat :=
  if 0 <? step then
    if start <? stop then Z.to_nat ((stop - start - 1) / step + 1) else O
  else
    if stop <? start then Z.to_nat ((start - stop - 1) / (- step) + 1) else O.

(** [list(range(start, stop, step))]. *)
Definition range (start stop step : Z) : list Z :=
  map (fun k => start + Z.of_nat k * step) (seq 0 (range_len start stop step)).

(** [l[i]]: a negative index counts from the end; outside
    [-len(l) <= i < len(l)] Python raises IndexError. *)
Definition norm_index {A} (l : list A) (i : Z) : option nat :=
  let len := Z.of_nat (List.length l) in
  let j := if i <? 0 then i + len else i in
  if (0 <=? j) && (j <? len) then Some (Z.to_nat j) else None.

Definition getitem {A} (l : list A) (i : Z) : result A :=
  match norm_index l i with
  | Some j => match nth_error l j with
              | Some a => Ok a
              | None => Err IndexError
              end
  | None => Err IndexError
  end.

Fixpoint set_nth {A} (l : list A) (j : nat) (a : A) : list A :=
  match l, j with
  | [], _ => []
  | _ :: tl, O => a :: tl
  | h :: tl, S j' => h :: set_nth tl j' a
  end.

(** [l[i] = a]. *)
Definition setitem {A} (l : list A) (i : Z) (a : A) : result (list A) :=
  match norm_index l i with
  | Some j => Ok (set_nth l j a)
  | None => Err IndexError
  end.

(** [str(z)] for an integer. *)
Definition str (z : Z) : string := NilZero.string_of_int (Z.to_int z).

(** Dictionaries with integer keys, in insertion order. *)
Definition dict (V : Type) : Type := list (Z * V).

Fixpoint dict_get {V} (d : dict V) (k : Z) : result V :=
  match d with
  | [] => Err KeyError
  | (k', v) :: tl => if k' =? k then Ok v else dict_get tl k
  end.

Definition dict_mem {V} (d : dict V) (k : Z) : bool :=
  existsb (fun kv => fst kv =? k) d.

(** [d[k] = v]: a present key keeps its place, a new key goes last. *)
Fixpoint dict_set {V} (d : dict V) (k : Z) (v : V) : dict V :=
  match d with
  | [] => [(k, v)]
  | (k', v') :: tl => if k' =? k then (k, v) :: tl else (k', v') :: dict_set tl k v
  end.

Definition dict_keys {V} (d : dict V) : list Z := map fst d.

(** State-and-exception monad: the state survives a raise. *)
Definition ST (S A : Type) : Type := S -> result A * S.

Definition ret {S A} (a : A) : ST S A := fun s => (Ok a, s).
Definition raise {S A} (e : Exn) : ST S A := fun s => (Err e, s).
Definition bind {S A B} (m : ST S A) (k : A -> ST S B) : ST S B :=
  fun s => match m s with
           | (Ok a, s') => k a s'
           | (Err e, s') => (Err e, s')
           end.
Definition get_state {S} : ST S S := fun s => (Ok s, s).
Definition put {S} (s : S) : ST S unit := fun _ => (Ok tt, s).
Definition modify {S} (f : S -> S) : ST S unit := fun s => (Ok tt, f s).
(** A read-only computation run on the current state. *)
Definition read {S A} (f : S -> result A) : ST S A := fun s => (f s, s).
(** [assert b]. *)
Definition assert {S} (b : bool) : ST S unit :=
  if b then ret tt else raise AssertionError.

End Py.
Import Py.

Declare Scope py_scope.
Delimit Scope py_scope with py.
Notation "x <- m ;; k" := (bind m (fun x => k))
  (at level 61, m at next level, right associativity) : py_scope.
Notation "m ;;; k" := (bind m (fun _ => k))
  (at level 61, right associativity) : py_scope.
Notation "x <~ r ;; k" := (rbind r (fun x => k))
  (at level 61, r at next level, right associativity) : py_scope.
Open Scope py_scope.

(** ** Module constants *)
Definition SQUARE : Z := 50.
Definition DIAMETER : Z := SQUARE - 10.

Inductive Color : Type := Black | White.

Definition color_eqb (a b : Color) : bool :=
  match a, b with
  | Black, Black | White, White => true
  | _, _ => false
  end.

(** The color strings as the program prints them. *)
Definition color_name (c : Color) : string :=
  match c with Black => "black" | White => "white" end.

(** The eight direction strings ["n"], ["ne"], ... accepted by the
    assertions of the geometry methods. *)
Inductive Direction : Type := Dn | Dne | De | Dse | Ds | Dsw | Dw | Dnw.

(** ** class GamePiece *)
Module GamePiece.

Record t : Type := mk {
  location : Z;
  color : Color;
  x : Z;
  y : Z
}.

(** [__init__]: the location must be non-negative. *)
Definition init (loc : Z) (c : Color) (center_x center_y : Z) : result t :=
  if 0 <=? loc then Ok (mk loc c center_x center_y) else Err AssertionError.

Definition change_color (p : t) : t :=
  match color p with
  | White => mk (location p) Black (x p) (y p)
  | Black => mk (location p) White (x p) (y p)
  end.

(** [flip] changes the color and redraws the tile. *)
Definition flip (p : t) : t := change_color p.

End GamePiece.

(** ** class Square *)
Module Square.

Record t : Type := mk {
  location : Z;
  x : Z;
  y : Z;
  size : Z
}.

Definition init (loc x0 y0 : Z) : result t :=
  if 0 <=? loc then Ok (mk loc x0 y0 SQUARE) else Err AssertionError.

Definition calc_center (sq : t) : Z * Z :=
  let half := size sq / 2 in
  (x sq + size sq - half, y sq + size sq - half).

Definition was_clicked (sq : t) (cx cy : Z) : bool :=
  ((x sq <? cx) && (cx <? x sq + size sq))
  && ((y sq <? cy) && (cy <? y sq + size sq)).

(** [state[self.location] == None]. *)
Definition is_empty (sq : t) (state : list (option GamePiece.t)) : result bool :=
  piece <~ getitem state (location sq) ;;
  Ok (match piece with None => true | Some _ => false end).

End Square.

(** ** class GameBoard: state and read-only methods *)
Module GameBoard.

Record t : Type := mk {
  n : Z;                                   (* squares on one side *)
  size : Z;                                (* side of the board in pixels *)
  turn : Color;
  pieces : list (option GamePiece.t);
  black : Z;
  white : Z;
  squares : list Square.t;
  valid_moves : dict (list GamePiece.t)
}.

Definition set_turn (c : Color) (self : t) : t :=
  mk (n self) (size self) c (pieces self) (black self) (white self)
     (squares self) (valid_moves self).
Definition set_pieces (ps : list (option GamePiece.t)) (self : t) : t :=
  mk (n self) (size self) (turn self) ps (black self) (white self)
     (squares self) (valid_moves self).
Definition set_black (v : Z) (self : t) : t :=
  mk (n self) (size self) (turn self) (pieces self) v (white self)
     (squares self) (valid_moves self).
Definition set_white (v : Z) (self : t) : t :=
  mk (n self) (size self) (turn self) (pieces self) (black self) v
     (squares self) (valid_moves self).
Definition set_squares (sqs : list Square.t) (self : t) : t :=
  mk (n self) (size self) (turn self) (pieces self) (black self) (white self)
     sqs (valid_moves self).
Definition set_valid_moves (vm : dict (list GamePiece.t)) (self : t) : t :=
  mk (n self) (size self) (turn self) (pieces self) (black self) (white self)
     (squares self) vm.

(** The assertion [0 <= location < self.n**2] shared by the methods. *)
Definition valid_index (self : t) (location : Z) : bool :=
  (0 <=? location) && (location <? n self ^ 2).

Definition set_increment (self : t) (direction : Direction) : Z :=
  match direction with
  | Dn => n self
  | Ds => - n self
  | De => 1
  | Dw => -1
  | Dne => n self + 1
  | Dnw => n self - 1
  | Dse => - (n self - 1)
  | Dsw => - (n self + 1)
  end.

(** The pair [(mx, mn)] of [set_max_min] before the final choice. *)
Definition max_min_pair (self : t) (location : Z) (direction : Direction)
  : option Z * option Z :=
  let row_num := location / n self in
  let row_start := row_num * n self in
  let max_steps := n self - 1 in
  let row_end := row_start + max_steps in
  let board_max := n self ^ 2 - 1 in
  let board_min := 0 in
  match direction with
  | Dn => (Some board_max, None)
  | Ds => (None, Some board_min)
  | De => (Some row_end, None)
  | Dw => (None, Some row_start)
  | Dne =>
      let steps := max_steps - location mod n self in
      let mx := row_end + steps * n self in
      (Some (if mx >? board_max then board_max else mx), None)
  | Dse =>
      let steps := max_steps - location mod n self in
      let mn := row_end - steps * n self in
      (None, Some (if mn <? board_min then board_min else mn))
  | Dnw =>
      let steps := location - row_start in
      let mx := row_start + steps * n self in
      (Some (if mx >? board_max then board_max else mx), None)
  | Dsw =>
      let steps := location - row_start in
      let mn := row_start - steps * n self in
      (None, Some (if mn <? board_min then board_min else mn))
  end.

Definition set_max_min (self : t) (location : Z) (direction : Direction)
  : result Z :=
  if negb (valid_index self location) then Err AssertionError else
  match max_min_pair self location direction with
  | (Some mx, _) => Ok mx
  | (None, Some mn) => Ok mn
  | (None, None) => Err TypeError  (* [None - 1] in the caller; no branch leaves both unset *)
  end.

(** How the [for] loop of [can_capture_in_direction] is left. *)
Inductive loop_exit : Type :=
| Returned (r : list GamePiece.t)          (* [return []] inside the loop *)
| Finished (captured : list GamePiece.t).  (* [break] or range exhausted *)

Fixpoint capture_loop (self : t) (locs : list Z) (captured : list GamePiece.t)
  : result loop_exit :=
  match locs with
  | [] => Ok (Finished captured)
  | loc :: rest =>
      piece <~ getitem (pieces self) loc ;;
      match piece with
      | None => Ok (Returned [])
      | Some p =>
          if negb (color_eqb (GamePiece.color p) (turn self))
          then capture_loop self rest (captured ++ [p])
          else Ok (Finished (captured ++ [p]))
      end
  end.

Definition can_capture_in_direction (self : t) (location : Z)
  (direction : Direction) : result (list GamePiece.t) :=
  if negb (valid_index self location) then Err AssertionError else
  let inc := set_increment self direction in
  end0 <~ set_max_min self location direction ;;
  let end1 := if inc <=? 0 then end0 - 1 else end0 + 1 in
  let start := location + inc in
  if inc =? 0 then Err ValueError else
  exit <~ capture_loop self (range start end1 inc) [] ;;
  match exit with
  | Returned r => Ok r
  | Finished captured =>
      match rev captured with
      | lst :: _ =>
          if color_eqb (GamePiece.color lst) (turn self)
          then Ok (removelast captured)
          else Ok []
      | [] => Ok []
      end
  end.

Definition directions : list Direction := [Dn; Dne; De; Dse; Ds; Dsw; Dw; Dnw].

Fixpoint all_loop (self : t) (location : Z) (dirs : list Direction)
  (captured : list GamePiece.t) : result (list GamePiece.t) :=
  match dirs with
  | [] => Ok captured
  | d :: rest =>
      captured_in_direction <~ can_capture_in_direction self location d ;;
      all_loop self location rest (captured ++ captured_in_direction)
  end.

Definition all_can_capture (self : t) (location : Z)
  : result (list GamePiece.t) :=
  if negb (valid_index self location) then Err AssertionError else
  square <~ getitem (squares self) location ;;
  empty <~ Square.is_empty square (pieces self) ;;
  if negb empty then Ok [] else all_loop self location directions [].

Fixpoint find_loop (self : t) (sqs : list Square.t)
  (moves : dict (list GamePiece.t)) : result (dict (list GamePiece.t)) :=
  match sqs with
  | [] => Ok moves
  | square :: rest =>
      can_capture <~ all_can_capture self (Square.location square) ;;
      find_loop self rest
        (match can_capture with
         | [] => moves
         | _ :: _ => dict_set moves (Square.location square) can_capture
         end)
  end.

Definition find_valid_moves (self : t) : result (dict (list GamePiece.t)) :=
  find_loop self (squares self) [].

Fixpoint choose_loop (moves : dict (list GamePiece.t)) (keys : list Z)
  (key length : Z) : result Z :=
  match keys with
  | [] => Ok key
  | k :: rest =>
      v <~ dict_get moves k ;;
      let l := Z.of_nat (List.length v) in
      if l >? length then choose_loop moves rest k l
      else choose_loop moves rest key length
  end.

Definition choose_move (self : t) : result Z :=
  choose_loop (valid_moves self) (dict_keys (valid_moves self)) (-1) 0.

Definition is_full (self : t) : bool :=
  forallb (fun tile => match tile with None => false | Some _ => true end)
    (pieces self).

Definition find_winner (self : t) : string * string :=
  let message :=
    if white self >? black self then "White wins!"%string
    else if black self >? white self then "Black wins!"%string
    else "You tied!"%string in
  let score :=
    ("black: " ++ str (black self) ++ ", white: " ++ str (white self))%string in
  (message, score).

(** [int(0.5 * (n**2 + n))]: [n**2 + n] is even, so halving is exact (the
    float product is exact as long as [n**2 + n] stays below 2^53). *)
Definition find_center_squares (self : t) : list Z :=
  let ur := Z.quot (n self ^ 2 + n self) 2 in
  let ul := ur - 1 in
  let lr := ur - n self in
  let ll := lr - 1 in
  [ul; ur; lr; ll].

Fixpoint init_row (cols : nat) (lst : list Square.t) (index x_corner y_corner : Z)
  : result (list Square.t * Z) :=
  match cols with
  | O => Ok (lst, index)
  | S cols' =>
      sq <~ Square.init index x_corner y_corner ;;
      init_row cols' (lst ++ [sq]) (index + 1) (x_corner + SQUARE) y_corner
  end.

Fixpoint init_rows (rows cols : nat) (lst : list Square.t)
  (index corner y_corner : Z) : result (list Square.t) :=
  match rows with
  | O => Ok lst
  | S rows' =>
      r <~ init_row cols lst index corner y_corner ;;
      init_rows rows' cols (fst r) (snd r) corner (y_corner + SQUARE)
  end.

Definition init_squares (self : t) (corner : Z) : result (list Square.t) :=
  init_rows (Z.to_nat (n self)) (Z.to_nat (n self)) [] 0 corner corner.


(** *** Methods that mutate the board *)

Definition of_result {A} (r : result A) : ST t A := fun s => (r, s).

Definition place (location : Z) : ST t unit :=
  self <- get_state ;;
  assert (valid_index self location) ;;;
  square <- of_result (getitem (squares self) location) ;;
  let (cx, cy) := Square.calc_center square in
  piece <- of_result (GamePiece.init location (turn self) cx cy) ;;
  ps <- of_result (setitem (pieces self) location (Some piece)) ;;
  modify (set_pieces ps) ;;;
  match turn self with
  | White => modify (fun s => set_white (white s + 1) s)
  | Black => modify (fun s => set_black (black s + 1) s)
  end.

(** The tile object found at [self.pieces[location]] is flipped in place;
    on an empty cell [piece] is [None] and reading [piece.color] raises. *)
Definition flip_tile (location : Z) : ST t unit :=
  self <- get_state ;;
  assert (valid_index self location) ;;;
  piece <- of_result (getitem (pieces self) location) ;;
  square <- of_result (getitem (squares self) location) ;;
  empty <- of_result (Square.is_empty square (pieces self)) ;;
  piece' <-
    (if negb empty then
       match piece with
       | Some p =>
           let p' := GamePiece.flip p in
           ps <- of_result (setitem (pieces self) location (Some p')) ;;
           modify (set_pieces ps) ;;;
           ret (Some p')
       | None => raise AttributeError
       end
     else ret piece) ;;
  match piece' with
  | None => raise AttributeError
  | Some p =>
      match GamePiece.color p with
      | White =>
          modify (fun s => set_white (white s + 1) s) ;;;
          modify (fun s => set_black (black s - 1) s)
      | Black =>
          modify (fun s => set_black (black s + 1) s) ;;;
          modify (fun s => set_white (white s - 1) s)
      end
  end.

Fixpoint flip_tiles (tile_list : list GamePiece.t) : ST t unit :=
  match tile_list with
  | [] => ret tt
  | tile :: rest => flip_tile (GamePiece.location tile) ;;; flip_tiles rest
  end.

Definition switch_turns : ST t unit :=
  modify (fun s => match turn s with
                   | White => set_turn Black s
                   | Black => set_turn White s
                   end).

(** [self.valid_moves = self.find_valid_moves()]. *)
Definition refresh_valid_moves : ST t unit :=
  vm <- read find_valid_moves ;;
  modify (set_valid_moves vm).

Definition make_move (location : Z) : ST t unit :=
  self <- get_state ;;
  assert (valid_index self location) ;;;
  place location ;;;
  to_flip <- read (fun s => dict_get (valid_moves s) location) ;;
  flip_tiles to_flip ;;;
  switch_turns ;;;
  refresh_valid_moves.

Fixpoint start_loop (start_tiles : list Z) : ST t unit :=
  match start_tiles with
  | [] => ret tt
  | location :: rest => place location ;;; switch_turns ;;; start_loop rest
  end.

Definition draw_start_tiles : ST t unit :=
  self <- get_state ;;
  start_loop (find_center_squares self).

(** [GameBoard(n)]: the constructor; an exception leaves no object. *)
Definition init (n0 : Z) : result t :=
  if negb (4 <=? n0) then Err AssertionError else
  if n0 mod 2 =? 1 then Err AssertionError else
  let self0 :=
    mk n0 (SQUARE * n0) Black (repeat None (Z.to_nat (n0 * n0))) 0 0 [] [] in
  let start := (- n0 * SQUARE) / 2 in
  sqs <~ init_squares self0 start ;;
  let self1 := set_squares sqs self0 in
  match draw_start_tiles self1 with
  | (Err e, _) => Err e
  | (Ok _, self2) =>
      vm <~ find_valid_moves self2 ;;
      Ok (set_valid_moves vm self2)
  end.

End GameBoard.


(** ** Text files, as far as [save_score] uses them

    A file is its sequence of characters (one byte each; carriage returns and
    characters outside ASCII are outside the model).  A text handle opened
    with ["r+"] reads ahead: [readline] pulls whole chunks of [CHUNK]
    characters from the file until the line is complete, and a [write] that
    follows lands where the read-ahead stopped, not after the line. *)
Module TextFile.

Definition text : Type := list ascii.

Definition CHUNK : nat := Z.to_nat 8192.

Record handle : Type := mk {
  data : text;          (* the file *)
  pos : nat;            (* position of the underlying stream *)
  pending : text        (* read ahead, not yet handed out *)
}.

Definition open (d : text) : handle := mk d 0 [].

Definition newline : ascii := ascii_of_nat 10.

Definition is_newline (c : ascii) : bool := Ascii.eqb c newline.

(** Splits after the first newline, if there is one. *)
Fixpoint cut_line (l : text) : option (text * text) :=
  match l with
  | [] => None
  | c :: tl =>
      if is_newline c then Some ([c], tl)
      else match cut_line tl with
           | Some (line, rest) => Some (c :: line, rest)
           | None => None
           end
  end.

Fixpoint readline_loop (fuel : nat) (h : handle) : text * handle :=
  match cut_line (pending h) with
  | Some (line, rest) => (line, mk (data h) (pos h) rest)
  | None =>
      match fuel with
      | O => (pending h, mk (data h) (pos h) [])
      | S fuel' =>
          let chunk := firstn CHUNK (skipn (pos h) (data h)) in
          match chunk with
          | [] => (pending h, mk (data h) (pos h) [])
          | _ :: _ =>
              readline_loop fuel'
                (mk (data h) (pos h + List.length chunk) (pending h ++ chunk))
          end
      end
  end.

Definition readline (h : handle) : text * handle :=
  readline_loop (List.length (data h)) h.

(** [seek(0, 0)]. *)
Definition rewind (h : handle) : handle := mk (data h) 0 [].

(** [read()]: everything up to the end of the file. *)
Definition read_all (h : handle) : text * handle :=
  (pending h ++ skipn (pos h) (data h),
   mk (data h) (Nat.max (pos h) (List.length (data h))) []).

(** [write(s)]: overwrites from the stream position on, growing the file. *)
Definition write (s : text) (h : handle) : handle :=
  mk (firstn (pos h) (data h) ++ s ++ skipn (pos h + List.length s) (data h))
     (pos h + List.length s) [].

(** Whitespace of [str.strip] and [str.split] within ASCII. *)
Definition is_space (c : ascii) : bool :=
  let k := nat_of_ascii c in
  ((9 <=? k) && (k <=? 13) || (28 <=? k) && (k <=? 32))%nat.

Fixpoint lstrip (l : text) : text :=
  match l with
  | c :: tl => if is_space c then lstrip tl else l
  | [] => []
  end.

Definition strip (l : text) : text := rev (lstrip (rev (lstrip l))).

(** [l.split()]: the maximal runs of non-space characters. *)
Fixpoint split_loop (l : text) (word : text) : list text :=
  match l with
  | [] => match word with [] => [] | _ :: _ => [rev word] end
  | c :: tl =>
      if is_space c then
        match word with
        | [] => split_loop tl []
        | _ :: _ => rev word :: split_loop tl []
        end
      else split_loop tl (c :: word)
  end.

Definition split (l : text) : list text := split_loop l [].

Definition digit_value (c : ascii) : option Z :=
  let k := nat_of_ascii c in
  if ((48 <=? k) && (k <=? 57))%nat then Some (Z.of_nat (k - 48)) else None.

(** Digits with single underscores between them, as [int] accepts. *)
Fixpoint digits_loop (l : text) (acc : Z) (after_digit : bool) : option Z :=
  match l with
  | [] => if after_digit then Some acc else None
  | c :: tl =>
      match digit_value c with
      | Some d => digits_loop tl (10 * acc + d) true
      | None =>
          if Ascii.eqb c "_"%char && after_digit then
            match tl with
            | c' :: _ => match digit_value c' with
                         | Some _ => digits_loop tl acc false
                         | None => None
                         end
            | [] => None
            end
          else None
      end
  end.

(** [int(s)] for a string. *)
Definition int (s : text) : result Z :=
  let body := strip s in
  let parsed :=
    match body with
    | c :: tl =>
        if Ascii.eqb c "-"%char then option_map Z.opp (digits_loop tl 0 false)
        else if Ascii.eqb c "+"%char then digits_loop tl 0 false
        else digits_loop body 0 false
    | [] => None
    end in
  match parsed with
  | Some v => Ok v
  | None => Err ValueError
  end.

Definition encode (s : string) : text := list_ascii_of_string s.

End TextFile.

(** ** The driver: methods of GameBoard that reach outside the board *)
Module Game.

(** What the driver touches besides the board: the lines printed so far, the
    file at [SCORES] (absent, or its characters) and the answers the user
    will give to the name prompts ([None] is a cancelled prompt). *)
Record World : Type := mk {
  board : GameBoard.t;
  stdout : list string;
  scores : option TextFile.text;
  answers : list (option string)
}.

Definition set_board (b : GameBoard.t) (w : World) : World :=
  mk b (stdout w) (scores w) (answers w).

(** Runs a board method inside the world. *)
Definition on_board {A} (m : ST GameBoard.t A) : ST World A :=
  fun w => let (r, b) := m (board w) in (r, set_board b w).

Definition print (line : string) : ST World unit :=
  modify (fun w => mk (board w) (stdout w ++ [line]) (scores w) (answers w)).

(** [window.textinput(...)]. *)
Definition textinput : ST World (option string) :=
  fun w => match answers w with
           | [] => (Ok None, w)
           | a :: rest => (Ok a, mk (board w) (stdout w) (scores w) rest)
           end.

Definition score_line (self : GameBoard.t) (name : string) : TextFile.text :=
  TextFile.encode (name ++ " " ++ str (GameBoard.black self))
    ++ [TextFile.newline].

(** [save_score(name, path)], on the file found at [path]: [None] when no
    such file exists.  Only FileNotFoundError is caught; the handle of a
    call that raises is left unwritten. *)
Definition save_score (self : GameBoard.t) (name : string)
  : ST (option TextFile.text) unit :=
  fun file =>
    match file with
    | None => (Ok tt, Some (TextFile.data
                              (TextFile.write (score_line self name)
                                 (TextFile.open []))))
    | Some d =>
        let (first, h) := TextFile.readline (TextFile.open d) in
        let high_score := TextFile.split (TextFile.strip first) in
        match getitem high_score 1 with
        | Err e => (Err e, Some d)
        | Ok tok =>
            match TextFile.int tok with
            | Err e => (Err e, Some d)
            | Ok high =>
                if GameBoard.black self >? high then
                  let (rest, h1) := TextFile.read_all (TextFile.rewind h) in
                  let h2 := TextFile.write (score_line self name)
                              (TextFile.rewind h1) in
                  let h3 := TextFile.write rest h2 in
                  (Ok tt, Some (TextFile.data h3))
                else
                  let h1 := TextFile.write (score_line self name) h in
                  (Ok tt, Some (TextFile.data h1))
            end
        end
    end.

Definition announce_winner : ST World unit :=
  w <- get_state ;;
  let (message, score) := GameBoard.find_winner (board w) in
  print message ;;;
  print score.

Definition end_game : ST World unit :=
  announce_winner ;;;
  name <- textinput ;;
  match name with
  | Some nm =>
      if negb (String.eqb nm "") then
        fun w =>
          let (r, f) := save_score (board w) nm (scores w) in
          (r, mk (board w) (stdout w) f (answers w))
      else ret tt
  | None => ret tt
  end.

(** [fuel] bounds the depth of the recursion, as the interpreter's recursion
    limit does. *)
Fixpoint computer_move (fuel : nat) : ST World bool :=
  match fuel with
  | O => raise RecursionError
  | S fuel' =>
      choice <- on_board (read GameBoard.choose_move) ;;
      if negb (choice =? -1) then
        on_board (GameBoard.make_move choice) ;;;
        w <- get_state ;;
        let num_possible_user_moves :=
          List.length (GameBoard.valid_moves (board w)) in
        if GameBoard.is_full (board w) then
          end_game ;;; ret true
        else if Nat.eqb num_possible_user_moves 0 then
          on_board GameBoard.switch_turns ;;;
          on_board GameBoard.refresh_valid_moves ;;;
          computer_move fuel'
        else ret true
      else
        on_board GameBoard.switch_turns ;;;
        on_board GameBoard.refresh_valid_moves ;;;
        ret false
  end.

(** The [for] loop of [play] over the squares, left by [break] after the
    first square that was clicked and is a legal move. *)
Fixpoint click_loop (sqs : list Square.t) (cx cy : Z) : ST World unit :=
  match sqs with
  | [] => ret tt
  | square :: rest =>
      w <- get_state ;;
      if Square.was_clicked square cx cy
         && dict_mem (GameBoard.valid_moves (board w)) (Square.location square)
      then on_board (GameBoard.make_move (Square.location square))
      else click_loop rest cx cy
  end.

(** [play(x, y)]; the module-level name [board] it tests for fullness is the
    one GameBoard of the program, that is [self]. *)
Definition play (fuel : nat) (cx cy : Z) : ST World unit :=
  w0 <- get_state ;;
  click_loop (GameBoard.squares (board w0)) cx cy ;;;
  w1 <- get_state ;;
  (if GameBoard.is_full (board w1) then
     end_game ;;;
     on_board (modify (GameBoard.set_turn Black))
   else ret tt) ;;;
  w2 <- get_state ;;
  match GameBoard.turn (board w2) with
  | White =>
      comp_moved <- computer_move fuel ;;
      w3 <- get_state ;;
      if negb comp_moved
         && Nat.eqb (List.length (GameBoard.valid_moves (board w3))) 0
      then end_game
      else ret tt
  | Black => ret tt
  end.

End Game.

(** ** Notions the properties are stated with *)

(** Rows, columns and walks on the grid, in the words of the board geometry:
    index [i] lies in row [i / n] and column [i mod n]; a step in a
    direction changes the row and the column by at most one each and is
    allowed when both stay on the board. *)
Module Grid.

Definition row_step (d : Direction) : Z :=
  match d with
  | Dn | Dne | Dnw => 1
  | Ds | Dse | Dsw => -1
  | De | Dw => 0
  end.

Definition col_step (d : Direction) : Z :=
  match d with
  | De | Dne | Dse => 1
  | Dw | Dnw | Dsw => -1
  | Dn | Ds => 0
  end.

Definition on_grid (n r c : Z) : bool :=
  (0 <=? r) && (r <? n) && (0 <=? c) && (c <? n).

Fixpoint walk (fuel : nat) (n r c : Z) (d : Direction) : list Z :=
  match fuel with
  | O => []
  | S fuel' =>
      let r' := r + row_step d in
      let c' := c + col_step d in
      if on_grid n r' c' then (r' * n + c') :: walk fuel' n r' c' d else []
  end.

(** The cells met when leaving [loc] in direction [d], nearest first. *)
Definition reachable (n loc : Z) (d : Direction) : list Z :=
  walk (Z.to_nat n) n (loc / n) (loc mod n) d.


End Grid.

(** The cells [can_capture_in_direction] visits: the range it iterates. *)
Definition scanned (self : GameBoard.t) (location : Z) (d : Direction)
  : result (list Z) :=
  let inc := GameBoard.set_increment self d in
  end0 <~ GameBoard.set_max_min self location d ;;
  Ok (range (location + inc) (if inc <=? 0 then end0 - 1 else end0 + 1) inc).

(** The tile on a cell, [None] for an empty cell or off the list. *)
Definition tile_at (ps : list (option GamePiece.t)) (loc : Z)
  : option GamePiece.t :=
  if loc <? 0 then None
  else match nth_error ps (Z.to_nat loc) with
       | Some (Some p) => Some p
       | _ => None
       end.

Definition holds (ps : list (option GamePiece.t)) (c : Color) (loc : Z) : bool :=
  match tile_at ps loc with
  | Some p => color_eqb (GamePiece.color p) c
  | None => false
  end.

Definition other (c : Color) : Color :=
  match c with Black => White | White => Black end.

(** The unbroken run of opponent tiles at the head of [cells], and the cells
    left after it. *)
Fixpoint opponent_run (ps : list (option GamePiece.t)) (mover : Color)
  (cells : list Z) : list GamePiece.t * list Z :=
  match cells with
  | [] => ([], [])
  | loc :: rest =>
      match tile_at ps loc with
      | Some p =>
          if color_eqb (GamePiece.color p) mover then ([], cells)
          else let (run, after) := opponent_run ps mover rest in (p :: run, after)
      | None => ([], cells)
      end
  end.

(** The run is closed when the cell right after it carries the mover's
    color. *)
Definition terminated (ps : list (option GamePiece.t)) (mover : Color)
  (cells : list Z) : bool :=
  match snd (opponent_run ps mover cells) with
  | loc :: _ => holds ps mover loc
  | [] => false
  end.

Definition is_color (c : Color) (o : option GamePiece.t) : bool :=
  match o with
  | Some p => color_eqb (GamePiece.color p) c
  | None => false
  end.

Definition is_tile (o : option GamePiece.t) : bool :=
  match o with Some _ => true | None => false end.

Definition is_hole (o : option GamePiece.t) : bool :=
  match o with Some _ => false | None => true end.

(** Tiles of one color, occupied cells and empty cells of a board. *)
Definition count_color (c : Color) (ps : list (option GamePiece.t)) : Z :=
  Z.of_nat (List.length (filter (is_color c) ps)).

Definition occupied (ps : list (option GamePiece.t)) : Z :=
  Z.of_nat (List.length (filter is_tile ps)).

Definition empties (ps : list (option GamePiece.t)) : nat :=
  List.length (filter is_hole ps).

(** The bound of [set_max_min], by row and column. *)
Definition bound (n r c : Z) (d : Direction) : Z :=
  match d with
  | Dn => n * n - 1
  | Ds => 0
  | De => r * n + (n - 1)
  | Dw => r * n
  | Dne => Z.min (n * n - 1) (r * n + (n - 1) + (n - 1 - c) * n)
  | Dse => Z.max 0 (r * n + (n - 1) - (n - 1 - c) * n)
  | Dnw => Z.min (n * n - 1) (r * n + c * n)
  | Dsw => Z.max 0 (r * n - c * n)
  end.

(** The range of the scan, by row and column. *)
Definition ray (n r c : Z) (d : Direction) : list Z :=
  let inc := Grid.row_step d * n + Grid.col_step d in
  range (r * n + c + inc)
        (if inc <=? 0 then bound n r c d - 1 else bound n r c d + 1) inc.

(** Steps left before the edge that the direction runs into. *)
Definition room (n r c : Z) (d : Direction) : Z :=
  match d with
  | Dn | Dne | Dnw => n - 1 - r
  | Ds | Dse | Dsw => r
  | De => n - 1 - c
  | Dw => c
  end.

(** What the loop of the scan leaves, told by the opponent run. *)
Definition loop_outcome (ps : list (option GamePiece.t)) (mover : Color)
  (cells : list Z) (captured : list GamePiece.t) : GameBoard.loop_exit :=
  let (run, after) := opponent_run ps mover cells in
  match after with
  | [] => GameBoard.Finished (captured ++ run)
  | loc :: _ =>
      match tile_at ps loc with
      | None => GameBoard.Returned []
      | Some p => GameBoard.Finished (captured ++ run ++ [p])
      end
  end.

(** The result of the scan over given cells. *)
Definition scan_result (ps : list (option GamePiece.t)) (mover : Color)
  (cells : list Z) : list GamePiece.t :=
  if terminated ps mover cells then fst (opponent_run ps mover cells) else [].

(** All captures from an empty cell, direction by direction. *)
Definition captures (self : GameBoard.t) (loc : Z) : list GamePiece.t :=
  match tile_at (GameBoard.pieces self) loc with
  | Some _ => []
  | None =>
      flat_map (fun d => scan_result (GameBoard.pieces self) (GameBoard.turn self)
                           (Grid.reachable (GameBoard.n self) loc d))
        GameBoard.directions
  end.

Definition cell_indices (n : Z) : list Z := map Z.of_nat (seq 0 (Z.to_nat (n * n))).

Definition move_entry (self : GameBoard.t) (loc : Z) : dict (list GamePiece.t) :=
  match captures self loc with
  | [] => []
  | _ :: _ => [(loc, captures self loc)]
  end.

(** The legal-move table of a position. *)
Definition legal_moves (self : GameBoard.t) : dict (list GamePiece.t) :=
  flat_map (move_entry self) (cell_indices (GameBoard.n self)).

(** The board has the shape the constructor gives it. *)
Record board_shape (self : GameBoard.t) : Prop := {
  shape_n : 2 <= GameBoard.n self;
  shape_pieces :
    Z.of_nat (List.length (GameBoard.pieces self)) = GameBoard.n self * GameBoard.n self;
  shape_squares :
    map Square.location (GameBoard.squares self) = cell_indices (GameBoard.n self);
  shape_located :
    forall loc p, tile_at (GameBoard.pieces self) loc = Some p -> GamePiece.location p = loc
}.

(** The counters agree with the board. *)
Definition counts_ok (self : GameBoard.t) : Prop :=
  GameBoard.black self = count_color Black (GameBoard.pieces self) /\
  GameBoard.white self = count_color White (GameBoard.pieces self).

(** One more tile of color [c] counted. *)
Definition add_count (c : Color) (self : GameBoard.t) : GameBoard.t :=
  match c with
  | White => GameBoard.set_white (GameBoard.white self + 1) self
  | Black => GameBoard.set_black (GameBoard.black self + 1) self
  end.

(** One unit of count moved to color [c] from the other color. *)
Definition move_count (c : Color) (self : GameBoard.t) : GameBoard.t :=
  match c with
  | White =>
      GameBoard.set_black (GameBoard.black self - 1)
        (GameBoard.set_white (GameBoard.white self + 1) self)
  | Black =>
      GameBoard.set_white (GameBoard.white self - 1)
        (GameBoard.set_black (GameBoard.black self + 1) self)
  end.

(** The board after a tile [p] is put on cell [loc]. *)
Definition with_tile (loc : Z) (p : GamePiece.t) (self : GameBoard.t) : GameBoard.t :=
  GameBoard.set_pieces (set_nth (GameBoard.pieces self) (Z.to_nat loc) (Some p)) self.

Definition new_piece (self : GameBoard.t) (loc : Z) (sq : Square.t) : GamePiece.t :=
  GamePiece.mk loc (GameBoard.turn self)
    (fst (Square.calc_center sq)) (snd (Square.calc_center sq)).

(** The state every method of the game keeps: shape, counters, and a
    legal-move table that belongs to the position. *)
Record wf (self : GameBoard.t) : Prop := {
  wf_shape : board_shape self;
  wf_counts : counts_ok self;
  wf_moves : GameBoard.valid_moves self = legal_moves self
}.

(** Two boards that differ at most in tile colors and counters. *)
Record same_frame (a b : GameBoard.t) : Prop := {
  frame_n : GameBoard.n b = GameBoard.n a;
  frame_size : GameBoard.size b = GameBoard.size a;
  frame_squares : GameBoard.squares b = GameBoard.squares a;
  frame_turn : GameBoard.turn b = GameBoard.turn a;
  frame_moves : GameBoard.valid_moves b = GameBoard.valid_moves a;
  frame_cells : forall j,
    is_tile (tile_at (GameBoard.pieces b) j) = is_tile (tile_at (GameBoard.pieces a) j);
  frame_empties : empties (GameBoard.pieces b) = empties (GameBoard.pieces a)
}.

(** The board once the turn has passed to the other color and the table has
    been recomputed for it. *)
Definition switched (self : GameBoard.t) : GameBoard.t :=
  GameBoard.set_turn (other (GameBoard.turn self)) self.

Definition passed (self : GameBoard.t) : GameBoard.t :=
  GameBoard.set_valid_moves (legal_moves (switched self)) (switched self).

(** The board after the tile of a move is placed and its captures are
    flipped, before the turn passes. *)
Record moved (self : GameBoard.t) (k : Z) (s2 : GameBoard.t) : Prop := {
  moved_shape : board_shape s2;
  moved_counts : counts_ok s2;
  moved_n : GameBoard.n s2 = GameBoard.n self;
  moved_squares : GameBoard.squares s2 = GameBoard.squares self;
  moved_turn : GameBoard.turn s2 = GameBoard.turn self;
  moved_cells : forall j,
    is_tile (tile_at (GameBoard.pieces s2) j)
    = (j =? k) || is_tile (tile_at (GameBoard.pieces self) j);
  moved_empties : S (empties (GameBoard.pieces s2)) = empties (GameBoard.pieces self)
}.

Fixpoint alternate (k : nat) (c : Color) : Color :=
  match k with
  | O => c
  | S k' => alternate k' (other c)
  end.

(** [k] is the first key of the table whose capture list is longest. *)
Definition first_longest {V} (moves : dict (list V)) (k : Z) : Prop :=
  exists pre v post,
    moves = pre ++ (k, v) :: post /\
    (forall k' v', In (k', v') pre -> (List.length v' < List.length v)%nat) /\
    (forall k' v', In (k', v') post -> (List.length v' <= List.length v)%nat).

(** What the loop of [choose_move] has found after the entries [seen]. *)
Definition best_so_far {V} (seen : dict (list V)) (key length : Z) : Prop :=
  (seen = [] /\ key = -1 /\ length = 0) \/
  (exists pre v post,
     seen = pre ++ (key, v) :: post /\ length = Z.of_nat (List.length v) /\
     (forall k' v', In (k', v') pre -> (List.length v' < List.length v)%nat) /\
     (forall k' v', In (k', v') post -> (List.length v' <= List.length v)%nat)).

(** How a run of computer turns ends. *)
Inductive verdict : Type :=
| Yield      (* the human has a legal move and is to play *)
| NoMove     (* the computer had no legal move; the turn went back *)
| Over.      (* the board is full *)

(** The turn-exhaustion policy for the computer: from board [b], with the
    computer to move, the turns end on board [b'] with verdict [v]. *)
Inductive turns : GameBoard.t -> GameBoard.t -> verdict -> Prop :=
| turns_none b :
    GameBoard.choose_move b = Ok (-1) ->
    turns b (passed b) NoMove
| turns_full b k b1 :
    GameBoard.choose_move b = Ok k -> k <> -1 ->
    GameBoard.make_move k b = (Ok tt, b1) ->
    GameBoard.is_full b1 = true ->
    turns b b1 Over
| turns_yield b k b1 :
    GameBoard.choose_move b = Ok k -> k <> -1 ->
    GameBoard.make_move k b = (Ok tt, b1) ->
    GameBoard.is_full b1 = false ->
    GameBoard.valid_moves b1 <> [] ->
    turns b b1 Yield
| turns_again b k b1 b' v :
    GameBoard.choose_move b = Ok k -> k <> -1 ->
    GameBoard.make_move k b = (Ok tt, b1) ->
    GameBoard.is_full b1 = false ->
    GameBoard.valid_moves b1 = [] ->
    turns (passed b1) b' v ->
    turns b b' v.

(** What [computer_move] returns for each verdict, on the world [w] whose
    board is the final one. *)
Definition finish (v : verdict) : ST Game.World bool :=
  match v with
  | Yield => ret true
  | NoMove => ret false
  | Over => Game.end_game ;;; ret true
  end.

(** The game has been declared over between two worlds: the winner's
    message and the score were printed. *)
Definition declared_over (w w' : Game.World) : Prop :=
  Game.stdout w' <> Game.stdout w.

(** The square a click selects: clicked and a key of the table. *)
Definition selects (w : Game.World) (cx cy : Z) (sq : Square.t) : bool :=
  Square.was_clicked sq cx cy
  && dict_mem (GameBoard.valid_moves (Game.board w)) (Square.location sq).


(** The states of a game: the board the constructor builds, then any legal
    move, or a pass of the turn with the table recomputed (what
    [computer_move] does when a side cannot move). *)
Inductive reachable : GameBoard.t -> Prop :=
| reach_init n0 self :
    GameBoard.init n0 = Ok self -> reachable self
| reach_move self k self' :
    reachable self ->
    dict_mem (GameBoard.valid_moves self) k = true ->
    GameBoard.make_move k self = (Ok tt, self') ->
    reachable self'
| reach_pass self self' :
    reachable self ->
    (GameBoard.switch_turns ;;; GameBoard.refresh_valid_moves) self = (Ok tt, self') ->
    reachable self'.

(** The board of [GameBoard(8)], as the program starts it. *)
Definition board8 : GameBoard.t :=
  Eval vm_compute in
    match GameBoard.init 8 with
    | Ok b => b
    | Err _ => GameBoard.mk 8 0 Black [] 0 0 [] []
    end.

(** The occupied cells of a board with their colors, in index order. *)
Definition tiles_on (self : GameBoard.t) : list (Z * Color) :=
  flat_map (fun loc => match tile_at (GameBoard.pieces self) loc with
                       | Some p => [(loc, GamePiece.color p)]
                       | None => []
                       end)
    (cell_indices (GameBoard.n self)).

(** ** Notions for the further properties *)

(** The counter of a color. *)
Definition count_of (c : Color) (self : GameBoard.t) : Z :=
  match c with
  | Black => GameBoard.black self
  | White => GameBoard.white self
  end.

(** Tiles of color [c] among [k] tiles placed in turn, starting with
    [first]. *)
Fixpoint placed_count (k : nat) (first c : Color) : Z :=
  match k with
  | O => 0
  | S k' => (if color_eqb first c then 1 else 0) + placed_count k' (other first) c
  end.

(** The square of index [i] on a board of side [n] whose first square has
    its lower left corner at [(corner, corner)]. *)
Definition square_of (n corner i : Z) : Square.t :=
  Square.mk i (corner + SQUARE * (i mod n)) (corner + SQUARE * (i / n)) SQUARE.


Definition no_space (l : TextFile.text) : Prop :=
  forallb (fun c => negb (TextFile.is_space c)) l = true.



Definition opposite (d : Direction) : Direction :=
  match d with
  | Dn => Ds | Ds => Dn | De => Dw | Dw => De
  | Dne => Dsw | Dsw => Dne | Dnw => Dse | Dse => Dnw
  end.

(** * Proofs *)

Section RangeFacts.

Lemma range_len_nil_pos start stop step :
  0 < step -> stop <= start -> range_len start stop step = O.
Proof.
  intros Hs Hle. unfold range_len.
  destruct (0 <? step) eqn:E; [|apply Z.ltb_ge in E; lia].
  destruct (start <? stop) eqn:E2; [apply Z.ltb_lt in E2; lia|reflexivity].
Qed.

Lemma range_len_cons_pos start stop step :
  0 < step -> start < stop ->
  range_len start stop step = S (range_len (start + step) stop step).
Proof.
  intros Hs Hlt. unfold range_len.
  destruct (0 <? step) eqn:E; [|apply Z.ltb_ge in E; lia].
  destruct (start <? stop) eqn:E2; [|apply Z.ltb_ge in E2; lia].
  destruct (start + step <? stop) eqn:E3.
  - apply Z.ltb_lt in E3.
    replace (stop - start - 1) with ((stop - (start + step) - 1) + 1 * step) by lia.
    rewrite Z.div_add by lia.
    assert (0 <= (stop - (start + step) - 1) / step) by (apply Z.div_pos; lia).
    lia.
  - apply Z.ltb_ge in E3.
    rewrite Z.div_small by lia. reflexivity.
Qed.

Lemma range_len_nil_neg start stop step :
  step < 0 -> start <= stop -> range_len start stop step = O.
Proof.
  intros Hs Hle. unfold range_len.
  destruct (0 <? step) eqn:E; [apply Z.ltb_lt in E; lia|].
  destruct (stop <? start) eqn:E2; [apply Z.ltb_lt in E2; lia|reflexivity].
Qed.

Lemma range_len_cons_neg start stop step :
  step < 0 -> stop < start ->
  range_len start stop step = S (range_len (start + step) stop step).
Proof.
  intros Hs Hlt. unfold range_len.
  destruct (0 <? step) eqn:E; [apply Z.ltb_lt in E; lia|].
  destruct (stop <? start) eqn:E2; [|apply Z.ltb_ge in E2; lia].
  destruct (stop <? start + step) eqn:E3.
  - apply Z.ltb_lt in E3.
    replace (start - stop - 1) with ((start + step - stop - 1) + 1 * (- step)) by lia.
    rewrite Z.div_add by lia.
    assert (0 <= (start + step - stop - 1) / (- step)) by (apply Z.div_pos; lia).
    lia.
  - apply Z.ltb_ge in E3.
    rewrite Z.div_small by lia. reflexivity.
Qed.

Lemma range_shift (start step : Z) (len : nat) :
  map (fun k => start + Z.of_nat k * step) (seq 1 len)
  = map (fun k => start + step + Z.of_nat k * step) (seq 0 len).
Proof.
  rewrite <- seq_shift, map_map. apply map_ext. intros k. lia.
Qed.

Lemma range_unfold start stop step :
  range_len start stop step = S (range_len (start + step) stop step) ->
  range start stop step = start :: range (start + step) stop step.
Proof.
  intros H. unfold range. rewrite H. cbn [seq map].
  rewrite range_shift. f_equal. lia.
Qed.

Lemma range_nil_pos start stop step :
  0 < step -> stop <= start -> range start stop step = [].
Proof. intros. unfold range. now rewrite range_len_nil_pos. Qed.

Lemma range_cons_pos start stop step :
  0 < step -> start < stop ->
  range start stop step = start :: range (start + step) stop step.
Proof. intros. now apply range_unfold, range_len_cons_pos. Qed.

Lemma range_nil_neg start stop step :
  step < 0 -> start <= stop -> range start stop step = [].
Proof. intros. unfold range. now rewrite range_len_nil_neg. Qed.

Lemma range_cons_neg start stop step :
  step < 0 -> stop < start ->
  range start stop step = start :: range (start + step) stop step.
Proof. intros. now apply range_unfold, range_len_cons_neg. Qed.

End RangeFacts.

Lemma div_rc n r c : 0 < n -> 0 <= c < n -> (r * n + c) / n = r.
Proof.
  intros Hn Hc. symmetry. apply (Z.div_unique _ _ _ c); lia.
Qed.

Lemma mod_rc n r c : 0 < n -> 0 <= c < n -> (r * n + c) mod n = c.
Proof.
  intros Hn Hc. symmetry. apply (Z.mod_unique _ _ r); lia.
Qed.

Lemma rc_of_loc n loc :
  0 < n -> 0 <= loc < n * n ->
  loc = (loc / n) * n + loc mod n /\ 0 <= loc / n < n /\ 0 <= loc mod n < n.
Proof.
  intros Hn Hl.
  pose proof (Z.div_mod loc n ltac:(lia)) as E.
  pose proof (Z.mod_pos_bound loc n Hn) as Hm.
  split; [lia|]. split; [|exact Hm].
  split.
  - apply Z.div_pos; lia.
  - apply Z.div_lt_upper_bound; lia.
Qed.

Lemma rc_valid n r c :
  0 < n -> 0 <= r < n -> 0 <= c < n -> 0 <= r * n + c < n * n.
Proof. intros. nia. Qed.

Lemma valid_index_rc self r c :
  0 < GameBoard.n self -> 0 <= r < GameBoard.n self -> 0 <= c < GameBoard.n self ->
  GameBoard.valid_index self (r * GameBoard.n self + c) = true.
Proof.
  intros Hn Hr Hc. unfold GameBoard.valid_index. rewrite Z.pow_2_r.
  pose proof (rc_valid _ r c Hn Hr Hc).
  apply andb_true_intro. split; [apply Z.leb_le|apply Z.ltb_lt]; lia.
Qed.

Lemma set_max_min_rc self r c d :
  0 < GameBoard.n self -> 0 <= r < GameBoard.n self -> 0 <= c < GameBoard.n self ->
  GameBoard.set_max_min self (r * GameBoard.n self + c) d
  = Ok (bound (GameBoard.n self) r c d).
Proof.
  intros Hn Hr Hc. unfold GameBoard.set_max_min.
  rewrite valid_index_rc by assumption. cbn [negb].
  unfold GameBoard.max_min_pair.
  rewrite div_rc, mod_rc by assumption. rewrite Z.pow_2_r.
  destruct d; cbn [bound]; try reflexivity;
    repeat match goal with
    | |- context [r * ?n + c - r * ?n] =>
        replace (r * n + c - r * n) with c by lia
    end;
    match goal with
    | |- context [?a >? ?b] => rewrite (Z.gtb_ltb a b); destruct (Z.ltb_spec b a)
    | |- context [?a <? ?b] => destruct (Z.ltb_spec a b)
    end; f_equal; lia.
Qed.

(** The increment follows the row and column steps. *)
Lemma set_increment_steps self d :
  GameBoard.set_increment self d
  = Grid.row_step d * GameBoard.n self + Grid.col_step d.
Proof.
  destruct d; cbn [GameBoard.set_increment Grid.row_step Grid.col_step]; lia.
Qed.

(** Along a ray the bound does not move. *)
Lemma bound_step n r c d :
  bound n (r + Grid.row_step d) (c + Grid.col_step d) d = bound n r c d.
Proof. destruct d; cbn [bound Grid.row_step Grid.col_step]; f_equal; lia. Qed.

(** A step stays on the grid exactly when it stays within the bound. *)
Lemma step_within_bound n r c d :
  2 <= n -> 0 <= r < n -> 0 <= c < n ->
  let inc := Grid.row_step d * n + Grid.col_step d in
  let nxt := r * n + c + inc in
  Grid.on_grid n (r + Grid.row_step d) (c + Grid.col_step d)
  = if inc <=? 0 then bound n r c d - 1 <? nxt else nxt <? bound n r c d + 1.
Proof.
  intros Hn Hr Hc inc nxt. subst inc nxt. unfold Grid.on_grid.
  destruct d; cbn [bound Grid.row_step Grid.col_step];
    repeat match goal with
    | |- context [?a <=? ?b] => destruct (Z.leb_spec a b)
    | |- context [?a <? ?b] => destruct (Z.ltb_spec a b)
    end; cbn [andb]; try reflexivity; try nia.
Qed.

Lemma inc_sign n d :
  2 <= n ->
  let inc := Grid.row_step d * n + Grid.col_step d in
  (inc <=? 0) = true /\ inc < 0 \/ (inc <=? 0) = false /\ 0 < inc.
Proof.
  intros Hn inc. subst inc.
  destruct (Z.leb_spec (Grid.row_step d * n + Grid.col_step d) 0) as [H|H].
  - left. split; [reflexivity|].
    destruct d; cbn [Grid.row_step Grid.col_step] in *; lia.
  - right. split; [reflexivity|lia].
Qed.

Lemma ray_unfold n r c d :
  2 <= n -> 0 <= r < n -> 0 <= c < n ->
  ray n r c d =
  if Grid.on_grid n (r + Grid.row_step d) (c + Grid.col_step d)
  then ((r + Grid.row_step d) * n + (c + Grid.col_step d))
         :: ray n (r + Grid.row_step d) (c + Grid.col_step d) d
  else [].
Proof.
  intros Hn Hr Hc.
  rewrite (step_within_bound n r c d Hn Hr Hc). cbv zeta.
  unfold ray. rewrite bound_step.
  set (inc := Grid.row_step d * n + Grid.col_step d).
  replace ((r + Grid.row_step d) * n + (c + Grid.col_step d))
    with (r * n + c + inc) by (subst inc; lia).
  destruct (inc_sign n d Hn) as [[E Hs]|[E Hs]]; fold inc in E, Hs; rewrite E.
  - destruct (Z.ltb_spec (bound n r c d - 1) (r * n + c + inc)).
    + now apply range_cons_neg.
    + now apply range_nil_neg.
  - destruct (Z.ltb_spec (r * n + c + inc) (bound n r c d + 1)).
    + now apply range_cons_pos.
    + now apply range_nil_pos.
Qed.

Lemma walk_ray fuel : forall n r c d,
  2 <= n -> 0 <= r < n -> 0 <= c < n ->
  room n r c d < Z.of_nat fuel ->
  Grid.walk fuel n r c d = ray n r c d.
Proof.
  induction fuel as [|fuel IH]; intros n r c d Hn Hr Hc Hroom.
  - exfalso. destruct d; cbn [room] in Hroom; lia.
  - rewrite ray_unfold by assumption. cbn [Grid.walk].
    destruct (Grid.on_grid n (r + Grid.row_step d) (c + Grid.col_step d)) eqn:E;
      [|reflexivity].
    f_equal. unfold Grid.on_grid in E.
    apply andb_prop in E. destruct E as [E E4].
    apply andb_prop in E. destruct E as [E E3].
    apply andb_prop in E. destruct E as [E1 E2].
    apply Z.leb_le in E1, E3. apply Z.ltb_lt in E2, E4.
    apply IH; try lia.
    destruct d; cbn [room Grid.row_step Grid.col_step] in *; lia.
Qed.

Lemma room_lt n r c d :
  0 <= r < n -> 0 <= c < n -> room n r c d < n.
Proof. intros. destruct d; cbn [room]; lia. Qed.

Lemma scanned_ray self r c d :
  0 < GameBoard.n self -> 0 <= r < GameBoard.n self -> 0 <= c < GameBoard.n self ->
  scanned self (r * GameBoard.n self + c) d = Ok (ray (GameBoard.n self) r c d).
Proof.
  intros Hn Hr Hc. unfold scanned.
  rewrite set_max_min_rc by assumption. cbn [rbind].
  rewrite set_increment_steps. reflexivity.
Qed.

(** The scan visits exactly the cells of the walk. *)
Lemma scanned_reachable self loc d :
  2 <= GameBoard.n self -> 0 <= loc < GameBoard.n self * GameBoard.n self ->
  scanned self loc d = Ok (Grid.reachable (GameBoard.n self) loc d).
Proof.
  intros Hn Hl.
  destruct (rc_of_loc (GameBoard.n self) loc ltac:(lia) Hl) as (E & Hr & Hc).
  rewrite E at 1. rewrite scanned_ray by (assumption || lia).
  f_equal. unfold Grid.reachable. symmetry. apply walk_ray; try assumption.
  rewrite Z2Nat.id by lia. now apply room_lt.
Qed.

(** Every cell of a walk is on the board. *)
Lemma walk_valid fuel : forall n r c d loc,
  0 < n -> In loc (Grid.walk fuel n r c d) -> 0 <= loc < n * n.
Proof.
  induction fuel as [|fuel IH]; intros n r c d loc Hn Hin; [destruct Hin|].
  cbn [Grid.walk] in Hin.
  destruct (Grid.on_grid n (r + Grid.row_step d) (c + Grid.col_step d)) eqn:E;
    [|destruct Hin].
  destruct Hin as [<-|Hin]; [|now apply IH in Hin].
  unfold Grid.on_grid in E.
  apply andb_prop in E. destruct E as [E E4].
  apply andb_prop in E. destruct E as [E E3].
  apply andb_prop in E. destruct E as [E1 E2].
  apply Z.leb_le in E1, E3. apply Z.ltb_lt in E2, E4.
  apply rc_valid; lia.
Qed.

Lemma reachable_valid n loc d cell :
  0 < n -> In cell (Grid.reachable n loc d) -> 0 <= cell < n * n.
Proof. intros Hn. apply walk_valid, Hn. Qed.


Lemma on_grid_true n r c :
  Grid.on_grid n r c = true -> 0 <= r < n /\ 0 <= c < n.
Proof.
  unfold Grid.on_grid. intros E.
  apply andb_prop in E. destruct E as [E E4].
  apply andb_prop in E. destruct E as [E E3].
  apply andb_prop in E. destruct E as [E1 E2].
  apply Z.leb_le in E1, E3. apply Z.ltb_lt in E2, E4. lia.
Qed.





Lemma norm_index_in_range {A} (l : list A) (i : Z) :
  0 <= i < Z.of_nat (List.length l) -> norm_index l i = Some (Z.to_nat i).
Proof.
  intros H. unfold norm_index.
  destruct (Z.ltb_spec i 0); [lia|].
  destruct (Z.leb_spec 0 i); [|lia].
  destruct (Z.ltb_spec i (Z.of_nat (List.length l))); [|lia].
  reflexivity.
Qed.

Lemma getitem_in_range {A} (l : list A) (i : Z) :
  0 <= i < Z.of_nat (List.length l) ->
  exists a, nth_error l (Z.to_nat i) = Some a /\ getitem l i = Ok a.
Proof.
  intros H. unfold getitem. rewrite norm_index_in_range by assumption.
  destruct (nth_error l (Z.to_nat i)) as [a|] eqn:E.
  - now exists a.
  - apply nth_error_None in E. lia.
Qed.

Lemma getitem_tile (ps : list (option GamePiece.t)) (loc : Z) :
  0 <= loc < Z.of_nat (List.length ps) ->
  getitem ps loc = Ok (tile_at ps loc).
Proof.
  intros H. destruct (getitem_in_range ps loc H) as (a & E1 & E2).
  rewrite E2. unfold tile_at.
  destruct (Z.ltb_spec loc 0); [lia|]. rewrite E1. now destruct a.
Qed.

Lemma color_eqb_eq a b : color_eqb a b = true <-> a = b.
Proof. destruct a, b; cbn; split; intros; congruence. Qed.

Lemma color_eqb_neq a b : color_eqb a b = false <-> a <> b.
Proof. destruct a, b; cbn; split; intros; congruence. Qed.

Lemma capture_loop_outcome self cells : forall captured,
  (forall c, In c cells -> 0 <= c < Z.of_nat (List.length (GameBoard.pieces self))) ->
  GameBoard.capture_loop self cells captured
  = Ok (loop_outcome (GameBoard.pieces self) (GameBoard.turn self) cells captured).
Proof.
  induction cells as [|loc rest IH]; intros captured Hin.
  - cbn. now rewrite app_nil_r.
  - cbn [GameBoard.capture_loop].
    rewrite getitem_tile by (apply Hin; now left). cbn [rbind].
    unfold loop_outcome. cbn [opponent_run].
    destruct (tile_at (GameBoard.pieces self) loc) as [p|] eqn:Et.
    + destruct (color_eqb (GamePiece.color p) (GameBoard.turn self)) eqn:Ec;
        cbn [negb].
      * rewrite Et. reflexivity.
      * rewrite IH by (intros c Hc; apply Hin; now right).
        unfold loop_outcome.
        destruct (opponent_run (GameBoard.pieces self) (GameBoard.turn self) rest)
          as [run after].
        destruct after as [|loc' after'].
        -- now rewrite <- app_assoc.
        -- destruct (tile_at (GameBoard.pieces self) loc');
             [now rewrite <- !app_assoc|reflexivity].
    + rewrite Et. reflexivity.
Qed.

(** The tiles of a run are the opponent's. *)
Lemma opponent_run_colors ps mover cells :
  Forall (fun p => GamePiece.color p = other mover)
    (fst (opponent_run ps mover cells)).
Proof.
  induction cells as [|loc rest IH]; cbn [opponent_run]; [constructor|].
  destruct (tile_at ps loc) as [p|]; [|constructor].
  destruct (color_eqb (GamePiece.color p) mover) eqn:Ec; [constructor|].
  destruct (opponent_run ps mover rest) as [run after]. cbn [fst] in *.
  constructor; [|exact IH].
  apply color_eqb_neq in Ec. destruct (GamePiece.color p), mover; cbn; congruence.
Qed.

(** The cell after the run, when there is one, is empty or the mover's. *)
Lemma opponent_run_after ps mover cells loc after :
  snd (opponent_run ps mover cells) = loc :: after ->
  match tile_at ps loc with
  | Some p => GamePiece.color p = mover
  | None => True
  end.
Proof.
  induction cells as [|c rest IH]; cbn [opponent_run]; [discriminate|].
  destruct (tile_at ps c) as [p|] eqn:Et.
  - destruct (color_eqb (GamePiece.color p) mover) eqn:Ec.
    + cbn [snd]. intros [= <- <-]. rewrite Et. now apply color_eqb_eq.
    + destruct (opponent_run ps mover rest) as [run after']. cbn [snd] in *.
      exact IH.
  - cbn [snd]. intros [= <- <-]. now rewrite Et.
Qed.

Lemma rev_snoc_head {A} (l : list A) (a : A) : rev (l ++ [a]) = a :: rev l.
Proof. now rewrite rev_app_distr. Qed.

Lemma can_capture_in_direction_cells self loc d :
  2 <= GameBoard.n self ->
  Z.of_nat (List.length (GameBoard.pieces self)) = GameBoard.n self * GameBoard.n self ->
  0 <= loc < GameBoard.n self * GameBoard.n self ->
  GameBoard.can_capture_in_direction self loc d
  = Ok (scan_result (GameBoard.pieces self) (GameBoard.turn self)
          (Grid.reachable (GameBoard.n self) loc d)).
Proof.
  intros Hn Hlen Hloc.
  pose proof (scanned_reachable self loc d Hn Hloc) as Hscan.
  unfold scanned in Hscan. unfold GameBoard.can_capture_in_direction.
  assert (Hv : GameBoard.valid_index self loc = true).
  { unfold GameBoard.valid_index. rewrite Z.pow_2_r.
    apply andb_true_intro. split; [apply Z.leb_le|apply Z.ltb_lt]; lia. }
  rewrite Hv. cbn [negb].
  destruct (GameBoard.set_max_min self loc d) as [e|err]; [|discriminate].
  cbn [rbind] in *. injection Hscan as Hscan. rewrite Hscan.
  assert (Hinc : (GameBoard.set_increment self d =? 0) = false).
  { rewrite set_increment_steps. apply Z.eqb_neq.
    destruct (inc_sign (GameBoard.n self) d Hn) as [[_ H]|[_ H]]; lia. }
  rewrite Hinc.
  rewrite capture_loop_outcome.
  2:{ intros c Hc. rewrite Hlen. eapply reachable_valid; [lia|exact Hc]. }
  cbn [rbind]. unfold loop_outcome, scan_result, terminated, holds.
  set (cells := Grid.reachable (GameBoard.n self) loc d).
  pose proof (opponent_run_colors (GameBoard.pieces self) (GameBoard.turn self) cells) as Hcol.
  pose proof (opponent_run_after (GameBoard.pieces self) (GameBoard.turn self) cells) as Haft.
  destruct (opponent_run (GameBoard.pieces self) (GameBoard.turn self) cells)
    as [run after]. cbn [fst snd] in *.
  destruct after as [|c after].
  - cbn [app]. destruct (rev run) as [|lst tl] eqn:Er; [reflexivity|].
    assert (Hl : In lst run) by (apply in_rev; rewrite Er; now left).
    rewrite Forall_forall in Hcol. apply Hcol in Hl.
    replace (color_eqb (GamePiece.color lst) (GameBoard.turn self)) with false;
      [reflexivity|].
    symmetry. apply color_eqb_neq. rewrite Hl.
    destruct (GameBoard.turn self); cbn; congruence.
  - specialize (Haft c after eq_refl).
    destruct (tile_at (GameBoard.pieces self) c) as [p|]; [|reflexivity].
    cbn [app]. rewrite rev_snoc_head.
    apply color_eqb_eq in Haft. rewrite Haft.
    now rewrite removelast_last.
Qed.

Lemma valid_index_true self loc :
  0 <= loc < GameBoard.n self * GameBoard.n self ->
  GameBoard.valid_index self loc = true.
Proof.
  intros H. unfold GameBoard.valid_index. rewrite Z.pow_2_r.
  apply andb_true_intro. split; [apply Z.leb_le|apply Z.ltb_lt]; lia.
Qed.

Lemma valid_index_range self loc :
  GameBoard.valid_index self loc = true ->
  0 <= loc < GameBoard.n self * GameBoard.n self.
Proof.
  unfold GameBoard.valid_index. rewrite Z.pow_2_r. intros H.
  apply andb_prop in H. destruct H as [H1 H2].
  apply Z.leb_le in H1. apply Z.ltb_lt in H2. lia.
Qed.

Lemma cell_indices_length n : 0 <= n -> Z.of_nat (List.length (cell_indices n)) = n * n.
Proof.
  intros Hn. unfold cell_indices. rewrite length_map, length_seq. lia.
Qed.

Lemma cell_indices_nth n loc :
  0 <= loc < n * n -> nth_error (cell_indices n) (Z.to_nat loc) = Some loc.
Proof.
  intros H. unfold cell_indices.
  rewrite nth_error_map, nth_error_seq.
  destruct (Nat.ltb_spec (Z.to_nat loc) (Z.to_nat (n * n))); [|lia].
  cbn. f_equal. lia.
Qed.

Lemma cell_indices_in n loc : In loc (cell_indices n) <-> 0 <= loc < n * n.
Proof.
  unfold cell_indices. rewrite in_map_iff. split.
  - intros (k & <- & Hk). apply in_seq in Hk. lia.
  - intros H. exists (Z.to_nat loc). split; [lia|]. apply in_seq. lia.
Qed.

Lemma square_at self loc :
  board_shape self -> 0 <= loc < GameBoard.n self * GameBoard.n self ->
  exists sq, getitem (GameBoard.squares self) loc = Ok sq /\ Square.location sq = loc.
Proof.
  intros Hs Hl.
  assert (Hlen : Z.of_nat (List.length (GameBoard.squares self))
                 = GameBoard.n self * GameBoard.n self).
  { rewrite <- (length_map Square.location), (shape_squares _ Hs).
    apply cell_indices_length. pose proof (shape_n _ Hs). lia. }
  destruct (getitem_in_range (GameBoard.squares self) loc ltac:(lia)) as (sq & E1 & E2).
  exists sq. split; [exact E2|].
  pose proof (cell_indices_nth (GameBoard.n self) loc Hl) as E3.
  rewrite <- (shape_squares _ Hs), nth_error_map, E1 in E3. cbn in E3. congruence.
Qed.

Lemma all_loop_flat_map self loc dirs : forall captured,
  2 <= GameBoard.n self ->
  Z.of_nat (List.length (GameBoard.pieces self)) = GameBoard.n self * GameBoard.n self ->
  0 <= loc < GameBoard.n self * GameBoard.n self ->
  GameBoard.all_loop self loc dirs captured
  = Ok (captured ++
        flat_map (fun d => scan_result (GameBoard.pieces self) (GameBoard.turn self)
                             (Grid.reachable (GameBoard.n self) loc d)) dirs).
Proof.
  induction dirs as [|d rest IH]; intros captured Hn Hlen Hloc.
  - cbn. now rewrite app_nil_r.
  - cbn [GameBoard.all_loop flat_map].
    rewrite can_capture_in_direction_cells by assumption. cbn [rbind].
    rewrite IH by assumption. now rewrite app_assoc.
Qed.

Lemma all_can_capture_captures self loc :
  board_shape self -> 0 <= loc < GameBoard.n self * GameBoard.n self ->
  GameBoard.all_can_capture self loc = Ok (captures self loc).
Proof.
  intros Hs Hl. unfold GameBoard.all_can_capture, captures.
  rewrite valid_index_true by assumption. cbn [negb].
  destruct (square_at self loc Hs Hl) as (sq & -> & Esq). cbn [rbind].
  unfold Square.is_empty. rewrite Esq.
  rewrite getitem_tile by (rewrite (shape_pieces _ Hs); exact Hl). cbn [rbind].
  destruct (tile_at (GameBoard.pieces self) loc); cbn [negb]; [reflexivity|].
  rewrite all_loop_flat_map; try assumption; [reflexivity|apply Hs|apply Hs].
Qed.

(** Keys of the table, in order. *)
Lemma move_entry_keys self loc k :
  In k (dict_keys (move_entry self loc)) -> k = loc.
Proof.
  unfold move_entry. destruct (captures self loc); cbn; [tauto|].
  intros [H|[]]. now symmetry.
Qed.

Lemma dict_keys_app {V} (a b : dict V) : dict_keys (a ++ b) = dict_keys a ++ dict_keys b.
Proof. unfold dict_keys. apply map_app. Qed.

Lemma dict_set_fresh {V} (d : dict V) k v :
  ~ In k (dict_keys d) -> dict_set d k v = d ++ [(k, v)].
Proof.
  induction d as [|[k' v'] tl IH]; intros Hk; [reflexivity|].
  cbn [dict_set]. cbn in Hk.
  destruct (Z.eqb_spec k' k); [tauto|].
  cbn. f_equal. apply IH. tauto.
Qed.

Lemma find_loop_flat_map self sqs : forall moves,
  board_shape self ->
  StronglySorted Z.lt (map Square.location sqs) ->
  (forall l, In l (map Square.location sqs) ->
     0 <= l < GameBoard.n self * GameBoard.n self) ->
  (forall k l, In k (dict_keys moves) -> In l (map Square.location sqs) -> k < l) ->
  GameBoard.find_loop self sqs moves
  = Ok (moves ++ flat_map (move_entry self) (map Square.location sqs)).
Proof.
  induction sqs as [|sq rest IH]; intros moves Hs Hsorted Hvalid Hfresh.
  - cbn. now rewrite app_nil_r.
  - cbn [GameBoard.find_loop map flat_map].
    rewrite all_can_capture_captures by (assumption || (apply Hvalid; now left)).
    cbn [rbind]. cbn [map] in Hsorted. apply StronglySorted_inv in Hsorted.
    destruct Hsorted as [Hsorted Hhd]. rewrite Forall_forall in Hhd.
    rewrite IH; try assumption.
    + unfold move_entry at 2.
      destruct (captures self (Square.location sq)) as [|p ps] eqn:Ec.
      * reflexivity.
      * rewrite dict_set_fresh.
        -- now rewrite <- app_assoc.
        -- intros Hin. specialize (Hfresh _ (Square.location sq) Hin (or_introl eq_refl)). lia.
    + intros l Hl. apply Hvalid. now right.
    + intros k l Hk Hl.
      destruct (captures self (Square.location sq)) as [|p ps] eqn:Ec.
      * apply Hfresh; [exact Hk|now right].
      * rewrite dict_set_fresh in Hk.
        -- rewrite dict_keys_app in Hk. apply in_app_or in Hk.
           destruct Hk as [Hk|[<-|[]]].
           ++ apply Hfresh; [exact Hk|now right].
           ++ cbn. now apply Hhd.
        -- intros Hin. specialize (Hfresh _ (Square.location sq) Hin (or_introl eq_refl)). lia.
Qed.

Lemma seq_sorted len : forall a,
  StronglySorted Z.lt (map Z.of_nat (seq a len)).
Proof.
  induction len as [|len IH]; intros a; cbn; constructor.
  - apply IH.
  - apply Forall_forall. intros z Hz. apply in_map_iff in Hz.
    destruct Hz as (k & <- & Hk). apply in_seq in Hk. lia.
Qed.

Lemma find_valid_moves_legal self :
  board_shape self -> GameBoard.find_valid_moves self = Ok (legal_moves self).
Proof.
  intros Hs. unfold GameBoard.find_valid_moves.
  rewrite find_loop_flat_map; try assumption.
  - cbn [app]. unfold legal_moves. now rewrite (shape_squares _ Hs).
  - rewrite (shape_squares _ Hs). apply seq_sorted.
  - rewrite (shape_squares _ Hs). intros l. apply cell_indices_in.
  - intros k l [].
Qed.

Section SetNth.
Context {A : Type}.

Lemma set_nth_length (l : list A) : forall j a,
  List.length (set_nth l j a) = List.length l.
Proof.
  induction l as [|h tl IH]; intros [|j] a; cbn; auto.
Qed.

Lemma set_nth_same (l : list A) : forall j a,
  (j < List.length l)%nat -> nth_error (set_nth l j a) j = Some a.
Proof.
  induction l as [|h tl IH]; intros [|j] a H; cbn in *; try lia; auto.
  apply IH. lia.
Qed.

Lemma set_nth_other (l : list A) : forall j k a,
  j <> k -> nth_error (set_nth l j a) k = nth_error l k.
Proof.
  induction l as [|h tl IH]; intros [|j] [|k] a H; cbn; auto; try congruence.
Qed.

Lemma set_nth_twice (l : list A) : forall j a b,
  set_nth (set_nth l j a) j b = set_nth l j b.
Proof.
  induction l as [|h tl IH]; intros [|j] a b; cbn; auto. now rewrite IH.
Qed.

Lemma set_nth_id (l : list A) : forall j a,
  nth_error l j = Some a -> set_nth l j a = l.
Proof.
  induction l as [|h tl IH]; intros [|j] a H; cbn in *; try congruence.
  now rewrite IH.
Qed.

(** Replacing one element moves a filter count by the two elements. *)
Lemma filter_set_nth (f : A -> bool) (l : list A) : forall j old a,
  nth_error l j = Some old ->
  (List.length (filter f (set_nth l j a)) + (if f old then 1 else 0)
   = List.length (filter f l) + (if f a then 1 else 0))%nat.
Proof.
  induction l as [|h tl IH]; intros [|j] old a H; cbn in *; try discriminate.
  - injection H as ->. destruct (f old), (f a); cbn; lia.
  - specialize (IH j old a H). destruct (f h); cbn; lia.
Qed.

End SetNth.

Lemma tile_at_set_nth ps i o j :
  0 <= i < Z.of_nat (List.length ps) ->
  tile_at (set_nth ps (Z.to_nat i) o) j = if j =? i then o else tile_at ps j.
Proof.
  intros Hi. unfold tile_at.
  destruct (Z.eqb_spec j i) as [->|Hne].
  - destruct (Z.ltb_spec i 0); [lia|].
    rewrite set_nth_same by lia. now destruct o.
  - destruct (Z.ltb_spec j 0); [reflexivity|].
    rewrite set_nth_other by lia. reflexivity.
Qed.

Lemma tile_at_nth ps loc :
  0 <= loc < Z.of_nat (List.length ps) ->
  nth_error ps (Z.to_nat loc) = Some (tile_at ps loc).
Proof.
  intros H. unfold tile_at. destruct (Z.ltb_spec loc 0); [lia|].
  destruct (nth_error ps (Z.to_nat loc)) as [[p|]|] eqn:E; try reflexivity.
  apply nth_error_None in E. lia.
Qed.

Lemma tile_at_range ps loc p :
  tile_at ps loc = Some p -> 0 <= loc < Z.of_nat (List.length ps).
Proof.
  unfold tile_at. destruct (Z.ltb_spec loc 0); [discriminate|].
  destruct (nth_error ps (Z.to_nat loc)) as [o|] eqn:E; [|discriminate].
  intros _. assert (Z.to_nat loc < List.length ps)%nat by (apply nth_error_Some; congruence).
  lia.
Qed.

Lemma count_color_set ps loc o c :
  0 <= loc < Z.of_nat (List.length ps) ->
  count_color c (set_nth ps (Z.to_nat loc) o)
  = count_color c ps
    - (if is_color c (tile_at ps loc) then 1 else 0)
    + (if is_color c o then 1 else 0).
Proof.
  intros H. unfold count_color.
  pose proof (filter_set_nth (is_color c) ps (Z.to_nat loc) _ o (tile_at_nth ps loc H)) as E.
  destruct (is_color c (tile_at ps loc)), (is_color c o); lia.
Qed.

Lemma empties_set ps loc o :
  0 <= loc < Z.of_nat (List.length ps) ->
  (empties (set_nth ps (Z.to_nat loc) o) + (if is_hole (tile_at ps loc) then 1 else 0)
   = empties ps + (if is_hole o then 1 else 0))%nat.
Proof.
  intros H. unfold empties.
  exact (filter_set_nth is_hole ps (Z.to_nat loc) _ o (tile_at_nth ps loc H)).
Qed.

Lemma occupied_split ps :
  occupied ps = count_color Black ps + count_color White ps.
Proof.
  unfold occupied, count_color.
  induction ps as [|[p|] tl IH]; cbn [filter is_tile is_color];
    [reflexivity| |exact IH].
  destruct (GamePiece.color p); cbn [color_eqb List.length]; lia.
Qed.

Lemma count_color_nonneg c ps : 0 <= count_color c ps.
Proof. unfold count_color. lia. Qed.

Lemma is_full_empties self :
  GameBoard.is_full self = true <-> empties (GameBoard.pieces self) = O.
Proof.
  unfold GameBoard.is_full, empties.
  induction (GameBoard.pieces self) as [|[p|] tl IH]; cbn; try tauto.
  split; [discriminate|lia].
Qed.

Ltac run_st :=
  cbv [bind get_state assert ret raise modify read GameBoard.of_result].

Lemma setitem_in_range {A} (l : list A) i a :
  0 <= i < Z.of_nat (List.length l) ->
  setitem l i a = Ok (set_nth l (Z.to_nat i) a).
Proof.
  intros H. unfold setitem. now rewrite norm_index_in_range.
Qed.

Lemma place_result self loc :
  board_shape self -> 0 <= loc < GameBoard.n self * GameBoard.n self ->
  exists sq,
    getitem (GameBoard.squares self) loc = Ok sq /\
    GameBoard.place loc self
    = (Ok tt, add_count (GameBoard.turn self)
                (with_tile loc (new_piece self loc sq) self)).
Proof.
  intros Hs Hl. destruct (square_at self loc Hs Hl) as (sq & Esq & _).
  exists sq. split; [exact Esq|].
  unfold GameBoard.place, new_piece, with_tile. run_st.
  rewrite valid_index_true by assumption. rewrite Esq.
  destruct (Square.calc_center sq) as [cx cy]. cbn [fst snd].
  unfold GamePiece.init. destruct (Z.leb_spec 0 loc); [|lia].
  rewrite setitem_in_range by (rewrite (shape_pieces _ Hs); exact Hl).
  destruct (GameBoard.turn self) eqn:Et; reflexivity.
Qed.

Lemma flip_tile_result self loc p :
  board_shape self -> tile_at (GameBoard.pieces self) loc = Some p ->
  GameBoard.flip_tile loc self
  = (Ok tt, move_count (GamePiece.color (GamePiece.flip p))
              (with_tile loc (GamePiece.flip p) self)).
Proof.
  intros Hs Ht.
  pose proof (tile_at_range _ _ _ Ht) as Hr.
  assert (Hl : 0 <= loc < GameBoard.n self * GameBoard.n self)
    by (rewrite <- (shape_pieces _ Hs); exact Hr).
  destruct (square_at self loc Hs Hl) as (sq & Esq & Eloc).
  unfold GameBoard.flip_tile. run_st.
  rewrite valid_index_true by assumption.
  rewrite getitem_tile by assumption. rewrite Ht, Esq.
  unfold Square.is_empty. rewrite Eloc, getitem_tile by assumption.
  rewrite Ht. cbn [rbind negb].
  rewrite setitem_in_range by assumption.
  unfold with_tile.
  destruct (GamePiece.color (GamePiece.flip p)); reflexivity.
Qed.

(** On an empty cell [flip_tile] raises and leaves the board as it was. *)
Lemma flip_tile_empty self loc :
  board_shape self -> 0 <= loc < GameBoard.n self * GameBoard.n self ->
  tile_at (GameBoard.pieces self) loc = None ->
  GameBoard.flip_tile loc self = (Err AttributeError, self).
Proof.
  intros Hs Hl Ht.
  assert (Hr : 0 <= loc < Z.of_nat (List.length (GameBoard.pieces self)))
    by (rewrite (shape_pieces _ Hs); exact Hl).
  destruct (square_at self loc Hs Hl) as (sq & Esq & Eloc).
  unfold GameBoard.flip_tile. run_st.
  rewrite valid_index_true by assumption.
  rewrite getitem_tile by assumption. rewrite Ht, Esq.
  unfold Square.is_empty. rewrite Eloc, getitem_tile by assumption.
  rewrite Ht. reflexivity.
Qed.

Lemma flip_color p : GamePiece.color (GamePiece.flip p) = other (GamePiece.color p).
Proof. unfold GamePiece.flip, GamePiece.change_color. now destruct (GamePiece.color p). Qed.

Lemma flip_location p : GamePiece.location (GamePiece.flip p) = GamePiece.location p.
Proof. unfold GamePiece.flip, GamePiece.change_color. now destruct (GamePiece.color p). Qed.

Lemma flip_flip p : GamePiece.flip (GamePiece.flip p) = p.
Proof.
  destruct p as [l c x y]. unfold GamePiece.flip, GamePiece.change_color. now destruct c.
Qed.

(** Shape and counters after putting a tile on a cell. *)
Lemma with_tile_shape self loc p :
  board_shape self -> 0 <= loc < GameBoard.n self * GameBoard.n self ->
  GamePiece.location p = loc ->
  board_shape (with_tile loc p self).
Proof.
  intros Hs Hl Hp. destruct Hs as [H1 H2 H3 H4].
  constructor; cbn; try assumption.
  - now rewrite set_nth_length.
  - intros j q. rewrite tile_at_set_nth by lia.
    destruct (Z.eqb_spec j loc) as [->|].
    + intros [= <-]. exact Hp.
    + apply H4.
Qed.

Lemma add_count_shape c self : board_shape self -> board_shape (add_count c self).
Proof. intros [H1 H2 H3 H4]. destruct c; constructor; cbn; assumption. Qed.

Lemma move_count_shape c self : board_shape self -> board_shape (move_count c self).
Proof. intros [H1 H2 H3 H4]. destruct c; constructor; cbn; assumption. Qed.

Lemma place_counts self loc p :
  board_shape self -> counts_ok self ->
  0 <= loc < GameBoard.n self * GameBoard.n self ->
  tile_at (GameBoard.pieces self) loc = None ->
  GamePiece.color p = GameBoard.turn self ->
  counts_ok (add_count (GameBoard.turn self) (with_tile loc p self)).
Proof.
  intros Hs [Hb Hw] Hl Ht Hc.
  assert (Hr : 0 <= loc < Z.of_nat (List.length (GameBoard.pieces self)))
    by (rewrite (shape_pieces _ Hs); exact Hl).
  unfold counts_ok.
  destruct (GameBoard.turn self) eqn:Et; cbn;
    rewrite !count_color_set by assumption; rewrite Ht; cbn; rewrite Hc; cbn; lia.
Qed.

Lemma flip_counts self loc p :
  board_shape self -> counts_ok self ->
  tile_at (GameBoard.pieces self) loc = Some p ->
  counts_ok (move_count (GamePiece.color (GamePiece.flip p))
               (with_tile loc (GamePiece.flip p) self)).
Proof.
  intros Hs [Hb Hw] Ht.
  pose proof (tile_at_range _ _ _ Ht) as Hr.
  unfold counts_ok. rewrite flip_color.
  destruct (GamePiece.color p) eqn:Ec; cbn;
    rewrite !count_color_set by assumption; rewrite Ht; cbn;
    rewrite flip_color, Ec; cbn; lia.
Qed.

Lemma same_frame_refl a : same_frame a a.
Proof. constructor; reflexivity. Qed.

Lemma same_frame_trans a b c : same_frame a b -> same_frame b c -> same_frame a c.
Proof.
  intros [A1 A2 A3 A4 A5 A6 A7] [B1 B2 B3 B4 B5 B6 B7].
  constructor; try congruence.
  all: intros j; now rewrite B6.
Qed.

Lemma flip_frame self loc p :
  board_shape self -> tile_at (GameBoard.pieces self) loc = Some p ->
  same_frame self (move_count (GamePiece.color (GamePiece.flip p))
                     (with_tile loc (GamePiece.flip p) self)).
Proof.
  intros Hs Ht. pose proof (tile_at_range _ _ _ Ht) as Hr.
  assert (Hcells : forall j,
    is_tile (tile_at (set_nth (GameBoard.pieces self) (Z.to_nat loc)
                        (Some (GamePiece.flip p))) j)
    = is_tile (tile_at (GameBoard.pieces self) j)).
  { intros j. rewrite tile_at_set_nth by assumption.
    destruct (Z.eqb_spec j loc) as [->|]; [now rewrite Ht|reflexivity]. }
  assert (Hemp : empties (set_nth (GameBoard.pieces self) (Z.to_nat loc)
                            (Some (GamePiece.flip p)))
                 = empties (GameBoard.pieces self)).
  { pose proof (empties_set (GameBoard.pieces self) loc (Some (GamePiece.flip p)) Hr) as E.
    rewrite Ht in E. cbn in E. lia. }
  destruct (GamePiece.color (GamePiece.flip p)); constructor; cbn; auto.
Qed.

Lemma flip_tiles_ok tiles : forall self,
  board_shape self -> counts_ok self ->
  Forall (fun t => is_tile (tile_at (GameBoard.pieces self) (GamePiece.location t)) = true)
    tiles ->
  exists self',
    GameBoard.flip_tiles tiles self = (Ok tt, self') /\
    board_shape self' /\ counts_ok self' /\ same_frame self self'.
Proof.
  induction tiles as [|t rest IH]; intros self Hs Hc Hall.
  - exists self. split; [reflexivity|]. split; [assumption|].
    split; [assumption|apply same_frame_refl].
  - inversion Hall as [|? ? Ht Hrest]; subst.
    destruct (tile_at (GameBoard.pieces self) (GamePiece.location t)) as [p|] eqn:Ep;
      [|discriminate].
    pose proof (tile_at_range _ _ _ Ep) as Hr.
    assert (Hl : 0 <= GamePiece.location t < GameBoard.n self * GameBoard.n self)
      by (rewrite <- (shape_pieces _ Hs); exact Hr).
    set (s1 := move_count (GamePiece.color (GamePiece.flip p))
                 (with_tile (GamePiece.location t) (GamePiece.flip p) self)).
    assert (Hs1 : board_shape s1).
    { apply move_count_shape, with_tile_shape; try assumption.
      rewrite flip_location. now apply (shape_located _ Hs). }
    assert (Hc1 : counts_ok s1) by now apply flip_counts.
    assert (Hf1 : same_frame self s1) by now apply flip_frame.
    destruct (IH s1 Hs1 Hc1) as (s2 & E2 & Hs2 & Hc2 & Hf2).
    { apply Forall_forall. intros u Hu. rewrite (frame_cells _ _ Hf1).
      rewrite Forall_forall in Hrest. now apply Hrest. }
    exists s2. split; [|split; [assumption|split; [assumption|]]].
    + cbn [GameBoard.flip_tiles]. unfold bind at 1.
      rewrite (flip_tile_result self _ p Hs Ep). exact E2.
    + eapply same_frame_trans; eassumption.
Qed.

(** *** What the legal-move table holds *)

Lemma opponent_run_tiles ps mover cells p :
  In p (fst (opponent_run ps mover cells)) ->
  exists q, In q cells /\ tile_at ps q = Some p.
Proof.
  induction cells as [|c rest IH]; cbn [opponent_run]; [intros []|].
  destruct (tile_at ps c) as [t|] eqn:Et; [|intros []].
  destruct (color_eqb (GamePiece.color t) mover); [intros []|].
  destruct (opponent_run ps mover rest) as [run after]. cbn [fst] in *.
  intros [<-|Hin].
  - exists c. split; [now left|exact Et].
  - destruct (IH Hin) as (q & Hq & Eq). exists q. split; [now right|exact Eq].
Qed.

Lemma scan_result_tiles ps mover cells p :
  In p (scan_result ps mover cells) ->
  (exists q, In q cells /\ tile_at ps q = Some p) /\ GamePiece.color p = other mover.
Proof.
  unfold scan_result. destruct (terminated ps mover cells); [|intros []].
  intros Hin. split; [now apply (opponent_run_tiles ps mover cells)|].
  pose proof (opponent_run_colors ps mover cells) as H.
  rewrite Forall_forall in H. now apply H.
Qed.

Lemma captures_tiles self loc p :
  In p (captures self loc) ->
  tile_at (GameBoard.pieces self) loc = None /\
  (exists q, tile_at (GameBoard.pieces self) q = Some p) /\
  GamePiece.color p = other (GameBoard.turn self).
Proof.
  unfold captures.
  destruct (tile_at (GameBoard.pieces self) loc); [intros []|].
  intros Hin. apply in_flat_map in Hin. destruct Hin as (d & _ & Hin).
  apply scan_result_tiles in Hin. destruct Hin as [(q & _ & Hq) Hc].
  split; [reflexivity|]. split; [now exists q|exact Hc].
Qed.

Lemma legal_moves_entry self k v :
  In (k, v) (legal_moves self) ->
  0 <= k < GameBoard.n self * GameBoard.n self /\ v = captures self k /\ v <> [].
Proof.
  unfold legal_moves. intros Hin. apply in_flat_map in Hin.
  destruct Hin as (loc & Hloc & Hin). apply cell_indices_in in Hloc.
  unfold move_entry in Hin.
  destruct (captures self loc) as [|p ps] eqn:Ec; [destruct Hin|].
  destruct Hin as [[= <- <-]|[]]. rewrite Ec. repeat split; try lia. discriminate.
Qed.

Lemma dict_get_key {V} (d : dict V) k :
  In k (dict_keys d) -> exists v, In (k, v) d /\ dict_get d k = Ok v.
Proof.
  induction d as [|[k' v'] tl IH]; cbn; [intros []|].
  destruct (Z.eqb_spec k' k) as [->|Hne].
  - intros _. exists v'. split; [now left|reflexivity].
  - intros [H|H]; [contradiction|].
    destruct (IH H) as (v & Hin & E). exists v. split; [now right|exact E].
Qed.

Lemma dict_get_missing {V} (d : dict V) k :
  ~ In k (dict_keys d) -> dict_get d k = Err KeyError.
Proof.
  induction d as [|[k' v'] tl IH]; cbn; [reflexivity|].
  intros H. destruct (Z.eqb_spec k' k); [tauto|]. apply IH. tauto.
Qed.

Lemma dict_mem_keys {V} (d : dict V) k :
  dict_mem d k = true <-> In k (dict_keys d).
Proof.
  unfold dict_mem, dict_keys. rewrite existsb_exists, in_map_iff. split.
  - intros (kv & Hin & E). apply Z.eqb_eq in E. now exists kv.
  - intros (kv & E & Hin). exists kv. split; [exact Hin|now apply Z.eqb_eq].
Qed.

Lemma legal_key self k :
  In k (dict_keys (legal_moves self)) ->
  0 <= k < GameBoard.n self * GameBoard.n self /\
  tile_at (GameBoard.pieces self) k = None /\
  captures self k <> [] /\
  dict_get (legal_moves self) k = Ok (captures self k).
Proof.
  intros Hk. destruct (dict_get_key _ _ Hk) as (v & Hin & E).
  apply legal_moves_entry in Hin. destruct Hin as (Hr & -> & Hne).
  repeat split; try lia; try assumption.
  destruct (captures self k) as [|p ps] eqn:Ec; [congruence|].
  assert (Hp : In p (captures self k)) by (rewrite Ec; now left).
  now apply captures_tiles in Hp.
Qed.

Lemma switch_turns_result self :
  GameBoard.switch_turns self = (Ok tt, switched self).
Proof.
  unfold GameBoard.switch_turns, modify, switched.
  now destruct (GameBoard.turn self).
Qed.

Lemma switched_shape self : board_shape self -> board_shape (switched self).
Proof. intros [H1 H2 H3 H4]. constructor; cbn; assumption. Qed.

Lemma refresh_result self :
  board_shape self ->
  GameBoard.refresh_valid_moves self
  = (Ok tt, GameBoard.set_valid_moves (legal_moves self) self).
Proof.
  intros Hs. unfold GameBoard.refresh_valid_moves. run_st.
  now rewrite find_valid_moves_legal.
Qed.

Lemma pass_result self :
  board_shape self ->
  (GameBoard.switch_turns ;;; GameBoard.refresh_valid_moves) self
  = (Ok tt, passed self).
Proof.
  intros Hs. unfold bind. rewrite switch_turns_result.
  now rewrite refresh_result by now apply switched_shape.
Qed.

Lemma passed_wf self : board_shape self -> counts_ok self -> wf (passed self).
Proof.
  intros [H1 H2 H3 H4] [Hb Hw]. constructor.
  - constructor; cbn; assumption.
  - split; cbn; assumption.
  - reflexivity.
Qed.

Lemma passed_pieces self : GameBoard.pieces (passed self) = GameBoard.pieces self.
Proof. reflexivity. Qed.

Lemma passed_turn self : GameBoard.turn (passed self) = other (GameBoard.turn self).
Proof. reflexivity. Qed.

Lemma add_count_frame c self :
  GameBoard.pieces (add_count c self) = GameBoard.pieces self /\
  GameBoard.valid_moves (add_count c self) = GameBoard.valid_moves self /\
  GameBoard.n (add_count c self) = GameBoard.n self /\
  GameBoard.squares (add_count c self) = GameBoard.squares self /\
  GameBoard.turn (add_count c self) = GameBoard.turn self.
Proof. destruct c; repeat split. Qed.

Lemma make_move_ok self k :
  wf self -> In k (dict_keys (GameBoard.valid_moves self)) ->
  exists s2, moved self k s2 /\
             GameBoard.make_move k self = (Ok tt, passed s2).
Proof.
  intros [Hs Hc Hm] Hk. rewrite Hm in Hk.
  destruct (legal_key self k Hk) as (Hr & Hempty & Hne & Hget).
  destruct (place_result self k Hs Hr) as (sq & Esq & Eplace).
  set (s1 := add_count (GameBoard.turn self) (with_tile k (new_piece self k sq) self)) in *.
  assert (Hlen : 0 <= k < Z.of_nat (List.length (GameBoard.pieces self)))
    by (rewrite (shape_pieces _ Hs); exact Hr).
  assert (Hs1 : board_shape s1)
    by (apply add_count_shape, with_tile_shape; auto).
  assert (Hc1 : counts_ok s1) by (apply place_counts; auto).
  destruct (add_count_frame (GameBoard.turn self)
              (with_tile k (new_piece self k sq) self))
    as (Hp1 & Hv1 & Hn1 & Hq1 & Ht1).
  fold s1 in Hp1, Hv1, Hn1, Hq1, Ht1. cbn in Hp1, Hv1, Hn1, Hq1, Ht1.
  destruct (flip_tiles_ok (captures self k) s1 Hs1 Hc1) as (s2 & E2 & Hs2 & Hc2 & Hf2).
  { apply Forall_forall. intros p Hp. apply captures_tiles in Hp.
    destruct Hp as (_ & (q & Hq) & _).
    rewrite (shape_located _ Hs q p Hq). rewrite Hp1, tile_at_set_nth by assumption.
    destruct (q =? k); [reflexivity|now rewrite Hq]. }
  exists s2. split.
  - constructor; try assumption.
    + now rewrite (frame_n _ _ Hf2).
    + now rewrite (frame_squares _ _ Hf2).
    + now rewrite (frame_turn _ _ Hf2).
    + intros j. rewrite (frame_cells _ _ Hf2), Hp1, tile_at_set_nth by assumption.
      destruct (j =? k); reflexivity.
    + rewrite (frame_empties _ _ Hf2), Hp1.
      pose proof (empties_set (GameBoard.pieces self) k (Some (new_piece self k sq)) Hlen) as E.
      rewrite Hempty in E. cbn in E. lia.
  - unfold GameBoard.make_move.
    unfold bind at 1. unfold get_state.
    unfold bind at 1. rewrite valid_index_true by assumption. cbn [assert ret].
    unfold bind at 1. rewrite Eplace. fold s1.
    unfold bind at 1. unfold read. rewrite Hv1, Hm, Hget.
    unfold bind at 1. rewrite E2.
    now apply pass_result.
Qed.

(** An illegal index: the tile is placed and counted before the lookup of
    the captures fails. *)
Lemma make_move_illegal self k :
  wf self -> 0 <= k < GameBoard.n self * GameBoard.n self ->
  ~ In k (dict_keys (GameBoard.valid_moves self)) ->
  exists sq,
    GameBoard.make_move k self
    = (Err KeyError,
       add_count (GameBoard.turn self) (with_tile k (new_piece self k sq) self)).
Proof.
  intros [Hs Hc Hm] Hr Hk.
  destruct (place_result self k Hs Hr) as (sq & Esq & Eplace).
  exists sq. unfold GameBoard.make_move.
  unfold bind at 1. unfold get_state.
  unfold bind at 1. rewrite valid_index_true by assumption. cbn [assert ret].
  unfold bind at 1. rewrite Eplace.
  unfold bind at 1. unfold read.
  destruct (add_count_frame (GameBoard.turn self)
              (with_tile k (new_piece self k sq) self)) as (_ & Hv1 & _).
  rewrite Hv1. cbn [with_tile GameBoard.valid_moves GameBoard.set_pieces].
  now rewrite dict_get_missing.
Qed.

Lemma init_row_ok cols : forall lst index xc yc,
  0 <= index ->
  exists row,
    GameBoard.init_row cols lst index xc yc = Ok (lst ++ row, index + Z.of_nat cols) /\
    map Square.location row = map Z.of_nat (seq (Z.to_nat index) cols).
Proof.
  induction cols as [|cols IH]; intros lst index xc yc Hi.
  - exists []. cbn. rewrite app_nil_r, Z.add_0_r. now split.
  - cbn [GameBoard.init_row]. unfold Square.init.
    destruct (Z.leb_spec 0 index); [|lia]. cbn [rbind].
    destruct (IH (lst ++ [Square.mk index xc yc SQUARE]) (index + 1) (xc + SQUARE) yc
                ltac:(lia)) as (row & E & Hrow).
    exists (Square.mk index xc yc SQUARE :: row). split.
    + rewrite E. rewrite <- app_assoc. cbn [app]. do 2 f_equal. lia.
    + cbn [map seq Square.location]. f_equal; [lia|].
      rewrite Hrow. do 2 f_equal. lia.
Qed.

Lemma init_rows_ok rows cols : forall lst index corner yc,
  0 <= index ->
  exists all,
    GameBoard.init_rows rows cols lst index corner yc = Ok (lst ++ all) /\
    map Square.location all = map Z.of_nat (seq (Z.to_nat index) (rows * cols)).
Proof.
  induction rows as [|rows IH]; intros lst index corner yc Hi.
  - exists []. cbn. rewrite app_nil_r. now split.
  - cbn [GameBoard.init_rows].
    destruct (init_row_ok cols lst index corner yc Hi) as (row & E & Hrow).
    rewrite E. cbn [rbind fst snd].
    destruct (IH (lst ++ row) (index + Z.of_nat cols) corner (yc + SQUARE) ltac:(lia))
      as (rest & E2 & Hrest).
    exists (row ++ rest). split.
    + rewrite E2. now rewrite app_assoc.
    + rewrite map_app, Hrow, Hrest.
      cbn [Nat.mul]. rewrite seq_app, map_app. do 3 f_equal. lia.
Qed.

Lemma init_squares_ok self corner :
  0 <= GameBoard.n self ->
  exists sqs,
    GameBoard.init_squares self corner = Ok sqs /\
    map Square.location sqs = cell_indices (GameBoard.n self).
Proof.
  intros Hn. unfold GameBoard.init_squares.
  destruct (init_rows_ok (Z.to_nat (GameBoard.n self)) (Z.to_nat (GameBoard.n self))
              [] 0 corner corner ltac:(lia)) as (sqs & E & Hsq).
  exists sqs. split; [exact E|].
  rewrite Hsq. unfold cell_indices. do 2 f_equal. lia.
Qed.

Lemma tile_at_repeat_none k loc : tile_at (repeat None k) loc = None.
Proof.
  unfold tile_at. destruct (loc <? 0); [reflexivity|].
  destruct (nth_error (repeat None k) (Z.to_nat loc)) as [o|] eqn:E; [|reflexivity].
  apply nth_error_In, repeat_spec in E. now subst.
Qed.

Lemma count_color_repeat_none c k : count_color c (repeat None k) = 0.
Proof. unfold count_color. induction k; cbn; auto. Qed.

Lemma start_loop_ok locs : forall self,
  board_shape self -> counts_ok self -> NoDup locs ->
  (forall l, In l locs ->
     0 <= l < GameBoard.n self * GameBoard.n self /\
     tile_at (GameBoard.pieces self) l = None) ->
  exists self',
    GameBoard.start_loop locs self = (Ok tt, self') /\
    board_shape self' /\ counts_ok self' /\
    GameBoard.n self' = GameBoard.n self /\
    GameBoard.turn self' = alternate (List.length locs) (GameBoard.turn self).
Proof.
  induction locs as [|loc rest IH]; intros self Hs Hc Hnd Hall.
  - exists self. cbn. auto.
  - destruct (Hall loc (or_introl eq_refl)) as [Hr Hempty].
    destruct (place_result self loc Hs Hr) as (sq & Esq & Eplace).
    set (s1 := add_count (GameBoard.turn self) (with_tile loc (new_piece self loc sq) self)) in *.
    assert (Hlen : 0 <= loc < Z.of_nat (List.length (GameBoard.pieces self)))
      by (rewrite (shape_pieces _ Hs); exact Hr).
    assert (Hs1 : board_shape s1) by (apply add_count_shape, with_tile_shape; auto).
    assert (Hc1 : counts_ok s1) by (apply place_counts; auto).
    destruct (add_count_frame (GameBoard.turn self)
                (with_tile loc (new_piece self loc sq) self))
      as (Hp1 & Hv1 & Hn1 & Hq1 & Ht1).
    fold s1 in Hp1, Hv1, Hn1, Hq1, Ht1. cbn in Hp1, Hv1, Hn1, Hq1, Ht1.
    inversion Hnd as [|? ? Hnotin Hnd']; subst.
    destruct (IH (switched s1)) as (s2 & E2 & Hs2 & Hc2 & Hn2 & Ht2).
    + now apply switched_shape.
    + destruct Hc1. split; assumption.
    + exact Hnd'.
    + intros l Hl. destruct (Hall l (or_intror Hl)) as [Hlr Hle].
      split; [cbn; rewrite Hn1; exact Hlr|].
      cbn. rewrite Hp1, tile_at_set_nth by assumption.
      destruct (Z.eqb_spec l loc) as [->|]; [contradiction|exact Hle].
    + exists s2. split; [|split; [assumption|split; [assumption|split]]].
      * cbn [GameBoard.start_loop]. unfold bind at 1. rewrite Eplace. fold s1.
        unfold bind at 1. rewrite switch_turns_result. exact E2.
      * rewrite Hn2. cbn. exact Hn1.
      * rewrite Ht2. cbn. now rewrite Ht1.
Qed.

Lemma center_squares_ok self :
  4 <= GameBoard.n self -> GameBoard.n self mod 2 = 0 ->
  NoDup (GameBoard.find_center_squares self) /\
  forall l, In l (GameBoard.find_center_squares self) ->
    0 <= l < GameBoard.n self * GameBoard.n self.
Proof.
  intros Hn Heven. unfold GameBoard.find_center_squares.
  rewrite Z.pow_2_r. set (n := GameBoard.n self) in *.
  rewrite Z.quot_div_nonneg by nia.
  apply Z.mod_divide in Heven; [|lia]. destruct Heven as [m Hm].
  assert (E : (n * n + n) / 2 = 2 * m * m + m).
  { rewrite Hm. replace (m * 2 * (m * 2) + m * 2) with ((2 * m * m + m) * 2) by ring.
    apply Z.div_mul. lia. }
  rewrite E. split.
  - repeat (constructor; [cbn [In]; nia|]). constructor.
  - intros l H. cbn [In] in H. nia.
Qed.

(** The constructor succeeds on every even side from four up, and the board
    it builds is well formed with Black to move. *)
Lemma init_ok n0 :
  4 <= n0 -> n0 mod 2 = 0 ->
  exists self, GameBoard.init n0 = Ok self /\ wf self /\
               GameBoard.n self = n0 /\ GameBoard.turn self = Black.
Proof.
  intros Hn Heven. unfold GameBoard.init.
  destruct (Z.leb_spec 4 n0); [|lia]. cbn [negb].
  rewrite Heven. cbn [Z.eqb].
  set (self0 := GameBoard.mk n0 (SQUARE * n0) Black (repeat None (Z.to_nat (n0 * n0)))
                  0 0 [] []).
  destruct (init_squares_ok self0 (- n0 * SQUARE / 2)) as (sqs & Esq & Hsq);
    [cbn; lia|].
  rewrite Esq. cbn [rbind].
  set (self1 := GameBoard.set_squares sqs self0).
  assert (Hs1 : board_shape self1).
  { constructor; cbn.
    - lia.
    - rewrite repeat_length. nia.
    - exact Hsq.
    - intros loc p. now rewrite tile_at_repeat_none. }
  assert (Hc1 : counts_ok self1).
  { split; cbn; now rewrite count_color_repeat_none. }
  destruct (center_squares_ok self1 Hn Heven) as [Hnd Hval].
  destruct (start_loop_ok (GameBoard.find_center_squares self1) self1 Hs1 Hc1 Hnd)
    as (s2 & E2 & Hs2 & Hc2 & Hn2 & Ht2).
  { intros l Hl. split; [now apply Hval|]. cbn. apply tile_at_repeat_none. }
  unfold GameBoard.draw_start_tiles. unfold bind at 1. unfold get_state.
  rewrite E2. rewrite find_valid_moves_legal by assumption. cbn [rbind].
  eexists. split; [reflexivity|]. split; [|split].
  - constructor.
    + destruct Hs2 as [H1 H2 H3 H4]. constructor; cbn; assumption.
    + destruct Hc2. split; cbn; assumption.
    + reflexivity.
  - cbn. rewrite Hn2. reflexivity.
  - cbn. rewrite Ht2. reflexivity.
Qed.

Lemma init_inv n0 self :
  GameBoard.init n0 = Ok self ->
  4 <= n0 /\ n0 mod 2 = 0.
Proof.
  unfold GameBoard.init.
  destruct (Z.leb_spec 4 n0); cbn [negb]; [|discriminate].
  destruct (Z.eqb_spec (n0 mod 2) 1); [discriminate|].
  intros _. split; [assumption|].
  pose proof (Z.mod_pos_bound n0 2 ltac:(lia)). lia.
Qed.

Lemma dict_get_in {V} (d : dict V) k v :
  NoDup (dict_keys d) -> In (k, v) d -> dict_get d k = Ok v.
Proof.
  induction d as [|[k' v'] tl IH]; cbn; [intros _ []|].
  intros Hnd Hin. inversion Hnd as [|? ? Hnotin Hnd']; subst.
  destruct Hin as [[= -> ->]|Hin].
  - now rewrite Z.eqb_refl.
  - destruct (Z.eqb_spec k' k) as [->|]; [|now apply IH].
    exfalso. apply Hnotin. unfold dict_keys. apply in_map_iff. now exists (k, v).
Qed.

Lemma choose_loop_best (moves : dict (list GamePiece.t)) suf : forall seen key length,
  moves = seen ++ suf ->
  NoDup (dict_keys moves) ->
  (forall k v, In (k, v) moves -> v <> []) ->
  best_so_far seen key length ->
  exists key' length',
    GameBoard.choose_loop moves (dict_keys suf) key length = Ok key' /\
    best_so_far moves key' length'.
Proof.
  induction suf as [|[k v] suf IH]; intros seen key length Hm Hnd Hne Hbest.
  - rewrite app_nil_r in Hm. subst seen. now exists key, length.
  - cbn [dict_keys map fst GameBoard.choose_loop].
    rewrite (dict_get_in moves k v Hnd) by (rewrite Hm; apply in_elt).
    cbn [rbind].
    assert (Hpos : (0 < List.length v)%nat).
    { specialize (Hne k v). destruct v; [exfalso; apply Hne; [rewrite Hm; apply in_elt|reflexivity]|cbn; lia]. }
    assert (Hm' : moves = (seen ++ [(k, v)]) ++ suf) by (rewrite <- app_assoc; exact Hm).
    destruct (Z.gtb_spec (Z.of_nat (List.length v)) length) as [Hgt|Hle].
    + apply (IH (seen ++ [(k, v)]) k (Z.of_nat (List.length v)) Hm' Hnd Hne).
      right. exists seen, v, []. split; [reflexivity|]. split; [reflexivity|].
      split; [|intros ? ? []].
      intros k' v' Hin. destruct Hbest as [(-> & _ & _)|(pre & v0 & post & -> & -> & Hpre & Hpost)];
        [destruct Hin|].
      apply in_app_or in Hin. destruct Hin as [Hin|[[= <- <-]|Hin]].
      * specialize (Hpre _ _ Hin). lia.
      * lia.
      * specialize (Hpost _ _ Hin). lia.
    + apply (IH (seen ++ [(k, v)]) key length Hm' Hnd Hne).
      destruct Hbest as [(-> & _ & ->)|(pre & v0 & post & -> & -> & Hpre & Hpost)];
        [lia|].
      right. exists pre, v0, (post ++ [(k, v)]).
      split; [now rewrite <- app_assoc|]. split; [reflexivity|].
      split; [exact Hpre|].
      intros k' v' Hin. apply in_app_or in Hin.
      destruct Hin as [Hin|[[= <- <-]|[]]]; [now apply (Hpost k')|lia].
Qed.

Lemma choose_move_best self :
  NoDup (dict_keys (GameBoard.valid_moves self)) ->
  (forall k v, In (k, v) (GameBoard.valid_moves self) -> v <> []) ->
  (GameBoard.valid_moves self = [] /\ GameBoard.choose_move self = Ok (-1)) \/
  (exists k, GameBoard.choose_move self = Ok k /\
             first_longest (GameBoard.valid_moves self) k).
Proof.
  intros Hnd Hne. unfold GameBoard.choose_move.
  destruct (choose_loop_best (GameBoard.valid_moves self) (GameBoard.valid_moves self)
              [] (-1) 0 eq_refl Hnd Hne) as (k & len & E & Hbest).
  { left. auto. }
  destruct Hbest as [(Hnil & -> & _)|(pre & v & post & Hm & _ & Hpre & Hpost)].
  - left. split; [exact Hnil|exact E].
  - right. exists k. split; [exact E|]. now exists pre, v, post.
Qed.

(** The keys of the table of a position ascend. *)
Lemma flat_map_keys_sorted self locs :
  StronglySorted Z.lt locs ->
  StronglySorted Z.lt (dict_keys (flat_map (move_entry self) locs)).
Proof.
  induction locs as [|loc rest IH]; intros Hs; [constructor|].
  apply StronglySorted_inv in Hs. destruct Hs as [Hs Hhd].
  cbn [flat_map]. rewrite dict_keys_app.
  unfold move_entry at 1. destruct (captures self loc); [now apply IH|].
  cbn. constructor; [now apply IH|].
  apply Forall_forall. intros k Hk. unfold dict_keys in Hk.
  apply in_map_iff in Hk. destruct Hk as ((k' & v) & <- & Hin).
  apply in_flat_map in Hin. destruct Hin as (loc' & Hl & Hin).
  assert (k' = loc').
  { apply (move_entry_keys self loc'). unfold dict_keys. apply in_map_iff. now exists (k', v). }
  subst. rewrite Forall_forall in Hhd. now apply Hhd.
Qed.

Lemma legal_moves_sorted self : StronglySorted Z.lt (dict_keys (legal_moves self)).
Proof. apply flat_map_keys_sorted. apply seq_sorted. Qed.

Lemma sorted_nodup (l : list Z) : StronglySorted Z.lt l -> NoDup l.
Proof.
  induction 1 as [|a tl Hs IH Hhd]; constructor; [|exact IH].
  intros Hin. rewrite Forall_forall in Hhd. specialize (Hhd a Hin). lia.
Qed.

Lemma legal_moves_nodup self : NoDup (dict_keys (legal_moves self)).
Proof. apply sorted_nodup, legal_moves_sorted. Qed.

Lemma legal_moves_nonempty self k v : In (k, v) (legal_moves self) -> v <> [].
Proof. intros H. now apply legal_moves_entry in H. Qed.

Lemma on_board_run {A} (m : ST GameBoard.t A) w r b :
  m (Game.board w) = (r, b) -> Game.on_board m w = (r, Game.set_board b w).
Proof. intros E. unfold Game.on_board. now rewrite E. Qed.

Lemma set_board_same w : Game.set_board (Game.board w) w = w.
Proof. now destruct w. Qed.

Lemma set_board_twice a b w : Game.set_board a (Game.set_board b w) = Game.set_board a w.
Proof. reflexivity. Qed.

Lemma end_game_effect w :
  exists r f a,
    Game.end_game w
    = (r, Game.mk (Game.board w)
            (Game.stdout w ++ [fst (GameBoard.find_winner (Game.board w));
                               snd (GameBoard.find_winner (Game.board w))])
            f a).
Proof.
  unfold Game.end_game, Game.announce_winner, Game.print, Game.textinput.
  cbv [bind get_state modify ret].
  destruct (GameBoard.find_winner (Game.board w)) as [message score]. cbn [fst snd].
  cbn [Game.board Game.stdout Game.scores Game.answers].
  rewrite <- app_assoc. cbn [app].
  destruct (Game.answers w) as [|[nm|] rest]; cbn [Game.board Game.stdout Game.scores Game.answers].
  - eexists _, _, _; reflexivity.
  - destruct (negb (nm =? "")%string).
    + cbn [Game.board Game.stdout Game.scores Game.answers].
      destruct (Game.save_score (Game.board w) nm (Game.scores w)) as [r f].
      eexists _, _, _; reflexivity.
    + eexists _, _, _; reflexivity.
  - eexists _, _, _; reflexivity.
Qed.

Lemma legal_moves_ext a b :
  GameBoard.n a = GameBoard.n b -> GameBoard.pieces a = GameBoard.pieces b ->
  GameBoard.turn a = GameBoard.turn b -> legal_moves a = legal_moves b.
Proof.
  intros Hn Hp Ht. unfold legal_moves, move_entry, captures. now rewrite Hn, Hp, Ht.
Qed.

Lemma other_other c : other (other c) = c.
Proof. now destruct c. Qed.

Lemma switched_passed_moves b :
  legal_moves (switched (passed b)) = legal_moves b.
Proof. apply legal_moves_ext; cbn; auto. apply other_other. Qed.

Lemma wf_choose b :
  wf b ->
  (GameBoard.valid_moves b = [] /\ GameBoard.choose_move b = Ok (-1)) \/
  (exists k, GameBoard.choose_move b = Ok k /\ k <> -1 /\
             In k (dict_keys (GameBoard.valid_moves b))).
Proof.
  intros Hwf. pose proof (wf_moves _ Hwf) as Hm.
  destruct (choose_move_best b) as [H|(k & E & pre & v & post & Htab & _)].
  - rewrite Hm. apply legal_moves_nodup.
  - rewrite Hm. apply legal_moves_nonempty.
  - now left.
  - right. exists k. split; [exact E|].
    assert (Hk : In k (dict_keys (GameBoard.valid_moves b))).
    { rewrite Htab, dict_keys_app. apply in_or_app. right. now left. }
    split; [|exact Hk]. rewrite Hm in Hk. apply legal_key in Hk. lia.
Qed.

(** With fuel for every empty cell, [computer_move] carries out the policy. *)
Lemma computer_move_turns fuel : forall w,
  wf (Game.board w) ->
  (empties (GameBoard.pieces (Game.board w)) < fuel)%nat ->
  exists b' v,
    turns (Game.board w) b' v /\
    Game.computer_move fuel w = finish v (Game.set_board b' w) /\
    wf b' /\
    match v with
    | Yield => GameBoard.is_full b' = false /\ GameBoard.valid_moves b' <> []
    | NoMove => legal_moves (switched b') = []
    | Over => GameBoard.is_full b' = true
    end.
Proof.
  induction fuel as [|fuel IH]; intros w Hwf Hfuel; [lia|].
  cbn [Game.computer_move].
  destruct (wf_choose _ Hwf) as [[Hnil Hc]|(k & Hc & Hk & Hin)].
  - exists (passed (Game.board w)), NoMove.
    split; [now constructor|]. split; [|split].
    + unfold bind at 1.
      rewrite (on_board_run (read GameBoard.choose_move) w (Ok (-1)) (Game.board w))
        by (unfold read; now rewrite Hc).
      rewrite set_board_same. rewrite Z.eqb_refl. cbn [negb].
      unfold bind at 1.
      rewrite (on_board_run _ w _ _ (switch_turns_result (Game.board w))).
      unfold bind at 1.
      rewrite (on_board_run _ (Game.set_board (switched (Game.board w)) w) _ _
                 (refresh_result _ (switched_shape _ (wf_shape _ Hwf)))).
      reflexivity.
    + apply passed_wf; apply Hwf.
    + rewrite switched_passed_moves, <- (wf_moves _ Hwf). exact Hnil.
  - destruct (make_move_ok _ k Hwf Hin) as (s2 & Hmoved & Emove).
    set (b1 := passed s2) in *.
    assert (Hwf1 : wf b1) by (apply passed_wf; apply Hmoved).
    assert (Estart : forall (K : ST Game.World bool),
      (choice <- Game.on_board (read GameBoard.choose_move) ;;
       (if negb (choice =? -1)
        then Game.on_board (GameBoard.make_move choice) ;;; K
        else Game.on_board GameBoard.switch_turns ;;;
             Game.on_board GameBoard.refresh_valid_moves ;;; ret false)) w
      = K (Game.set_board b1 w)).
    { intros K. unfold bind at 1.
      rewrite (on_board_run (read GameBoard.choose_move) w (Ok k) (Game.board w))
        by (unfold read; now rewrite Hc).
      rewrite set_board_same.
      destruct (Z.eqb_spec k (-1)); [contradiction|]. cbn [negb].
      unfold bind at 1. now rewrite (on_board_run _ w _ _ Emove). }
    rewrite Estart. unfold bind at 1. unfold get_state.
    cbn [Game.board Game.set_board].
    destruct (GameBoard.is_full b1) eqn:Efull.
    + exists b1, Over. split; [now apply (turns_full _ k)|]. auto.
    + destruct (GameBoard.valid_moves b1) as [|m ms] eqn:Evm.
      * cbn [List.length Nat.eqb].
        destruct (IH (Game.set_board (passed b1) w)) as (b' & v & Hturns & Erun & Hwf' & Hend).
        -- cbn. apply passed_wf; apply Hwf1.
        -- cbn [Game.board Game.set_board]. rewrite passed_pieces.
           unfold b1. rewrite passed_pieces.
           pose proof (moved_empties _ _ _ Hmoved). lia.
        -- exists b', v. split; [now apply (turns_again _ k b1)|].
           split; [|split; assumption].
           unfold bind at 1.
           rewrite (on_board_run _ (Game.set_board b1 w) _ _ (switch_turns_result b1)).
           unfold bind at 1.
           rewrite (on_board_run _ (Game.set_board (switched b1) (Game.set_board b1 w)) _ _
                      (refresh_result _ (switched_shape _ (wf_shape _ Hwf1)))).
           exact Erun.
      * cbn [List.length Nat.eqb].
        exists b1, Yield. split; [apply (turns_yield _ k); auto; congruence|].
        split; [reflexivity|]. split; [assumption|]. split; [exact Efull|congruence].
Qed.

Lemma click_loop_cons sq rest cx cy w :
  Game.click_loop (sq :: rest) cx cy w
  = if selects w cx cy sq
    then Game.on_board (GameBoard.make_move (Square.location sq)) w
    else Game.click_loop rest cx cy w.
Proof.
  cbn [Game.click_loop]. unfold bind, get_state, selects.
  now destruct (_ && _).
Qed.

Lemma click_loop_result sqs cx cy w :
  wf (Game.board w) ->
  (Game.click_loop sqs cx cy w = (Ok tt, w) /\
   forall sq, In sq sqs -> selects w cx cy sq = false) \/
  (exists sq s2,
     In sq sqs /\ selects w cx cy sq = true /\
     moved (Game.board w) (Square.location sq) s2 /\
     Game.click_loop sqs cx cy w = (Ok tt, Game.set_board (passed s2) w)).
Proof.
  intros Hwf. induction sqs as [|sq rest IH].
  - left. split; [reflexivity|intros ? []].
  - rewrite click_loop_cons.
    destruct (selects w cx cy sq) eqn:Esel.
    + right. pose proof Esel as Esel'. unfold selects in Esel'.
      apply andb_prop in Esel'. destruct Esel' as [_ Hmem].
      apply dict_mem_keys in Hmem.
      destruct (make_move_ok _ _ Hwf Hmem) as (s2 & Hmoved & Emove).
      exists sq, s2. split; [now left|]. split; [exact Esel|]. split; [exact Hmoved|].
      now apply on_board_run.
    + destruct IH as [[E Hnone]|(sq' & s2 & Hin & Hsel & Hmoved & E)].
      * left. split; [exact E|]. intros sq' [<-|Hin]; [exact Esel|now apply Hnone].
      * right. exists sq', s2. split; [now right|]. auto.
Qed.

(** A click that selects no square leaves the world of a game in progress,
    with Black to move, as it is. *)
Lemma play_no_selection fuel cx cy w :
  wf (Game.board w) ->
  GameBoard.turn (Game.board w) = Black ->
  GameBoard.is_full (Game.board w) = false ->
  (forall sq, In sq (GameBoard.squares (Game.board w)) -> selects w cx cy sq = false) ->
  Game.play fuel cx cy w = (Ok tt, w).
Proof.
  intros Hwf Hturn Hfull Hnone. unfold Game.play.
  unfold bind at 1. unfold get_state.
  unfold bind at 1.
  destruct (click_loop_result (GameBoard.squares (Game.board w)) cx cy w Hwf)
    as [[E _]|(sq & s2 & Hin & Hsel & _)].
  2:{ rewrite Hnone in Hsel by assumption. discriminate. }
  rewrite E. unfold bind at 1. rewrite Hfull.
  unfold bind at 1. cbn [ret]. unfold bind at 1. now rewrite Hturn.
Qed.



Section TextFileFacts.
Import TextFile.







End TextFileFacts.



(** * The properties of the specification *)

Lemma board8_init : GameBoard.init 8 = Ok board8.
Proof. vm_compute. reflexivity. Qed.

Lemma board8_wf : wf board8.
Proof.
  destruct (init_ok 8 ltac:(lia) eq_refl) as (self & E & Hwf & _).
  rewrite board8_init in E. injection E as <-. exact Hwf.
Qed.

Lemma reachable_wf self : reachable self -> wf self.
Proof.
  induction 1 as [n0 self E|self k self' _ IH Hmem E|self self' _ IH E].
  - destruct (init_inv _ _ E) as [Hn Heven].
    destruct (init_ok n0 Hn Heven) as (self0 & E0 & Hwf & _).
    rewrite E in E0. injection E0 as <-. exact Hwf.
  - apply dict_mem_keys in Hmem.
    destruct (make_move_ok _ _ IH Hmem) as (s2 & Hmoved & E2).
    rewrite E in E2. injection E2 as ->. apply passed_wf; apply Hmoved.
  - rewrite (pass_result _ (wf_shape _ IH)) in E. injection E as <-.
    apply passed_wf; apply IH.
Qed.

(** C1. On every board of side [n >= 2] with [n * n] cells, for every
    in-range location and each of the eight directions,
    [can_capture_in_direction] returns: the run of consecutive opponent
    tiles that starts one step from the location, when that run is closed by
    a tile of the mover's color on a cell reachable in that direction, and the
    empty list otherwise.  So the result is non-empty exactly when the run is
    non-empty and closed; it is empty when the adjacent cell is off the
    board or empty; and it never holds a tile of the mover's color. *)
Theorem can_capture_in_direction_run (self : GameBoard.t) (loc : Z) (d : Direction) :
  2 <= GameBoard.n self ->
  Z.of_nat (List.length (GameBoard.pieces self)) = GameBoard.n self * GameBoard.n self ->
  0 <= loc < GameBoard.n self * GameBoard.n self ->
  let ps := GameBoard.pieces self in
  let mover := GameBoard.turn self in
  let cells := Grid.reachable (GameBoard.n self) loc d in
  let run := fst (opponent_run ps mover cells) in
  exists r,
    GameBoard.can_capture_in_direction self loc d = Ok r /\
    (terminated ps mover cells = true -> r = run) /\
    (terminated ps mover cells = false -> r = []) /\
    (r <> [] <-> run <> [] /\ terminated ps mover cells = true) /\
    (cells = [] -> r = []) /\
    (forall c, hd_error cells = Some c -> tile_at ps c = None -> r = []) /\
    Forall (fun p => GamePiece.color p = other mover) r.
Proof.
  intros Hn Hlen Hloc ps mover cells run.
  exists (scan_result ps mover cells).
  split; [now apply can_capture_in_direction_cells|].
  unfold scan_result. fold run.
  split; [now intros ->|]. split; [now intros ->|].
  split; [|split; [|split]].
  - destruct (terminated ps mover cells); split.
    + now intros H.
    + now intros [H _].
    + now intros H.
    + intros [_ H]. discriminate.
  - intros E. subst run. rewrite E. cbn. now destruct (terminated ps mover []).
  - intros c Hc Ht. destruct cells as [|c' rest]; [discriminate|].
    injection Hc as ->. subst run. cbn [opponent_run]. rewrite Ht. cbn.
    now destruct (terminated ps mover (c :: rest)).
  - destruct (terminated ps mover cells); [|constructor].
    apply opponent_run_colors.
Qed.

Lemma can_capture_in_direction_run_witness :
  exists r,
    GameBoard.can_capture_in_direction board8 19 Dn = Ok r /\
    map GamePiece.location r = [27] /\
    Forall (fun p => GamePiece.color p = White) r.
Proof.
  destruct (can_capture_in_direction_run board8 19 Dn) as (r & E & Hrun & _ & _ & _ & _ & Hcol).
  - vm_compute. discriminate.
  - reflexivity.
  - vm_compute. split; [discriminate|reflexivity].
  - exists r. split; [exact E|]. split; [|exact Hcol].
    rewrite Hrun; reflexivity.
Defined.




(** C8 (as the code has it).  The hit test of a square with origin
    [(sx, sy)] and side [s] is true exactly for [sx < x < sx + s] and
    [sy < y < sy + s]: the box is open on every side, so a click on any of
    the four boundary lines of a square is not inside it. *)
Theorem was_clicked_open_box (sq : Square.t) (cx cy : Z) :
  (Square.was_clicked sq cx cy = true <->
   Square.x sq < cx < Square.x sq + Square.size sq /\
   Square.y sq < cy < Square.y sq + Square.size sq) /\
  Square.was_clicked sq (Square.x sq) cy = false /\
  Square.was_clicked sq (Square.x sq + Square.size sq) cy = false /\
  Square.was_clicked sq cx (Square.y sq) = false /\
  Square.was_clicked sq cx (Square.y sq + Square.size sq) = false.
Proof.
  unfold Square.was_clicked.
  repeat match goal with
  | |- context [?a <? ?b] => destruct (Z.ltb_spec a b)
  end; cbn [andb]; repeat split; intros; try lia; try reflexivity; try discriminate.
Qed.

(** C8, as stated, fails: a click on the left edge of a square, at mid
    height, satisfies the closed-open test but is not a hit. *)
Lemma was_clicked_left_edge :
  ~ (forall (sq : Square.t) (cx cy : Z),
       Square.was_clicked sq cx cy = true <->
       Square.x sq <= cx < Square.x sq + Square.size sq /\
       Square.y sq <= cy < Square.y sq + Square.size sq).
Proof.
  intros H. specialize (H (Square.mk 0 0 0 SQUARE) 0 25).
  assert (E : Square.was_clicked (Square.mk 0 0 0 SQUARE) 0 25 = false) by reflexivity.
  rewrite E in H. destruct H as [_ H].
  assert (Hbad : false = true) by (apply H; vm_compute; repeat split; discriminate).
  discriminate Hbad.
Qed.

(** C10. On an in-range cell that holds a tile, one call of [flip_tile]
    toggles the color of that tile and moves one unit of count from its
    former color to its new one, leaving the sum of the counts unchanged; a
    second call on the same cell gives back the board the first call
    started from. *)
Theorem flip_tile_involution (self : GameBoard.t) (loc : Z) (p : GamePiece.t) :
  board_shape self ->
  tile_at (GameBoard.pieces self) loc = Some p ->
  exists s1,
    GameBoard.flip_tile loc self = (Ok tt, s1) /\
    tile_at (GameBoard.pieces s1) loc = Some (GamePiece.flip p) /\
    GamePiece.color (GamePiece.flip p) = other (GamePiece.color p) /\
    (forall j, j <> loc ->
       tile_at (GameBoard.pieces s1) j = tile_at (GameBoard.pieces self) j) /\
    (GamePiece.color p = Black ->
       GameBoard.black s1 = GameBoard.black self - 1 /\
       GameBoard.white s1 = GameBoard.white self + 1) /\
    (GamePiece.color p = White ->
       GameBoard.white s1 = GameBoard.white self - 1 /\
       GameBoard.black s1 = GameBoard.black self + 1) /\
    GameBoard.black s1 + GameBoard.white s1
      = GameBoard.black self + GameBoard.white self /\
    GameBoard.flip_tile loc s1 = (Ok tt, self).
Proof.
  intros Hs Ht. pose proof (tile_at_range _ _ _ Ht) as Hr.
  assert (Hl : 0 <= loc < GameBoard.n self * GameBoard.n self)
    by (rewrite <- (shape_pieces _ Hs); exact Hr).
  set (s1 := move_count (GamePiece.color (GamePiece.flip p))
               (with_tile loc (GamePiece.flip p) self)).
  assert (Hp1 : GameBoard.pieces s1
                = set_nth (GameBoard.pieces self) (Z.to_nat loc) (Some (GamePiece.flip p)))
    by (unfold s1; now destruct (GamePiece.color (GamePiece.flip p))).
  assert (Ht1 : tile_at (GameBoard.pieces s1) loc = Some (GamePiece.flip p)).
  { rewrite Hp1, tile_at_set_nth by assumption. now rewrite Z.eqb_refl. }
  assert (Hs1 : board_shape s1).
  { apply move_count_shape, with_tile_shape; try assumption.
    rewrite flip_location. now apply (shape_located _ Hs). }
  exists s1. split; [now apply flip_tile_result|]. split; [exact Ht1|].
  split; [apply flip_color|].
  split; [|split; [|split; [|split]]].
  - intros j Hj. rewrite Hp1, tile_at_set_nth by assumption.
    destruct (Z.eqb_spec j loc); [contradiction|reflexivity].
  - intros Hc. unfold s1. rewrite flip_color, Hc. cbn. lia.
  - intros Hc. unfold s1. rewrite flip_color, Hc. cbn. lia.
  - unfold s1. rewrite flip_color. destruct (GamePiece.color p); cbn; lia.
  - rewrite (flip_tile_result s1 loc _ Hs1 Ht1). f_equal.
    rewrite flip_flip. unfold with_tile. rewrite Hp1, set_nth_twice.
    rewrite set_nth_id by (rewrite tile_at_nth by assumption; now rewrite Ht).
    unfold s1. rewrite flip_color.
    destruct self as [n0 sz tn ps b w sqs vm].
    destruct (GamePiece.color p); cbn;
      unfold GameBoard.set_white, GameBoard.set_black, GameBoard.set_pieces; cbn;
      f_equal; lia.
Qed.

Lemma flip_tile_involution_witness :
  exists s1,
    GameBoard.flip_tile 27 board8 = (Ok tt, s1) /\
    GameBoard.black s1 = 3 /\ GameBoard.white s1 = 1 /\
    GameBoard.flip_tile 27 s1 = (Ok tt, board8).
Proof.
  destruct (flip_tile_involution board8 27
              (GamePiece.mk 27 White (-25) (-25)) (wf_shape _ board8_wf) eq_refl)
    as (s1 & E & _ & _ & _ & _ & Hw & _ & Eback).
  exists s1. split; [exact E|].
  destruct (Hw eq_refl) as [Hwhite Hblack].
  split; [exact Hblack|]. split; [exact Hwhite|exact Eback].
Defined.

(** C6. On a legal-move table (distinct keys, no empty capture list),
    [choose_move] returns a key whose capture list is longest, and among
    those the first in the iteration order of the table: every entry before
    it is strictly shorter, every entry after it at most as long.  On the
    empty table it returns [-1].  The table of a position is built in
    ascending index order, so the order is by square index.  On
    [{1:[a], 2:[a,b], 3:[a,b,c], 4:[a,b,c,d], 5:[a]}] the result is [4]. *)
Theorem choose_move_first_longest (self : GameBoard.t) :
  NoDup (dict_keys (GameBoard.valid_moves self)) ->
  (forall k v, In (k, v) (GameBoard.valid_moves self) -> v <> []) ->
  (GameBoard.valid_moves self = [] -> GameBoard.choose_move self = Ok (-1)) /\
  (GameBoard.valid_moves self <> [] ->
   exists k, GameBoard.choose_move self = Ok k /\
             first_longest (GameBoard.valid_moves self) k) /\
  (forall vm, GameBoard.find_valid_moves self = Ok vm -> board_shape self ->
              StronglySorted Z.lt (dict_keys vm)) /\
  (forall a b c d : GamePiece.t,
     GameBoard.choose_move
       (GameBoard.set_valid_moves
          [(1, [a]); (2, [a; b]); (3, [a; b; c]); (4, [a; b; c; d]); (5, [a])] self)
     = Ok 4).
Proof.
  intros Hnd Hne. split; [|split; [|split]].
  - intros E. unfold GameBoard.choose_move. now rewrite E.
  - intros Hnil. destruct (choose_move_best self Hnd Hne) as [[E _]|H];
      [contradiction|exact H].
  - intros vm E Hs. rewrite find_valid_moves_legal in E by assumption.
    injection E as <-. apply legal_moves_sorted.
  - intros a b c d. reflexivity.
Qed.

Lemma choose_move_first_longest_witness :
  exists k, GameBoard.choose_move board8 = Ok k /\
            first_longest (GameBoard.valid_moves board8) k.
Proof.
  apply (choose_move_first_longest board8).
  - unfold dict_keys. cbn [board8 GameBoard.valid_moves map fst].
    repeat (constructor; [cbn [In]; lia|]). constructor.
  - intros k v Hin. cbn [board8 GameBoard.valid_moves In] in Hin.
    repeat (destruct Hin as [Hin|Hin]; [injection Hin as <- <-; discriminate|]).
    destruct Hin.
  - discriminate.
Defined.

(** C7. On the initial 8 x 8 board the center squares are 35, 36, 28 and 27
    (upper right [36 = (64 + 8) / 2], then its offsets [-1], [-8], [-9]);
    they are the only occupied squares, Black on 35 and 28, White on 36 and
    27, so equal colors sit diagonally opposite; Black is to move; and the
    legal-move table has exactly four entries, each capturing one tile. *)
Theorem initial_board8 :
  GameBoard.init 8 = Ok board8 /\
  GameBoard.find_center_squares board8 = [36 - 1; 36; 36 - 8; 36 - 8 - 1] /\
  2 * 36 = 8 * 8 + 8 /\
  tiles_on board8 = [(27, White); (28, Black); (35, Black); (36, White)] /\
  GameBoard.black board8 = 2 /\ GameBoard.white board8 = 2 /\
  GameBoard.turn board8 = Black /\
  GameBoard.find_valid_moves board8 = Ok (GameBoard.valid_moves board8) /\
  dict_keys (GameBoard.valid_moves board8) = [19; 26; 37; 44] /\
  map (fun kv => List.length (snd kv)) (GameBoard.valid_moves board8) = [1; 1; 1; 1]%nat.
Proof.
  split; [exact board8_init|]. vm_compute. repeat split.
Qed.

(** C2. In every reachable state of a game (the initial setup followed by
    any sequence of legal moves and passes) the black count plus the white
    count is the number of occupied cells, and neither count is negative.
    The invariant behind it, that each count is the number of tiles of its
    color on a board of the right shape, is kept by [place] on an empty
    in-range cell, which occupies one more cell and adds one to the mover's
    count, and by [flip_tile] on an occupied cell, which moves one unit of
    count from the former color of the tile to its new color. *)
Theorem counts_invariant (self : GameBoard.t) :
  (reachable self -> board_shape self /\ counts_ok self) /\
  (board_shape self /\ counts_ok self ->
   GameBoard.black self + GameBoard.white self = occupied (GameBoard.pieces self) /\
   0 <= GameBoard.black self /\ 0 <= GameBoard.white self /\
   (forall loc,
      0 <= loc < GameBoard.n self * GameBoard.n self ->
      tile_at (GameBoard.pieces self) loc = None ->
      exists s1,
        GameBoard.place loc self = (Ok tt, s1) /\
        board_shape s1 /\ counts_ok s1 /\
        occupied (GameBoard.pieces s1) = occupied (GameBoard.pieces self) + 1 /\
        match GameBoard.turn self with
        | Black => GameBoard.black s1 = GameBoard.black self + 1 /\
                   GameBoard.white s1 = GameBoard.white self
        | White => GameBoard.white s1 = GameBoard.white self + 1 /\
                   GameBoard.black s1 = GameBoard.black self
        end) /\
   (forall loc p,
      tile_at (GameBoard.pieces self) loc = Some p ->
      exists s1,
        GameBoard.flip_tile loc self = (Ok tt, s1) /\
        board_shape s1 /\ counts_ok s1 /\
        occupied (GameBoard.pieces s1) = occupied (GameBoard.pieces self) /\
        match GamePiece.color p with
        | Black => GameBoard.black s1 = GameBoard.black self - 1 /\
                   GameBoard.white s1 = GameBoard.white self + 1
        | White => GameBoard.white s1 = GameBoard.white self - 1 /\
                   GameBoard.black s1 = GameBoard.black self + 1
        end)).
Proof.
  split.
  - intros Hr. apply reachable_wf in Hr. split; apply Hr.
  - intros [Hs Hc]. pose proof Hc as [Hb Hw].
    split; [rewrite occupied_split; lia|].
    split; [rewrite Hb; apply count_color_nonneg|].
    split; [rewrite Hw; apply count_color_nonneg|].
    split.
    + intros loc Hl Ht.
      destruct (place_result self loc Hs Hl) as (sq & _ & E).
      eexists. split; [exact E|].
      assert (Hs1 : board_shape (add_count (GameBoard.turn self)
                                   (with_tile loc (new_piece self loc sq) self)))
        by (apply add_count_shape, with_tile_shape; auto).
      assert (Hc1 : counts_ok (add_count (GameBoard.turn self)
                                 (with_tile loc (new_piece self loc sq) self)))
        by (apply place_counts; auto).
      split; [exact Hs1|]. split; [exact Hc1|].
      destruct Hc1 as [Hb1 Hw1]. rewrite !occupied_split.
      rewrite <- Hb1, <- Hw1, <- Hb, <- Hw.
      destruct (GameBoard.turn self); cbn; lia.
    + intros loc p Ht.
      eexists. split; [exact (flip_tile_result self loc p Hs Ht)|].
      pose proof (tile_at_range _ _ _ Ht) as Hr.
      assert (Hl : 0 <= loc < GameBoard.n self * GameBoard.n self)
        by (rewrite <- (shape_pieces _ Hs); exact Hr).
      assert (Hs1 : board_shape (move_count (GamePiece.color (GamePiece.flip p))
                                   (with_tile loc (GamePiece.flip p) self))).
      { apply move_count_shape, with_tile_shape; try assumption.
        rewrite flip_location. now apply (shape_located _ Hs). }
      assert (Hc1 : counts_ok (move_count (GamePiece.color (GamePiece.flip p))
                                 (with_tile loc (GamePiece.flip p) self)))
        by now apply flip_counts.
      split; [exact Hs1|]. split; [exact Hc1|].
      destruct Hc1 as [Hb1 Hw1]. rewrite !occupied_split.
      rewrite <- Hb1, <- Hw1, <- Hb, <- Hw. rewrite flip_color.
      destruct (GamePiece.color p); cbn; lia.
Qed.

Lemma counts_invariant_witness :
  GameBoard.black board8 + GameBoard.white board8 = occupied (GameBoard.pieces board8) /\
  0 <= GameBoard.black board8 /\ 0 <= GameBoard.white board8.
Proof.
  destruct (counts_invariant board8) as [Hreach Hinv].
  destruct (Hinv (Hreach (reach_init 8 board8 board8_init))) as (Hsum & Hb & Hw & _).
  exact (conj Hsum (conj Hb Hw)).
Defined.

(** C3 (as the code has it).  The guard against an illegal move is in
    [play]: with Black to move on a board that is not full, a click that
    selects no square (no square is both hit and a key of the legal-move
    table) returns normally and leaves the whole world, board contents,
    counts, turn and table included, as it was.  [make_move] itself has no
    such guard: called on an in-range location that is not a key, it raises
    KeyError once the tile has been placed and counted. *)
Theorem illegal_click_is_noop (fuel : nat) (cx cy : Z) (w : Game.World) :
  wf (Game.board w) ->
  (GameBoard.turn (Game.board w) = Black ->
   GameBoard.is_full (Game.board w) = false ->
   (forall sq, In sq (GameBoard.squares (Game.board w)) ->
      Square.was_clicked sq cx cy = true ->
      dict_mem (GameBoard.valid_moves (Game.board w)) (Square.location sq) = false) ->
   Game.play fuel cx cy w = (Ok tt, w)) /\
  (forall loc,
     0 <= loc < GameBoard.n (Game.board w) * GameBoard.n (Game.board w) ->
     dict_mem (GameBoard.valid_moves (Game.board w)) loc = false ->
     exists s1,
       GameBoard.make_move loc (Game.board w) = (Err KeyError, s1) /\
       is_tile (tile_at (GameBoard.pieces s1) loc) = true /\
       GameBoard.black s1 + GameBoard.white s1
       = GameBoard.black (Game.board w) + GameBoard.white (Game.board w) + 1).
Proof.
  intros Hwf. split.
  - intros Hturn Hfull Hnone. apply play_no_selection; try assumption.
    intros sq Hin. unfold selects.
    destruct (Square.was_clicked sq cx cy) eqn:Ec; [|reflexivity].
    cbn [andb]. now apply Hnone.
  - intros loc Hl Hmem.
    assert (Hk : ~ In loc (dict_keys (GameBoard.valid_moves (Game.board w)))).
    { intros Hin. apply dict_mem_keys in Hin. congruence. }
    destruct (make_move_illegal _ loc Hwf Hl Hk) as (sq & E).
    eexists. split; [exact E|].
    destruct (add_count_frame (GameBoard.turn (Game.board w))
                (with_tile loc (new_piece (Game.board w) loc sq) (Game.board w)))
      as (Hp & _).
    rewrite Hp. cbn [with_tile GameBoard.pieces GameBoard.set_pieces].
    rewrite tile_at_set_nth
      by (rewrite (shape_pieces _ (wf_shape _ Hwf)); exact Hl).
    rewrite Z.eqb_refl. split; [reflexivity|].
    destruct (GameBoard.turn (Game.board w)); cbn; lia.
Qed.

Lemma illegal_click_is_noop_witness :
  Game.play 64 (-175) (-175) (Game.mk board8 [] None [])
  = (Ok tt, Game.mk board8 [] None []).
Proof.
  destruct (illegal_click_is_noop 64 (-175) (-175) (Game.mk board8 [] None []) board8_wf)
    as [Hplay _].
  apply Hplay.
  - reflexivity.
  - reflexivity.
  - intros sq Hin Hc. cbn [Game.board].
    cbn [Game.board board8 GameBoard.squares In] in Hin.
    repeat (destruct Hin as [<-|Hin]; [first [discriminate Hc|reflexivity]|]).
    destruct Hin.
Defined.

(** C3, as stated, fails: on the initial 8 x 8 board cell 0 is not a legal
    move, and [make_move 0] leaves a board with a tile on cell 0. *)
Lemma make_move_illegal_changes_board :
  ~ (forall (self : GameBoard.t) (loc : Z),
       wf self -> GameBoard.is_full self = false ->
       0 <= loc < GameBoard.n self * GameBoard.n self ->
       dict_mem (GameBoard.valid_moves self) loc = false ->
       snd (GameBoard.make_move loc self) = self).
Proof.
  intros H. specialize (H board8 0 board8_wf eq_refl).
  assert (E : tile_at (GameBoard.pieces (snd (GameBoard.make_move 0 board8))) 0
              = Some (GamePiece.mk 0 Black (-175) (-175))) by reflexivity.
  rewrite H in E.
  - discriminate E.
  - vm_compute. split; [discriminate|reflexivity].
  - reflexivity.
Qed.





(** A name with a blank in it: once ["Ann Lee"] has been saved to an absent
    file, the next call reads ["Lee"] as the high score and raises
    ValueError, leaving the file as the first call wrote it. *)
Example save_score_name_with_blank :
  forall f1,
    Game.save_score board8 "Ann Lee" None = (Ok tt, f1) ->
    Game.save_score board8 "Eve" f1 = (Err ValueError, f1).
Proof. intros f1 E. vm_compute in E. injection E as <-. reflexivity. Qed.


(** * Further properties of the code *)

Lemma rc_unique n a b a' b' :
  0 < n -> 0 <= b < n -> 0 <= b' < n -> a * n + b = a' * n + b' -> a = a' /\ b = b'.
Proof.
  intros Hn Hb Hb' E.
  assert (a = a').
  { rewrite <- (div_rc n a b Hn Hb), <- (div_rc n a' b' Hn Hb'). now rewrite E. }
  subst. lia.
Qed.

(** A cell of a walk is a whole number of steps away, on the grid. *)
Lemma walk_coords fuel : forall n r c d cell,
  In cell (Grid.walk fuel n r c d) ->
  exists k, 1 <= k /\
    cell = (r + k * Grid.row_step d) * n + (c + k * Grid.col_step d) /\
    0 <= r + k * Grid.row_step d < n /\ 0 <= c + k * Grid.col_step d < n.
Proof.
  induction fuel as [|fuel IH]; intros n r c d cell Hin; [destruct Hin|].
  cbn [Grid.walk] in Hin.
  destruct (Grid.on_grid n (r + Grid.row_step d) (c + Grid.col_step d)) eqn:E;
    [|destruct Hin].
  apply on_grid_true in E. destruct Hin as [<-|Hin].
  - exists 1. rewrite !Z.mul_1_l. repeat split; lia.
  - destruct (IH _ _ _ _ _ Hin) as (k & Hk & -> & Hr & Hc).
    exists (k + 1). split; [lia|].
    replace (r + (k + 1) * Grid.row_step d) with (r + Grid.row_step d + k * Grid.row_step d) by ring.
    replace (c + (k + 1) * Grid.col_step d) with (c + Grid.col_step d + k * Grid.col_step d) by ring.
    auto.
Qed.

Lemma step_nonzero d : Grid.row_step d <> 0 \/ Grid.col_step d <> 0.
Proof. destruct d; cbn; lia. Qed.

Lemma walk_nodup fuel : forall n r c d,
  0 < n -> 0 <= c < n -> NoDup (Grid.walk fuel n r c d).
Proof.
  induction fuel as [|fuel IH]; intros n r c d Hn Hc; [constructor|].
  cbn [Grid.walk].
  destruct (Grid.on_grid n (r + Grid.row_step d) (c + Grid.col_step d)) eqn:E;
    [|constructor].
  apply on_grid_true in E. constructor; [|apply IH; lia].
  intros Hin. apply walk_coords in Hin.
  destruct Hin as (k & Hk & Heq & Hr' & Hc').
  apply rc_unique in Heq; try lia.
  destruct (step_nonzero d); nia.
Qed.

Lemma reachable_nodup n loc d : 0 < n -> NoDup (Grid.reachable n loc d).
Proof.
  intros Hn. apply walk_nodup; [exact Hn|]. now apply Z.mod_pos_bound.
Qed.

(** Walks from one cell in two directions share no cell. *)
Lemma rays_disjoint n loc d d' cell :
  0 < n -> d <> d' ->
  In cell (Grid.reachable n loc d) -> In cell (Grid.reachable n loc d') -> False.
Proof.
  intros Hn Hd H1 H2. unfold Grid.reachable in *.
  apply walk_coords in H1. apply walk_coords in H2.
  destruct H1 as (k & Hk & -> & Hr & Hc).
  destruct H2 as (k' & Hk' & Heq & Hr' & Hc').
  apply rc_unique in Heq; try lia. destruct Heq as [E1 E2].
  destruct d, d'; try congruence; cbn [Grid.row_step Grid.col_step] in *; lia.
Qed.

(** The tiles of a run sit on the first cells, in order. *)
Lemma opponent_run_locations ps mover cells :
  (forall loc p, tile_at ps loc = Some p -> GamePiece.location p = loc) ->
  exists rest,
    cells = map GamePiece.location (fst (opponent_run ps mover cells)) ++ rest.
Proof.
  intros Hloc. induction cells as [|c tl IH]; cbn [opponent_run].
  - now exists [].
  - destruct (tile_at ps c) as [p|] eqn:Et; [|now exists (c :: tl)].
    destruct (color_eqb (GamePiece.color p) mover); [now exists (c :: tl)|].
    destruct (opponent_run ps mover tl) as [run after]. cbn [fst map] in *.
    destruct IH as (rest & E). exists rest.
    rewrite (Hloc _ _ Et). cbn [app]. now f_equal.
Qed.

Lemma scan_result_locations ps mover cells :
  (forall loc p, tile_at ps loc = Some p -> GamePiece.location p = loc) ->
  NoDup cells ->
  NoDup (map GamePiece.location (scan_result ps mover cells)) /\
  forall q, In q (map GamePiece.location (scan_result ps mover cells)) -> In q cells.
Proof.
  intros Hloc Hnd. unfold scan_result.
  destruct (terminated ps mover cells); [|split; [constructor|intros ? []]].
  destruct (opponent_run_locations ps mover cells Hloc) as (rest & E).
  split.
  - rewrite E in Hnd. now apply NoDup_app_remove_r in Hnd.
  - intros q Hq. rewrite E. apply in_or_app. now left.
Qed.

Lemma nodup_flat_map {A B} (f : A -> list B) (l : list A) :
  NoDup l ->
  (forall a, In a l -> NoDup (f a)) ->
  (forall a a' b, In a l -> In a' l -> a <> a' -> In b (f a) -> In b (f a') -> False) ->
  NoDup (flat_map f l).
Proof.
  induction l as [|a tl IH]; intros Hnd Hf Hdis; [constructor|].
  inversion Hnd as [|? ? Hnotin Hnd']; subst. cbn [flat_map].
  apply NoDup_app.
  - apply Hf. now left.
  - apply IH; [exact Hnd'| |].
    + intros a' Ha'. apply Hf. now right.
    + intros a1 a2 b H1 H2. apply Hdis; now right.
  - intros b Hb Hb'. apply in_flat_map in Hb'. destruct Hb' as (a' & Ha' & Hb').
    apply (Hdis a a' b); auto; [now left|now right|].
    intros ->. contradiction.
Qed.

Lemma map_flat_map {A B C} (g : B -> C) (f : A -> list B) (l : list A) :
  map g (flat_map f l) = flat_map (fun a => map g (f a)) l.
Proof.
  induction l as [|a tl IH]; cbn; [reflexivity|]. now rewrite map_app, IH.
Qed.

Lemma directions_nodup : NoDup GameBoard.directions.
Proof.
  unfold GameBoard.directions.
  repeat (constructor; [cbn [In]; intros H; repeat (destruct H as [H|H]; try discriminate H); exact H|]).
  constructor.
Qed.

(** The captures of a move sit on distinct cells. *)
Lemma captures_nodup self loc :
  board_shape self ->
  NoDup (map GamePiece.location (captures self loc)).
Proof.
  intros Hs. unfold captures.
  destruct (tile_at (GameBoard.pieces self) loc); [constructor|].
  rewrite map_flat_map.
  assert (Hn : 0 < GameBoard.n self) by (pose proof (shape_n _ Hs); lia).
  apply nodup_flat_map.
  - apply directions_nodup.
  - intros d _. apply scan_result_locations; [apply Hs|now apply reachable_nodup].
  - intros d d' q _ _ Hd H1 H2.
    apply scan_result_locations in H1; [|apply Hs|now apply reachable_nodup].
    apply scan_result_locations in H2; [|apply Hs|now apply reachable_nodup].
    exact (rays_disjoint _ _ _ _ _ Hn Hd H1 H2).
Qed.

Lemma move_count_counts c self :
  count_of c (move_count c self) = count_of c self + 1 /\
  count_of (other c) (move_count c self) = count_of (other c) self - 1.
Proof. destruct c; cbn; split; reflexivity. Qed.

Lemma add_count_counts c self :
  count_of c (add_count c self) = count_of c self + 1 /\
  count_of (other c) (add_count c self) = count_of (other c) self.
Proof. destruct c; cbn; split; reflexivity. Qed.

Lemma move_count_frame c self :
  GameBoard.pieces (move_count c self) = GameBoard.pieces self /\
  GameBoard.valid_moves (move_count c self) = GameBoard.valid_moves self /\
  GameBoard.n (move_count c self) = GameBoard.n self /\
  GameBoard.squares (move_count c self) = GameBoard.squares self /\
  GameBoard.turn (move_count c self) = GameBoard.turn self.
Proof. destruct c; repeat split. Qed.

Lemma with_tile_counts c loc p self : count_of c (with_tile loc p self) = count_of c self.
Proof. now destruct c. Qed.

(** Flipping a list of tiles that sit on distinct cells and all have the
    color opposite to [c]. *)
Lemma flip_tiles_effect tiles : forall self c,
  board_shape self ->
  NoDup (map GamePiece.location tiles) ->
  (forall t, In t tiles ->
     tile_at (GameBoard.pieces self) (GamePiece.location t) = Some t /\
     GamePiece.color t = other c) ->
  exists s',
    GameBoard.flip_tiles tiles self = (Ok tt, s') /\
    board_shape s' /\
    GameBoard.turn s' = GameBoard.turn self /\
    (forall t, In t tiles ->
       tile_at (GameBoard.pieces s') (GamePiece.location t) = Some (GamePiece.flip t)) /\
    (forall j, ~ In j (map GamePiece.location tiles) ->
       tile_at (GameBoard.pieces s') j = tile_at (GameBoard.pieces self) j) /\
    count_of c s' = count_of c self + Z.of_nat (List.length tiles) /\
    count_of (other c) s' = count_of (other c) self - Z.of_nat (List.length tiles).
Proof.
  induction tiles as [|t rest IH]; intros self c Hs Hnd Hall.
  - exists self. cbn [GameBoard.flip_tiles ret List.length map In Z.of_nat].
    split; [reflexivity|]. split; [exact Hs|].
    repeat split; auto; try lia; try (now intros t []).
  - cbn [map] in Hnd. inversion Hnd as [|? ? Hnotin Hnd']; subst.
    destruct (Hall t (or_introl eq_refl)) as [Ht Hc].
    pose proof (tile_at_range _ _ _ Ht) as Hr.
    assert (Hl : 0 <= GamePiece.location t < GameBoard.n self * GameBoard.n self)
      by (rewrite <- (shape_pieces _ Hs); exact Hr).
    assert (Hfc : GamePiece.color (GamePiece.flip t) = c)
      by (rewrite flip_color, Hc; apply other_other).
    set (s1 := move_count (GamePiece.color (GamePiece.flip t))
                 (with_tile (GamePiece.location t) (GamePiece.flip t) self)).
    assert (Hs1 : board_shape s1).
    { apply move_count_shape, with_tile_shape; try assumption. apply flip_location. }
    destruct (move_count_frame (GamePiece.color (GamePiece.flip t))
                (with_tile (GamePiece.location t) (GamePiece.flip t) self))
      as (Hp1 & _ & _ & _ & Ht1).
    fold s1 in Hp1, Ht1. cbn [with_tile GameBoard.pieces GameBoard.set_pieces GameBoard.turn] in Hp1, Ht1.
    assert (Htile1 : forall j,
      tile_at (GameBoard.pieces s1) j
      = if j =? GamePiece.location t then Some (GamePiece.flip t)
        else tile_at (GameBoard.pieces self) j).
    { intros j. rewrite Hp1. now apply tile_at_set_nth. }
    destruct (IH s1 c Hs1 Hnd') as (s2 & E2 & Hs2 & Hturn2 & Hflipped & Hkept & Hc2 & Ho2).
    { intros u Hu. destruct (Hall u (or_intror Hu)) as [Hu1 Hu2].
      split; [|exact Hu2]. rewrite Htile1.
      destruct (Z.eqb_spec (GamePiece.location u) (GamePiece.location t)) as [E|]; [|exact Hu1].
      exfalso. apply Hnotin. rewrite <- E. now apply in_map. }
    exists s2. split; [|split; [exact Hs2|split; [congruence|split; [|split; [|split]]]]].
    + cbn [GameBoard.flip_tiles]. unfold bind at 1.
      rewrite (flip_tile_result self _ t Hs Ht). exact E2.
    + intros u [<-|Hu]; [|now apply Hflipped].
      rewrite Hkept by exact Hnotin. rewrite Htile1. now rewrite Z.eqb_refl.
    + intros j Hj. cbn [map In] in Hj.
      rewrite Hkept by tauto. rewrite Htile1.
      destruct (Z.eqb_spec j (GamePiece.location t)); [subst; tauto|reflexivity].
    + rewrite Hc2. unfold s1. rewrite Hfc.
      destruct (move_count_counts c (with_tile (GamePiece.location t) (GamePiece.flip t) self)) as [E _].
      rewrite E, with_tile_counts. cbn [List.length]. lia.
    + rewrite Ho2. unfold s1. rewrite Hfc.
      destruct (move_count_counts c (with_tile (GamePiece.location t) (GamePiece.flip t) self)) as [_ E].
      rewrite E, with_tile_counts. cbn [List.length]. lia.
Qed.

Lemma captures_on_board self loc t :
  board_shape self -> In t (captures self loc) ->
  tile_at (GameBoard.pieces self) (GamePiece.location t) = Some t /\
  GamePiece.color t = other (GameBoard.turn self) /\
  GamePiece.location t <> loc.
Proof.
  intros Hs Hin. apply captures_tiles in Hin. destruct Hin as (Hempty & (q & Hq) & Hc).
  rewrite (shape_located _ Hs q t Hq). split; [exact Hq|]. split; [exact Hc|].
  intros ->. congruence.
Qed.

Lemma dict_get_ok_in {V} (d : dict V) k v : dict_get d k = Ok v -> In (k, v) d.
Proof.
  induction d as [|[k' v'] tl IH]; cbn; [discriminate|].
  destruct (Z.eqb_spec k' k) as [->|].
  - intros [= ->]. now left.
  - intros H. right. now apply IH.
Qed.

Lemma in_dict_keys {V} (d : dict V) k v : In (k, v) d -> In k (dict_keys d).
Proof. intros H. unfold dict_keys. apply in_map_iff. now exists (k, v). Qed.

(** X1. A legal move: the tile is placed, exactly the tiles of the capture
    list change color, the counters follow, the turn passes and the table is
    recomputed. *)
Theorem make_move_effect (self : GameBoard.t) (k : Z) (to_flip : list GamePiece.t) :
  wf self ->
  dict_get (GameBoard.valid_moves self) k = Ok to_flip ->
  let mover := GameBoard.turn self in
  exists s',
    GameBoard.make_move k self = (Ok tt, s') /\
    (exists p, tile_at (GameBoard.pieces s') k = Some p /\
               GamePiece.color p = mover /\ GamePiece.location p = k) /\
    (forall t, In t to_flip ->
       tile_at (GameBoard.pieces self) (GamePiece.location t) = Some t /\
       GamePiece.color t = other mover /\
       tile_at (GameBoard.pieces s') (GamePiece.location t) = Some (GamePiece.flip t)) /\
    (forall j, j <> k -> ~ In j (map GamePiece.location to_flip) ->
       tile_at (GameBoard.pieces s') j = tile_at (GameBoard.pieces self) j) /\
    GameBoard.turn s' = other mover /\
    to_flip <> [] /\
    count_of mover s' = count_of mover self + 1 + Z.of_nat (List.length to_flip) /\
    count_of (other mover) s'
      = count_of (other mover) self - Z.of_nat (List.length to_flip) /\
    GameBoard.find_valid_moves s' = Ok (GameBoard.valid_moves s') /\
    S (empties (GameBoard.pieces s')) = empties (GameBoard.pieces self).
Proof.
  intros Hwf Hget mover. pose proof Hwf as [Hs Hc Hm].
  apply dict_get_ok_in in Hget. pose proof (in_dict_keys _ _ _ Hget) as Hkey.
  rewrite Hm in Hget. apply legal_moves_entry in Hget.
  destruct Hget as (Hr & -> & Hne).
  destruct (make_move_ok self k Hwf Hkey) as (s2' & Hmoved & Emove').
  rewrite Hm in Hkey. destruct (legal_key self k Hkey) as (_ & Hempty & _ & Hget).
  destruct (place_result self k Hs Hr) as (sq & Esq & Eplace).
  set (s1 := add_count mover (with_tile k (new_piece self k sq) self)) in *.
  assert (Hlen : 0 <= k < Z.of_nat (List.length (GameBoard.pieces self)))
    by (rewrite (shape_pieces _ Hs); exact Hr).
  assert (Hs1 : board_shape s1) by (apply add_count_shape, with_tile_shape; auto).
  destruct (add_count_frame mover (with_tile k (new_piece self k sq) self))
    as (Hp1 & Hv1 & _ & _ & Ht1).
  fold s1 in Hp1, Hv1, Ht1.
  cbn [with_tile GameBoard.pieces GameBoard.set_pieces GameBoard.valid_moves
       GameBoard.turn] in Hp1, Hv1, Ht1.
  assert (Htile1 : forall j,
    tile_at (GameBoard.pieces s1) j
    = if j =? k then Some (new_piece self k sq) else tile_at (GameBoard.pieces self) j).
  { intros j. rewrite Hp1. now apply tile_at_set_nth. }
  destruct (flip_tiles_effect (captures self k) s1 mover Hs1 (captures_nodup self k Hs))
    as (s2 & E2 & Hs2 & Hturn2 & Hflipped & Hkept & Hc2 & Ho2).
  { intros t Hin. destruct (captures_on_board self k t Hs Hin) as (Ht & Hcol & Hneq).
    split; [|exact Hcol]. rewrite Htile1.
    destruct (Z.eqb_spec (GamePiece.location t) k); [contradiction|exact Ht]. }
  assert (Emove : GameBoard.make_move k self = (Ok tt, passed s2)).
  { unfold GameBoard.make_move.
    unfold bind at 1. unfold get_state.
    unfold bind at 1. rewrite valid_index_true by assumption. cbn [assert ret].
    unfold bind at 1. rewrite Eplace. fold mover. fold s1.
    unfold bind at 1. unfold read. rewrite Hv1, Hm, Hget.
    unfold bind at 1. rewrite E2.
    now apply pass_result. }
  assert (Esame : passed s2 = passed s2') by congruence.
  exists (passed s2). split; [exact Emove|].
  rewrite passed_pieces, passed_turn.
  split; [|split; [|split; [|split; [|split; [|split; [|split; [|split]]]]]]].
  - exists (new_piece self k sq). split; [|split; reflexivity].
    rewrite Hkept, Htile1; [now rewrite Z.eqb_refl|].
    intros Hin. apply in_map_iff in Hin. destruct Hin as (t & Et & Hin).
    now destruct (captures_on_board self k t Hs Hin) as (_ & _ & Hneq).
  - intros t Hin. destruct (captures_on_board self k t Hs Hin) as (Ht & Hcol & _).
    split; [exact Ht|]. split; [exact Hcol|]. now apply Hflipped.
  - intros j Hj Hnot. rewrite Hkept by exact Hnot. rewrite Htile1.
    destruct (Z.eqb_spec j k); [contradiction|reflexivity].
  - now rewrite Hturn2, Ht1.
  - exact Hne.
  - change (count_of mover (passed s2)) with (count_of mover s2). rewrite Hc2.
    unfold s1.
    destruct (add_count_counts mover (with_tile k (new_piece self k sq) self)) as [E _].
    rewrite E, with_tile_counts. lia.
  - change (count_of (other mover) (passed s2)) with (count_of (other mover) s2).
    rewrite Ho2. unfold s1.
    destruct (add_count_counts mover (with_tile k (new_piece self k sq) self)) as [_ E].
    now rewrite E, with_tile_counts.
  - pose proof (passed_wf s2' (moved_shape _ _ _ Hmoved) (moved_counts _ _ _ Hmoved)) as Hwf'.
    rewrite <- Esame in Hwf'.
    rewrite find_valid_moves_legal by apply Hwf'. now rewrite (wf_moves _ Hwf').
  - pose proof (moved_empties _ _ _ Hmoved) as He.
    assert (Ep : GameBoard.pieces s2 = GameBoard.pieces s2').
    { rewrite <- (passed_pieces s2), <- (passed_pieces s2'). now rewrite Esame. }
    now rewrite Ep.
Qed.

Lemma make_move_effect_witness :
  exists s',
    GameBoard.make_move 19 board8 = (Ok tt, s') /\
    GameBoard.turn s' = White /\
    count_of Black s' = 4 /\ count_of White s' = 1.
Proof.
  destruct (make_move_effect board8 19 [GamePiece.mk 27 White (-25) (-25)]
              board8_wf eq_refl)
    as (s' & E & _ & _ & _ & Hturn & _ & Hb & Hw & _).
  exists s'. split; [exact E|]. split; [exact Hturn|]. split; [exact Hb|exact Hw].
Defined.

(** X2. The table [find_valid_moves] builds on a board of the constructor's
    shape: keys ascend; its entries are exactly the in-range cells with a
    non-empty [all_can_capture], paired with that list; every key is an
    empty cell and every listed tile is an opponent tile on the board. *)
Theorem find_valid_moves_table (self : GameBoard.t) :
  board_shape self ->
  exists vm,
    GameBoard.find_valid_moves self = Ok vm /\
    StronglySorted Z.lt (dict_keys vm) /\
    (forall k v,
       In (k, v) vm <->
       0 <= k < GameBoard.n self * GameBoard.n self /\ v <> [] /\
       GameBoard.all_can_capture self k = Ok v) /\
    (forall k v, In (k, v) vm ->
       tile_at (GameBoard.pieces self) k = None /\
       Forall (fun t =>
                 tile_at (GameBoard.pieces self) (GamePiece.location t) = Some t /\
                 GamePiece.color t = other (GameBoard.turn self)) v).
Proof.
  intros Hs. exists (legal_moves self).
  split; [now apply find_valid_moves_legal|].
  split; [apply legal_moves_sorted|]. split.
  - intros k v. split.
    + intros Hin. apply legal_moves_entry in Hin. destruct Hin as (Hr & -> & Hne).
      split; [exact Hr|]. split; [exact Hne|]. now apply all_can_capture_captures.
    + intros (Hr & Hne & E). rewrite all_can_capture_captures in E by assumption.
      injection E as <-. unfold legal_moves. apply in_flat_map.
      exists k. split; [now apply cell_indices_in|].
      unfold move_entry. destruct (captures self k); [congruence|now left].
  - intros k v Hin. pose proof (in_dict_keys _ _ _ Hin) as Hkey.
    apply legal_moves_entry in Hin. destruct Hin as (Hr & -> & Hne).
    destruct (legal_key self k Hkey) as (_ & Hempty & _).
    split; [exact Hempty|]. apply Forall_forall. intros t Ht.
    destruct (captures_on_board self k t Hs Ht) as (H1 & H2 & _). now split.
Qed.

Lemma find_valid_moves_table_witness :
  exists vm,
    GameBoard.find_valid_moves board8 = Ok vm /\
    StronglySorted Z.lt (dict_keys vm).
Proof.
  destruct (find_valid_moves_table board8 (wf_shape _ board8_wf)) as (vm & E & Hsort & _).
  exists vm. split; [exact E|exact Hsort].
Defined.

(** X3. [all_can_capture]: nothing from an occupied cell; from an empty cell
    the results of [can_capture_in_direction] for n, ne, e, se, s, sw, w, nw
    joined in that order, all on distinct cells. *)
Theorem all_can_capture_directions (self : GameBoard.t) (loc : Z) :
  board_shape self ->
  0 <= loc < GameBoard.n self * GameBoard.n self ->
  exists r,
    GameBoard.all_can_capture self loc = Ok r /\
    (tile_at (GameBoard.pieces self) loc <> None -> r = []) /\
    (tile_at (GameBoard.pieces self) loc = None ->
     exists rs,
       Forall2 (fun d rd => GameBoard.can_capture_in_direction self loc d = Ok rd)
         [Dn; Dne; De; Dse; Ds; Dsw; Dw; Dnw] rs /\
       r = List.concat rs) /\
    NoDup (map GamePiece.location r).
Proof.
  intros Hs Hl. exists (captures self loc).
  split; [now apply all_can_capture_captures|].
  split; [|split; [|now apply captures_nodup]].
  - unfold captures. destruct (tile_at (GameBoard.pieces self) loc); [reflexivity|congruence].
  - intros Hempty. unfold captures. rewrite Hempty.
    exists (map (fun d => scan_result (GameBoard.pieces self) (GameBoard.turn self)
                            (Grid.reachable (GameBoard.n self) loc d))
              GameBoard.directions).
    split; [|apply flat_map_concat_map].
    unfold GameBoard.directions. cbn [map].
    repeat (constructor;
            [apply can_capture_in_direction_cells; [apply Hs|apply Hs|exact Hl]|]).
    constructor.
Qed.

Lemma all_can_capture_directions_witness :
  exists r,
    GameBoard.all_can_capture board8 19 = Ok r /\
    NoDup (map GamePiece.location r).
Proof.
  destruct (all_can_capture_directions board8 19 (wf_shape _ board8_wf))
    as (r & E & _ & _ & Hnd).
  - vm_compute. split; [discriminate|reflexivity].
  - exists r. split; [exact E|exact Hnd].
Defined.

Lemma add_count_size c self :
  GameBoard.size (add_count c self) = GameBoard.size self.
Proof. now destruct c. Qed.

Lemma add_count_count_of mover c self :
  count_of c (add_count mover self)
  = count_of c self + (if color_eqb mover c then 1 else 0).
Proof. destruct mover, c; cbn; lia. Qed.

Lemma start_loop_effect locs : forall self,
  board_shape self -> NoDup locs ->
  (forall l, In l locs -> 0 <= l < GameBoard.n self * GameBoard.n self) ->
  exists s',
    GameBoard.start_loop locs self = (Ok tt, s') /\
    board_shape s' /\
    GameBoard.n s' = GameBoard.n self /\
    GameBoard.size s' = GameBoard.size self /\
    GameBoard.squares s' = GameBoard.squares self /\
    GameBoard.turn s' = alternate (List.length locs) (GameBoard.turn self) /\
    (forall c, count_of c s'
               = count_of c self + placed_count (List.length locs) (GameBoard.turn self) c) /\
    (forall j, ~ In j locs ->
       tile_at (GameBoard.pieces s') j = tile_at (GameBoard.pieces self) j) /\
    (forall i loc, nth_error locs i = Some loc ->
       exists p, tile_at (GameBoard.pieces s') loc = Some p /\
                 GamePiece.color p = alternate i (GameBoard.turn self) /\
                 GamePiece.location p = loc).
Proof.
  induction locs as [|loc rest IH]; intros self Hs Hnd Hall.
  - exists self. cbn [GameBoard.start_loop ret List.length alternate placed_count].
    split; [reflexivity|]. split; [exact Hs|].
    repeat split; auto; try (intros; lia).
    intros [|i] l E; discriminate E.
  - pose proof (Hall loc (or_introl eq_refl)) as Hr.
    destruct (place_result self loc Hs Hr) as (sq & Esq & Eplace).
    set (s1 := add_count (GameBoard.turn self) (with_tile loc (new_piece self loc sq) self)) in *.
    assert (Hlen : 0 <= loc < Z.of_nat (List.length (GameBoard.pieces self)))
      by (rewrite (shape_pieces _ Hs); exact Hr).
    assert (Hs1 : board_shape s1) by (apply add_count_shape, with_tile_shape; auto).
    destruct (add_count_frame (GameBoard.turn self)
                (with_tile loc (new_piece self loc sq) self))
      as (Hp1 & _ & Hn1 & Hq1 & Ht1).
    pose proof (add_count_size (GameBoard.turn self)
                  (with_tile loc (new_piece self loc sq) self)) as Hz1.
    fold s1 in Hp1, Hn1, Hq1, Ht1, Hz1.
    cbn [with_tile GameBoard.pieces GameBoard.set_pieces GameBoard.n GameBoard.size
         GameBoard.squares GameBoard.turn] in Hp1, Hn1, Hq1, Ht1, Hz1.
    inversion Hnd as [|? ? Hnotin Hnd']; subst.
    destruct (IH (switched s1)) as
      (s2 & E2 & Hs2 & Hn2 & Hz2 & Hq2 & Ht2 & Hc2 & Hkept & Hplaced).
    + now apply switched_shape.
    + exact Hnd'.
    + intros l Hl. cbn. rewrite Hn1. apply Hall. now right.
    + cbn [switched GameBoard.n GameBoard.size GameBoard.squares GameBoard.turn
           GameBoard.pieces GameBoard.set_turn] in Hn2, Hz2, Hq2, Ht2, Hkept.
      exists s2. split.
      { cbn [GameBoard.start_loop]. unfold bind at 1. rewrite Eplace. fold s1.
        unfold bind at 1. rewrite switch_turns_result. exact E2. }
      split; [exact Hs2|]. split; [congruence|]. split; [congruence|].
      split; [congruence|]. split; [cbn [List.length alternate]; congruence|].
      split; [|split].
      * intros c. rewrite Hc2. cbn [List.length placed_count].
        change (count_of c (switched s1)) with (count_of c s1).
        change (GameBoard.turn (switched s1)) with (other (GameBoard.turn s1)).
        unfold s1 at 1. rewrite add_count_count_of, with_tile_counts, Ht1. lia.
      * intros j Hj. cbn [In] in Hj. rewrite Hkept by tauto.
        rewrite Hp1, tile_at_set_nth by assumption.
        destruct (Z.eqb_spec j loc); [subst; tauto|reflexivity].
      * intros [|i] l E; cbn [nth_error] in E.
        -- injection E as <-. exists (new_piece self loc sq).
           split; [|split; reflexivity].
           rewrite Hkept by exact Hnotin.
           rewrite Hp1, tile_at_set_nth by assumption. now rewrite Z.eqb_refl.
        -- destruct (Hplaced i l E) as (p & Hp & Hcol & Hloc).
           exists p. split; [exact Hp|]. split; [|exact Hloc].
           rewrite Hcol. cbn [alternate switched GameBoard.turn GameBoard.set_turn].
           now rewrite Ht1.
Qed.

Lemma init_row_squares cols : forall lst index xc yc,
  0 <= index ->
  GameBoard.init_row cols lst index xc yc
  = Ok (lst ++ map (fun j => Square.mk (index + j) (xc + SQUARE * j) yc SQUARE)
                 (map Z.of_nat (seq 0 cols)),
        index + Z.of_nat cols).
Proof.
  induction cols as [|cols IH]; intros lst index xc yc Hi.
  - cbn. now rewrite app_nil_r, Z.add_0_r.
  - cbn [GameBoard.init_row]. unfold Square.init.
    destruct (Z.leb_spec 0 index); [|lia]. cbn [rbind].
    rewrite IH by lia. rewrite <- app_assoc. cbn [app seq map].
    f_equal. f_equal; [|lia]. f_equal. f_equal.
    + f_equal; lia.
    + rewrite <- seq_shift, !map_map. apply map_ext. intros k. f_equal; lia.
Qed.

Lemma seq_offset a len : seq a len = map (fun k => (a + k)%nat) (seq 0 len).
Proof.
  induction a as [|a IH].
  - cbn. now rewrite map_id.
  - rewrite <- seq_shift, IH, map_map. reflexivity.
Qed.

Lemma init_rows_squares rows cols : forall lst index corner yc,
  0 <= index -> (0 < cols)%nat ->
  GameBoard.init_rows rows cols lst index corner yc
  = Ok (lst ++ map (fun o => Square.mk (index + o)
                               (corner + SQUARE * (o mod Z.of_nat cols))
                               (yc + SQUARE * (o / Z.of_nat cols)) SQUARE)
                 (map Z.of_nat (seq 0 (rows * cols)))).
Proof.
  induction rows as [|rows IH]; intros lst index corner yc Hi Hcols.
  - cbn. now rewrite app_nil_r.
  - cbn [GameBoard.init_rows]. rewrite init_row_squares by assumption.
    cbn [rbind fst snd]. rewrite IH by lia.
    rewrite <- app_assoc. f_equal. f_equal.
    cbn [Nat.mul]. rewrite seq_app, !map_app. f_equal.
    + rewrite !map_map. apply map_ext_in. intros k Hk. apply in_seq in Hk.
      rewrite Z.mod_small, Z.div_small by lia. f_equal; lia.
    + cbn [Nat.add]. rewrite (seq_offset cols). rewrite !map_map.
      apply map_ext. intros k.
      replace (Z.of_nat (cols + k)) with (Z.of_nat k + 1 * Z.of_nat cols) by lia.
      rewrite Z.mod_add, Z.div_add by lia. f_equal; lia.
Qed.

Lemma init_squares_layout (self : GameBoard.t) (corner : Z) :
  0 < GameBoard.n self ->
  GameBoard.init_squares self corner
  = Ok (map (square_of (GameBoard.n self) corner) (cell_indices (GameBoard.n self))).
Proof.
  intros Hn. unfold GameBoard.init_squares.
  rewrite init_rows_squares by lia. cbn [app]. f_equal.
  unfold cell_indices. rewrite Z2Nat.inj_mul by lia.
  apply map_ext. intros o. unfold square_of.
  rewrite Z2Nat.id by lia. f_equal.
Qed.

(** X4. [init_squares] lays the squares out row by row: there are [n * n] of
    them, square [i] has location [i] and its lower left corner
    [i mod n] squares to the right of and [i / n] squares above the first
    corner. *)
Theorem init_squares_grid (self : GameBoard.t) (corner : Z) :
  0 < GameBoard.n self ->
  GameBoard.init_squares self corner
  = Ok (map (square_of (GameBoard.n self) corner) (cell_indices (GameBoard.n self))).
Proof. apply init_squares_layout. Qed.

Lemma init_squares_grid_witness :
  GameBoard.init_squares board8 (-200)
  = Ok (map (square_of 8 (-200)) (cell_indices 8)).
Proof. apply (init_squares_grid board8 (-200)). reflexivity. Defined.

Lemma center_values n0 :
  4 <= n0 -> n0 mod 2 = 0 ->
  Z.quot (n0 ^ 2 + n0) 2 = n0 / 2 * n0 + n0 / 2 /\ 2 <= n0 / 2 /\ n0 = 2 * (n0 / 2).
Proof.
  intros Hn Heven. rewrite Z.pow_2_r. rewrite Z.quot_div_nonneg by nia.
  pose proof (Z.div_mod n0 2 ltac:(lia)) as E. rewrite Heven in E.
  set (m := n0 / 2) in *. assert (Hm : n0 = 2 * m) by lia.
  split; [|split; [lia|exact Hm]].
  rewrite Hm at 1 2 3. replace (2 * m * (2 * m) + 2 * m) with ((m * n0 + m) * 2) by (rewrite Hm at 1; ring).
  apply Z.div_mul. lia.
Qed.

Lemma init_result (n0 : Z) :
  4 <= n0 -> n0 mod 2 = 0 ->
  let m := n0 / 2 in
  exists self,
    GameBoard.init n0 = Ok self /\
    GameBoard.n self = n0 /\ GameBoard.size self = SQUARE * n0 /\
    GameBoard.turn self = Black /\
    GameBoard.black self = 2 /\ GameBoard.white self = 2 /\
    GameBoard.squares self
    = map (square_of n0 (- n0 * SQUARE / 2)) (cell_indices n0) /\
    holds (GameBoard.pieces self) Black (m * n0 + m - 1) = true /\
    holds (GameBoard.pieces self) White (m * n0 + m) = true /\
    holds (GameBoard.pieces self) Black (m * n0 + m - n0) = true /\
    holds (GameBoard.pieces self) White (m * n0 + m - n0 - 1) = true /\
    (forall j, j <> m * n0 + m - 1 -> j <> m * n0 + m ->
               j <> m * n0 + m - n0 -> j <> m * n0 + m - n0 - 1 ->
               tile_at (GameBoard.pieces self) j = None) /\
    GameBoard.find_valid_moves self = Ok (GameBoard.valid_moves self).
Proof.
  intros Hn Heven m. unfold GameBoard.init.
  destruct (Z.leb_spec 4 n0); [|lia]. cbn [negb].
  rewrite Heven. cbn [Z.eqb].
  set (self0 := GameBoard.mk n0 (SQUARE * n0) Black (repeat None (Z.to_nat (n0 * n0)))
                  0 0 [] []).
  rewrite (init_squares_layout self0 (- n0 * SQUARE / 2)) by (cbn; lia).
  cbn [rbind]. change (GameBoard.n self0) with n0.
  set (sqs := map (square_of n0 (- n0 * SQUARE / 2)) (cell_indices n0)).
  set (self1 := GameBoard.set_squares sqs self0).
  assert (Hs1 : board_shape self1).
  { constructor; cbn.
    - lia.
    - rewrite repeat_length. nia.
    - unfold sqs. rewrite map_map. cbn [square_of Square.location]. apply map_id.
    - intros loc p. now rewrite tile_at_repeat_none. }
  destruct (center_squares_ok self1 Hn Heven) as [Hnd Hval].
  destruct (start_loop_effect (GameBoard.find_center_squares self1) self1 Hs1 Hnd Hval)
    as (s2 & E2 & Hs2 & Hn2 & Hz2 & Hq2 & Ht2 & Hc2 & Hkept & Hplaced).
  unfold GameBoard.draw_start_tiles. unfold bind at 1. unfold get_state.
  rewrite E2. rewrite find_valid_moves_legal by assumption. cbn [rbind].
  eexists. split; [reflexivity|].
  cbn [GameBoard.set_valid_moves GameBoard.n GameBoard.size GameBoard.turn
       GameBoard.black GameBoard.white GameBoard.squares GameBoard.pieces
       GameBoard.valid_moves].
  destruct (center_values n0 Hn Heven) as (Hur & Hm2 & Hn0). fold m in Hur, Hm2, Hn0.
  assert (Hcent : GameBoard.find_center_squares self1
                  = [m * n0 + m - 1; m * n0 + m; m * n0 + m - n0; m * n0 + m - n0 - 1]).
  { unfold GameBoard.find_center_squares. change (GameBoard.n self1) with n0.
    rewrite Hur. reflexivity. }
  rewrite Hcent in Hkept, Hplaced, Hc2, Ht2.
  assert (Hhold : forall i loc c,
    nth_error [m * n0 + m - 1; m * n0 + m; m * n0 + m - n0; m * n0 + m - n0 - 1] i
      = Some loc ->
    alternate i Black = c -> holds (GameBoard.pieces s2) c loc = true).
  { intros i loc c E Ec. destruct (Hplaced i loc E) as (p & Hp & Hcol & _).
    unfold holds. rewrite Hp, Hcol. change (GameBoard.turn self1) with Black.
    rewrite Ec. now destruct c. }
  split; [exact Hn2|]. split; [exact Hz2|].
  split; [exact Ht2|].
  split; [exact (Hc2 Black)|]. split; [exact (Hc2 White)|].
  split; [exact Hq2|].
  split; [exact (Hhold 0%nat _ Black eq_refl eq_refl)|].
  split; [exact (Hhold 1%nat _ White eq_refl eq_refl)|].
  split; [exact (Hhold 2%nat _ Black eq_refl eq_refl)|].
  split; [exact (Hhold 3%nat _ White eq_refl eq_refl)|].
  split.
  - intros j H1 H2 H3 H4. rewrite Hkept.
    + cbn. apply tile_at_repeat_none.
    + cbn [In]. lia.
  - etransitivity; [apply find_valid_moves_legal|reflexivity].
    destruct Hs2 as [A B C D]. constructor; cbn; assumption.
Qed.




(** X7. A location outside the board: every method that takes one raises
    AssertionError, and the methods that mutate leave the board as it was. *)
Theorem out_of_range_location (self : GameBoard.t) (loc : Z) (d : Direction) :
  GameBoard.valid_index self loc = false ->
  GameBoard.set_max_min self loc d = Err AssertionError /\
  GameBoard.can_capture_in_direction self loc d = Err AssertionError /\
  GameBoard.all_can_capture self loc = Err AssertionError /\
  GameBoard.place loc self = (Err AssertionError, self) /\
  GameBoard.flip_tile loc self = (Err AssertionError, self) /\
  GameBoard.make_move loc self = (Err AssertionError, self).
Proof.
  intros H.
  unfold GameBoard.set_max_min, GameBoard.can_capture_in_direction,
    GameBoard.all_can_capture, GameBoard.place, GameBoard.flip_tile,
    GameBoard.make_move.
  cbv [bind get_state assert ret raise]. rewrite H. cbn [negb].
  repeat split.
Qed.

Lemma out_of_range_location_witness :
  GameBoard.place 64 board8 = (Err AssertionError, board8) /\
  GameBoard.make_move (-1) board8 = (Err AssertionError, board8).
Proof.
  destruct (out_of_range_location board8 64 Dn eq_refl) as (_ & _ & _ & Hp & _).
  destruct (out_of_range_location board8 (-1) Dn eq_refl) as (_ & _ & _ & _ & _ & Hm).
  exact (conj Hp Hm).
Defined.

(** X8. [flip_tile] on an empty in-range cell raises AttributeError and
    leaves the board as it was. *)
Theorem flip_tile_on_empty_cell (self : GameBoard.t) (loc : Z) :
  board_shape self ->
  0 <= loc < GameBoard.n self * GameBoard.n self ->
  tile_at (GameBoard.pieces self) loc = None ->
  GameBoard.flip_tile loc self = (Err AttributeError, self).
Proof. apply flip_tile_empty. Qed.

Lemma flip_tile_on_empty_cell_witness :
  GameBoard.flip_tile 0 board8 = (Err AttributeError, board8).
Proof.
  apply (flip_tile_on_empty_cell board8 0 (wf_shape _ board8_wf)).
  - vm_compute. split; [discriminate|reflexivity].
  - reflexivity.
Defined.

(** X9. [place] does not look at the cell: on an occupied cell it replaces
    the tile with one of the mover's color and still adds one to the mover's
    count, so the number of occupied cells stays and the two counts no
    longer add up to it. *)
Theorem place_on_occupied_cell (self : GameBoard.t) (loc : Z) (p : GamePiece.t) :
  board_shape self -> counts_ok self ->
  tile_at (GameBoard.pieces self) loc = Some p ->
  exists s1 q,
    GameBoard.place loc self = (Ok tt, s1) /\
    tile_at (GameBoard.pieces s1) loc = Some q /\
    GamePiece.color q = GameBoard.turn self /\
    occupied (GameBoard.pieces s1) = occupied (GameBoard.pieces self) /\
    GameBoard.black s1 + GameBoard.white s1 = occupied (GameBoard.pieces s1) + 1.
Proof.
  intros Hs [Hb Hw] Ht. pose proof (tile_at_range _ _ _ Ht) as Hr.
  assert (Hl : 0 <= loc < GameBoard.n self * GameBoard.n self)
    by (rewrite <- (shape_pieces _ Hs); exact Hr).
  destruct (place_result self loc Hs Hl) as (sq & _ & E).
  destruct (add_count_frame (GameBoard.turn self)
              (with_tile loc (new_piece self loc sq) self)) as (Hp1 & _).
  cbn [with_tile GameBoard.pieces GameBoard.set_pieces] in Hp1.
  eexists _, (new_piece self loc sq). split; [exact E|].
  rewrite Hp1. split; [|split; [reflexivity|]].
  - rewrite tile_at_set_nth by assumption. now rewrite Z.eqb_refl.
  - assert (Hocc : occupied (set_nth (GameBoard.pieces self) (Z.to_nat loc)
                               (Some (new_piece self loc sq)))
                   = occupied (GameBoard.pieces self)).
    { unfold occupied.
      pose proof (filter_set_nth is_tile (GameBoard.pieces self) (Z.to_nat loc) _
                    (Some (new_piece self loc sq)) (tile_at_nth _ loc Hr)) as F.
      rewrite Ht in F. cbn [is_tile] in F. lia. }
    split; [exact Hocc|]. rewrite Hocc, occupied_split, <- Hb, <- Hw.
    destruct (GameBoard.turn self); cbn; lia.
Qed.

Lemma place_on_occupied_cell_witness :
  exists s1 q,
    GameBoard.place 27 board8 = (Ok tt, s1) /\
    tile_at (GameBoard.pieces s1) 27 = Some q /\
    GamePiece.color q = Black /\
    GameBoard.black s1 + GameBoard.white s1 = occupied (GameBoard.pieces s1) + 1.
Proof.
  destruct (place_on_occupied_cell board8 27 (GamePiece.mk 27 White (-25) (-25))
              (wf_shape _ board8_wf) (wf_counts _ board8_wf) eq_refl)
    as (s1 & q & E & Hq & Hc & _ & Hsum).
  exists s1, q. split; [exact E|]. split; [exact Hq|]. split; [exact Hc|exact Hsum].
Defined.

(** *** A full board *)

Lemma is_full_tile self loc :
  GameBoard.is_full self = true ->
  0 <= loc < Z.of_nat (List.length (GameBoard.pieces self)) ->
  tile_at (GameBoard.pieces self) loc <> None.
Proof.
  unfold GameBoard.is_full. intros Hfull Hr.
  rewrite forallb_forall in Hfull.
  pose proof (tile_at_nth _ loc Hr) as E. apply nth_error_In in E.
  apply Hfull in E. now destruct (tile_at (GameBoard.pieces self) loc).
Qed.

Lemma full_board_no_moves self :
  board_shape self -> GameBoard.is_full self = true -> legal_moves self = [].
Proof.
  intros Hs Hfull. unfold legal_moves.
  assert (H : forall locs, (forall l, In l locs -> 0 <= l < GameBoard.n self * GameBoard.n self) ->
                           flat_map (move_entry self) locs = []).
  { induction locs as [|l tl IH]; intros Hall; [reflexivity|].
    cbn [flat_map]. rewrite IH by (intros; apply Hall; now right).
    unfold move_entry, captures.
    pose proof (is_full_tile self l Hfull) as Ht.
    rewrite (shape_pieces _ Hs) in Ht. specialize (Ht (Hall l (or_introl eq_refl))).
    now destruct (tile_at (GameBoard.pieces self) l). }
  apply H. intros l. apply cell_indices_in.
Qed.

(** X10. [is_full] holds exactly when every cell is occupied, and on a full
    board neither color has a legal move: [find_valid_moves] returns the
    empty table whoever is to move. *)
Theorem full_board_has_no_moves (self : GameBoard.t) :
  board_shape self ->
  (GameBoard.is_full self = true <->
   occupied (GameBoard.pieces self) = GameBoard.n self * GameBoard.n self) /\
  (GameBoard.is_full self = true ->
   forall c, GameBoard.find_valid_moves (GameBoard.set_turn c self) = Ok []).
Proof.
  intros Hs. split.
  - rewrite is_full_empties.
    assert (E : Z.of_nat (empties (GameBoard.pieces self)) + occupied (GameBoard.pieces self)
                = Z.of_nat (List.length (GameBoard.pieces self))).
    { unfold empties, occupied.
      induction (GameBoard.pieces self) as [|[p|] tl IH]; cbn [filter is_hole is_tile List.length]; lia. }
    rewrite (shape_pieces _ Hs) in E. lia.
  - intros Hfull c.
    assert (Hsc : board_shape (GameBoard.set_turn c self))
      by (destruct Hs; constructor; assumption).
    rewrite find_valid_moves_legal by exact Hsc.
    now rewrite full_board_no_moves.
Qed.

Lemma full_board_has_no_moves_witness :
  GameBoard.is_full board8 = true <-> occupied (GameBoard.pieces board8) = 64.
Proof.
  destruct (full_board_has_no_moves board8 (wf_shape _ board8_wf)) as [H _].
  exact H.
Defined.

(** X11. Passing the turn twice (switch the turn and recompute the table,
    twice) gives back the well-formed board it started from. *)
Theorem pass_twice (self : GameBoard.t) :
  wf self ->
  (GameBoard.switch_turns ;;; GameBoard.refresh_valid_moves ;;;
   GameBoard.switch_turns ;;; GameBoard.refresh_valid_moves) self
  = (Ok tt, self).
Proof.
  intros Hwf.
  assert (E1 := pass_result self (wf_shape _ Hwf)).
  assert (Hs1 : board_shape (passed self)) by (apply passed_wf; apply Hwf).
  assert (E2 := pass_result (passed self) Hs1).
  assert (Hback : passed (passed self) = self).
  { unfold passed at 1. rewrite switched_passed_moves, <- (wf_moves _ Hwf).
    destruct self as [n0 sz tn ps b w sqs vm]. now destruct tn. }
  unfold bind in *. rewrite switch_turns_result in *.
  destruct (GameBoard.refresh_valid_moves (switched self)) as [[[]|e] s1];
    [|discriminate E1].
  injection E1 as ->. rewrite switch_turns_result.
  destruct (GameBoard.refresh_valid_moves (switched (passed self))) as [[[]|e] s2];
    [|discriminate E2].
  injection E2 as ->. now rewrite Hback.
Qed.

Lemma pass_twice_witness :
  (GameBoard.switch_turns ;;; GameBoard.refresh_valid_moves ;;;
   GameBoard.switch_turns ;;; GameBoard.refresh_valid_moves) board8
  = (Ok tt, board8).
Proof. exact (pass_twice board8 board8_wf). Defined.

Lemma was_clicked_square_of n corner i cx cy :
  0 < n -> 0 <= i < n * n ->
  Square.was_clicked (square_of n corner i) cx cy = true <->
  (cx - corner) mod SQUARE <> 0 /\ (cy - corner) mod SQUARE <> 0 /\
  0 <= (cx - corner) / SQUARE < n /\
  i = (cy - corner) / SQUARE * n + (cx - corner) / SQUARE.
Proof.
  intros Hn Hi. destruct (rc_of_loc n i Hn Hi) as (Ei & Hr & Hc).
  unfold Square.was_clicked, square_of.
  cbn [Square.x Square.y Square.size]. unfold SQUARE.
  pose proof (Z.div_mod (cx - corner) 50 ltac:(lia)) as Ex.
  pose proof (Z.mod_pos_bound (cx - corner) 50 ltac:(lia)) as Bx.
  pose proof (Z.div_mod (cy - corner) 50 ltac:(lia)) as Ey.
  pose proof (Z.mod_pos_bound (cy - corner) 50 ltac:(lia)) as By.
  rewrite !andb_true_iff, !Z.ltb_lt. split.
  - intros [[H1 H2] [H3 H4]].
    assert ((cx - corner) / 50 = i mod n) by lia.
    assert ((cy - corner) / 50 = i / n) by lia.
    repeat split; first [lia|congruence].
  - intros (Hx & Hy & Hcol & E).
    assert (Hrow : i / n = (cy - corner) / 50) by (rewrite E; now apply div_rc).
    assert (Hcol' : i mod n = (cx - corner) / 50) by (rewrite E; now apply mod_rc).
    rewrite Hrow, Hcol'. lia.
Qed.

Lemma init_squares_field n0 self :
  GameBoard.init n0 = Ok self ->
  0 < n0 /\
  GameBoard.squares self = map (square_of n0 (- n0 * SQUARE / 2)) (cell_indices n0).
Proof.
  intros E. destruct (init_inv _ _ E) as [Hn Heven].
  destruct (init_result n0 Hn Heven) as (self' & E' & _ & _ & _ & _ & _ & Hsq & _).
  rewrite E in E'. injection E' as <-. split; [lia|exact Hsq].
Qed.

(** X12. Which square a click hits on the board the constructor builds, with
    [corner = -n * SQUARE // 2]: the square of index
    [row * n + col] for [col = (x - corner) // SQUARE] and
    [row = (y - corner) // SQUARE], provided the click is on no grid line
    and the column is on the board; so no click hits two squares, and the
    center of every square hits that square. *)
Theorem click_hits_one_square (n0 : Z) (self : GameBoard.t) (cx cy : Z) :
  GameBoard.init n0 = Ok self ->
  let corner := - n0 * SQUARE / 2 in
  (forall sq, In sq (GameBoard.squares self) ->
     (Square.was_clicked sq cx cy = true <->
      (cx - corner) mod SQUARE <> 0 /\ (cy - corner) mod SQUARE <> 0 /\
      0 <= (cx - corner) / SQUARE < n0 /\
      Square.location sq = (cy - corner) / SQUARE * n0 + (cx - corner) / SQUARE)) /\
  (forall sq sq', In sq (GameBoard.squares self) -> In sq' (GameBoard.squares self) ->
     Square.was_clicked sq cx cy = true -> Square.was_clicked sq' cx cy = true ->
     sq = sq') /\
  (forall sq, In sq (GameBoard.squares self) ->
     Square.was_clicked sq (fst (Square.calc_center sq)) (snd (Square.calc_center sq))
     = true).
Proof.
  intros E corner. destruct (init_squares_field _ _ E) as [Hn Hsq].
  fold corner in Hsq. rewrite Hsq.
  assert (Hall : forall sq, In sq (map (square_of n0 corner) (cell_indices n0)) ->
                 exists i, 0 <= i < n0 * n0 /\ sq = square_of n0 corner i).
  { intros sq Hin. apply in_map_iff in Hin. destruct Hin as (i & <- & Hi).
    apply cell_indices_in in Hi. now exists i. }
  split; [|split].
  - intros sq Hin. destruct (Hall sq Hin) as (i & Hi & ->).
    now apply was_clicked_square_of.
  - intros sq sq' Hin Hin' H1 H2.
    destruct (Hall sq Hin) as (i & Hi & ->). destruct (Hall sq' Hin') as (j & Hj & ->).
    apply was_clicked_square_of in H1; try assumption.
    apply was_clicked_square_of in H2; try assumption.
    f_equal. lia.
  - intros sq Hin. destruct (Hall sq Hin) as (i & Hi & ->).
    unfold Square.calc_center, Square.was_clicked, square_of.
    cbn [Square.x Square.y Square.size fst snd]. unfold SQUARE.
    change (50 / 2) with 25.
    rewrite !andb_true_iff, !Z.ltb_lt. lia.
Qed.

Lemma click_hits_one_square_witness :
  exists sq,
    In sq (GameBoard.squares board8) /\ Square.location sq = 35 /\
    Square.was_clicked sq (-30) 10 = true.
Proof.
  exists (square_of 8 (-200) 35).
  assert (Hin : In (square_of 8 (-200) 35) (GameBoard.squares board8)).
  { apply nth_error_In with (n := 35%nat). vm_compute. reflexivity. }
  split; [exact Hin|]. split; [reflexivity|].
  destruct (click_hits_one_square 8 board8 (-30) 10 board8_init) as [H _].
  apply (H _ Hin). vm_compute.
  repeat split; discriminate.
Defined.

Open Scope string_scope.

(** X13. [end_game] prints the winner's message and the score, in that order,
    and never touches the board; it asks for a name once, and saves the
    score only for a name that was given and is not empty. *)
Theorem end_game_announces (w : Game.World) :
  exists r f a,
    Game.end_game w
    = (r, Game.mk (Game.board w)
            (Game.stdout w ++ [fst (GameBoard.find_winner (Game.board w));
                               snd (GameBoard.find_winner (Game.board w))])
            f a) /\
    (GameBoard.white (Game.board w) > GameBoard.black (Game.board w) ->
     fst (GameBoard.find_winner (Game.board w)) = "White wins!") /\
    (GameBoard.black (Game.board w) > GameBoard.white (Game.board w) ->
     fst (GameBoard.find_winner (Game.board w)) = "Black wins!") /\
    (GameBoard.black (Game.board w) = GameBoard.white (Game.board w) ->
     fst (GameBoard.find_winner (Game.board w)) = "You tied!") /\
    snd (GameBoard.find_winner (Game.board w))
    = "black: " ++ str (GameBoard.black (Game.board w))
      ++ ", white: " ++ str (GameBoard.white (Game.board w)) /\
    match Game.answers w with
    | [] => r = Ok tt /\ f = Game.scores w /\ a = []
    | None :: rest => r = Ok tt /\ f = Game.scores w /\ a = rest
    | Some nm :: rest =>
        a = rest /\
        if String.eqb nm "" then r = Ok tt /\ f = Game.scores w
        else (r, f) = Game.save_score (Game.board w) nm (Game.scores w)
    end.
Proof.
  unfold Game.end_game, Game.announce_winner, Game.print, Game.textinput.
  cbv [bind get_state modify ret].
  assert (Hmsg :
    (GameBoard.white (Game.board w) > GameBoard.black (Game.board w) ->
     fst (GameBoard.find_winner (Game.board w)) = "White wins!") /\
    (GameBoard.black (Game.board w) > GameBoard.white (Game.board w) ->
     fst (GameBoard.find_winner (Game.board w)) = "Black wins!") /\
    (GameBoard.black (Game.board w) = GameBoard.white (Game.board w) ->
     fst (GameBoard.find_winner (Game.board w)) = "You tied!") /\
    snd (GameBoard.find_winner (Game.board w))
    = "black: " ++ str (GameBoard.black (Game.board w))
      ++ ", white: " ++ str (GameBoard.white (Game.board w))).
  { unfold GameBoard.find_winner. cbn [fst snd].
    destruct (Z.gtb_spec (GameBoard.white (Game.board w)) (GameBoard.black (Game.board w)));
    destruct (Z.gtb_spec (GameBoard.black (Game.board w)) (GameBoard.white (Game.board w)));
      repeat split; intros; try reflexivity; lia. }
  destruct (GameBoard.find_winner (Game.board w)) as [message score]. cbn [fst snd] in *.
  cbn [Game.board Game.stdout Game.scores Game.answers].
  rewrite <- app_assoc. cbn [app].
  destruct Hmsg as (M1 & M2 & M3 & M4).
  destruct (Game.answers w) as [|[nm|] rest];
    cbn [Game.board Game.stdout Game.scores Game.answers].
  - eexists _, _, _. split; [reflexivity|]. repeat split; assumption.
  - destruct (String.eqb nm "") eqn:En; cbn [negb].
    + eexists _, _, _. split; [reflexivity|]. repeat split; assumption.
    + cbn [Game.board Game.stdout Game.scores Game.answers].
      destruct (Game.save_score (Game.board w) nm (Game.scores w)) as [r f].
      eexists _, _, _. split; [reflexivity|]. repeat split; assumption.
  - eexists _, _, _. split; [reflexivity|]. repeat split; assumption.
Qed.

Close Scope string_scope.

(** The turn after a run of computer turns. *)
Lemma turns_turn b b' v :
  wf b -> turns b b' v -> GameBoard.turn b' = other (GameBoard.turn b).
Proof.
  intros Hwf Ht. induction Ht as [b E|b k b1 E Hk Em Hf|b k b1 E Hk Em Hf Hv
                                 |b k b1 b' v E Hk Em Hf Hv Ht IH].
  - apply passed_turn.
  - destruct (wf_choose _ Hwf) as [[_ E']|(k' & E' & _ & Hin)]; [congruence|].
    assert (k' = k) by congruence. subst k'.
    destruct (make_move_ok _ _ Hwf Hin) as (s2 & Hm & E2).
    rewrite Em in E2. injection E2 as ->. rewrite passed_turn.
    now rewrite (moved_turn _ _ _ Hm).
  - destruct (wf_choose _ Hwf) as [[_ E']|(k' & E' & _ & Hin)]; [congruence|].
    assert (k' = k) by congruence. subst k'.
    destruct (make_move_ok _ _ Hwf Hin) as (s2 & Hm & E2).
    rewrite Em in E2. injection E2 as ->. rewrite passed_turn.
    now rewrite (moved_turn _ _ _ Hm).
  - destruct (wf_choose _ Hwf) as [[_ E']|(k' & E' & _ & Hin)]; [congruence|].
    assert (k' = k) by congruence. subst k'.
    destruct (make_move_ok _ _ Hwf Hin) as (s2 & Hm & E2).
    rewrite Em in E2. injection E2 as ->.
    rewrite IH.
    + rewrite !passed_turn, other_other. now rewrite (moved_turn _ _ _ Hm).
    + apply passed_wf; apply passed_wf; apply Hm.
Qed.

Lemma set_turn_same self : GameBoard.set_turn (GameBoard.turn self) self = self.
Proof. now destruct self. Qed.

Lemma full_set_turn_wf b c :
  wf b -> GameBoard.is_full b = true -> wf (GameBoard.set_turn c b).
Proof.
  intros [Hs Hc Hm] Hfull.
  assert (Hs' : board_shape (GameBoard.set_turn c b))
    by (destruct Hs; constructor; assumption).
  constructor; [exact Hs'|exact Hc|].
  cbn [GameBoard.set_turn GameBoard.valid_moves]. rewrite Hm.
  rewrite (full_board_no_moves b Hs Hfull).
  symmetry. now apply full_board_no_moves.
Qed.

Lemma printed_declares w b out m1 m2 f a :
  out = Game.stdout w ->
  declared_over w (Game.mk b (out ++ [m1; m2]) f a).
Proof.
  intros ->. unfold declared_over. cbn [Game.stdout]. intros Heq.
  apply (f_equal (@List.length string)) in Heq. rewrite length_app in Heq.
  cbn in Heq. lia.
Qed.

(** X14. When [play] returns normally from a well-formed board with Black to
    move, the board is again well formed with Black to move; and either
    nothing has changed, or the game was declared over, or Black has a legal
    move to make next. *)
Theorem play_returns_control (fuel : nat) (cx cy : Z) (w w' : Game.World) :
  wf (Game.board w) ->
  GameBoard.turn (Game.board w) = Black ->
  (empties (GameBoard.pieces (Game.board w)) < fuel)%nat ->
  Game.play fuel cx cy w = (Ok tt, w') ->
  wf (Game.board w') /\
  GameBoard.turn (Game.board w') = Black /\
  (w' = w \/ declared_over w w' \/ GameBoard.valid_moves (Game.board w') <> []).
Proof.
  intros Hwf Hturn Hfuel Eplay. unfold Game.play in Eplay.
  unfold bind at 1 in Eplay. unfold get_state at 1 in Eplay.
  unfold bind at 1 in Eplay.
  assert (Hend : forall w0 r0 w1,
    wf (Game.board w0) -> GameBoard.is_full (Game.board w0) = true ->
    Game.stdout w0 = Game.stdout w ->
    ((Game.end_game ;;; Game.on_board (modify (GameBoard.set_turn Black))) ;;;
     (w2 <- get_state ;;
      match GameBoard.turn (Game.board w2) with
      | White =>
          comp_moved <- Game.computer_move fuel ;;
          w3 <- get_state ;;
          if negb comp_moved
             && Nat.eqb (List.length (GameBoard.valid_moves (Game.board w3))) 0
          then Game.end_game
          else ret tt
      | Black => ret tt
      end)) w0 = (Ok r0, w1) ->
    wf (Game.board w1) /\ GameBoard.turn (Game.board w1) = Black /\ declared_over w w1).
  { intros w0 r0 w1 Hwf0 Hfull0 Hout E0.
    destruct (end_game_effect w0) as (r1 & f & a & E1).
    unfold bind at 1 in E0. unfold bind at 1 in E0. rewrite E1 in E0.
    destruct r1 as [[]|e]; [|discriminate E0].
    unfold Game.on_board, modify in E0. cbn [Game.board Game.set_board] in E0.
    unfold bind at 1 in E0. unfold get_state in E0.
    cbn [Game.board GameBoard.turn GameBoard.set_turn ret] in E0.
    injection E0 as _ <-. cbn [Game.board Game.stdout].
    split; [now apply full_set_turn_wf|]. split; [reflexivity|].
    now apply printed_declares. }
  destruct (click_loop_result (GameBoard.squares (Game.board w)) cx cy w Hwf)
    as [[E _]|(sq & s2 & Hin & Hsel & Hmoved & E)]; rewrite E in Eplay.
  - unfold bind at 1 in Eplay. unfold get_state at 1 in Eplay.
    destruct (GameBoard.is_full (Game.board w)) eqn:Efull.
    + cbv iota in Eplay.
      destruct (Hend w tt w' Hwf Efull eq_refl Eplay) as (H1 & H2 & H3). auto.
    + unfold bind at 1 in Eplay. cbn [ret] in Eplay.
      unfold bind at 1 in Eplay. unfold get_state at 1 in Eplay.
      rewrite Hturn in Eplay. cbn [ret] in Eplay.
      injection Eplay as <-. auto.
  - set (b1 := passed s2) in *. set (w1 := Game.set_board b1 w) in *.
    assert (Hwf1 : wf b1) by (apply passed_wf; apply Hmoved).
    unfold bind at 1 in Eplay. unfold get_state at 1 in Eplay.
    destruct (GameBoard.is_full (Game.board w1)) eqn:Efull.
    + cbv iota in Eplay.
      destruct (Hend w1 tt w' Hwf1 Efull eq_refl Eplay) as (H1 & H2 & H3). auto.
    + unfold bind at 1 in Eplay. cbn [ret] in Eplay.
      unfold bind at 1 in Eplay. unfold get_state at 1 in Eplay.
      assert (Ht1 : GameBoard.turn (Game.board w1) = White).
      { cbn. rewrite (moved_turn _ _ _ Hmoved), Hturn. reflexivity. }
      rewrite Ht1 in Eplay.
      destruct (computer_move_turns fuel w1) as (b' & v & Hturns & Erun & Hwf' & Hfin).
      * exact Hwf1.
      * change (empties (GameBoard.pieces s2) < fuel)%nat.
        pose proof (moved_empties _ _ _ Hmoved). lia.
      * pose proof (turns_turn _ _ _ Hwf1 Hturns) as Hturn'.
        change (GameBoard.turn (Game.board w1)) with (GameBoard.turn b1) in Ht1.
        rewrite Ht1 in Hturn'. cbn [other] in Hturn'.
        unfold bind at 1 in Eplay. rewrite Erun in Eplay.
        destruct v; cbn [finish] in Eplay.
        -- cbn [ret] in Eplay. unfold bind at 1 in Eplay.
           cbn [get_state negb andb ret] in Eplay.
           injection Eplay as <-. cbn [Game.board Game.set_board].
           split; [exact Hwf'|]. split; [exact Hturn'|]. right. right. apply Hfin.
        -- cbn [ret] in Eplay. unfold bind at 1 in Eplay.
           cbn [get_state negb andb Game.board Game.set_board] in Eplay.
           destruct (GameBoard.valid_moves b') as [|m ms] eqn:Evm;
             cbn [List.length Nat.eqb] in Eplay.
           ++ destruct (end_game_effect (Game.set_board b' w1)) as (r0 & f & a & E0).
              rewrite E0 in Eplay. injection Eplay as _ <-.
              cbn [Game.board Game.set_board Game.stdout].
              split; [exact Hwf'|]. split; [exact Hturn'|]. right. left.
              now apply printed_declares.
           ++ cbn [ret] in Eplay. injection Eplay as <-.
              cbn [Game.board Game.set_board].
              split; [exact Hwf'|]. split; [exact Hturn'|]. right. right.
              rewrite Evm. discriminate.
        -- destruct (end_game_effect (Game.set_board b' w1)) as (r0 & f & a & E0).
           unfold bind at 1 in Eplay. rewrite E0 in Eplay.
           destruct r0 as [[]|e]; [|discriminate Eplay].
           cbn [ret] in Eplay. unfold bind at 1 in Eplay.
           cbn [get_state negb andb ret] in Eplay.
           injection Eplay as <-. cbn [Game.board Game.set_board Game.stdout].
           split; [exact Hwf'|]. split; [exact Hturn'|]. right. left.
           now apply printed_declares.
Qed.

Lemma play_returns_control_witness :
  exists w',
    Game.play 64 (-30) (-70) (Game.mk board8 [] None []) = (Ok tt, w') /\
    wf (Game.board w') /\ GameBoard.turn (Game.board w') = Black.
Proof.
  eexists. split; [vm_compute; reflexivity|].
  match goal with
  | |- wf (Game.board ?w') /\ _ =>
      pose proof (play_returns_control 64 (-30) (-70)
                    (Game.mk board8 [] None []) w' board8_wf eq_refl) as H
  end.
  destruct H as (H1 & H2 & _).
  - apply Nat.ltb_lt. vm_compute. reflexivity.
  - vm_compute. reflexivity.
  - exact (conj H1 H2).
Defined.

Section Decimals.
Import TextFile.











End Decimals.

Section Lines.
Import TextFile.


Lemma no_space_app a b : no_space a -> no_space b -> no_space (a ++ b).
Proof. unfold no_space. intros Ha Hb. rewrite forallb_app. now rewrite Ha, Hb. Qed.












End Lines.



Lemma opposite_steps d :
  Grid.row_step (opposite d) = - Grid.row_step d /\
  Grid.col_step (opposite d) = - Grid.col_step d.
Proof. destruct d; split; reflexivity. Qed.

Lemma on_grid_intro n r c :
  0 <= r < n -> 0 <= c < n -> Grid.on_grid n r c = true.
Proof.
  intros Hr Hc. unfold Grid.on_grid.
  destruct (Z.leb_spec 0 r); [|lia]. destruct (Z.ltb_spec r n); [|lia].
  destruct (Z.leb_spec 0 c); [|lia]. destruct (Z.ltb_spec c n); [|lia].
  reflexivity.
Qed.

Lemma step_range d :
  -1 <= Grid.row_step d <= 1 /\ -1 <= Grid.col_step d <= 1.
Proof. destruct d; cbn; lia. Qed.

(** Every cell a whole number of steps away on the grid is on the walk. *)
Lemma walk_complete fuel : forall n r c d k,
  1 <= k <= Z.of_nat fuel ->
  0 <= r < n -> 0 <= c < n ->
  0 <= r + k * Grid.row_step d < n -> 0 <= c + k * Grid.col_step d < n ->
  In ((r + k * Grid.row_step d) * n + (c + k * Grid.col_step d))
     (Grid.walk fuel n r c d).
Proof.
  induction fuel as [|fuel IH]; intros n r c d k Hk Hr Hc Hr' Hc'; [lia|].
  cbn [Grid.walk]. destruct (step_range d) as [Hdr Hdc].
  rewrite on_grid_intro by nia.
  destruct (Z.eq_dec k 1) as [->|Hk1].
  - left. f_equal; lia.
  - right.
    replace (r + k * Grid.row_step d)
      with (r + Grid.row_step d + (k - 1) * Grid.row_step d) in * by ring.
    replace (c + k * Grid.col_step d)
      with (c + Grid.col_step d + (k - 1) * Grid.col_step d) in * by ring.
    apply IH; try lia; nia.
Qed.

Lemma reachable_opposite n a b d :
  2 <= n -> 0 <= a < n * n -> 0 <= b < n * n ->
  In b (Grid.reachable n a d) -> In a (Grid.reachable n b (opposite d)).
Proof.
  intros Hn Ha Hb Hin. unfold Grid.reachable in *.
  destruct (rc_of_loc n a ltac:(lia) Ha) as (Ea & Hra & Hca).
  apply walk_coords in Hin. destruct Hin as (k & Hk & Eb & Hr & Hc).
  assert (Hbr : b / n = a / n + k * Grid.row_step d)
    by (rewrite Eb; apply div_rc; lia).
  assert (Hbc : b mod n = a mod n + k * Grid.col_step d)
    by (rewrite Eb; apply mod_rc; lia).
  destruct (opposite_steps d) as [Er Ec].
  assert (Hgoal : a = (b / n + k * Grid.row_step (opposite d)) * n
                      + (b mod n + k * Grid.col_step (opposite d))).
  { rewrite Er, Ec, Hbr, Hbc. rewrite Ea at 1. f_equal; ring. }
  rewrite Hgoal at 1. apply walk_complete.
  - split; [lia|]. rewrite Z2Nat.id by lia.
    destruct (step_range d), (step_nonzero d); nia.
  - lia.
  - lia.
  - rewrite Er, Hbr. lia.
  - rewrite Ec, Hbc. lia.
Qed.

Lemma opposite_opposite d : opposite (opposite d) = d.
Proof. now destruct d. Qed.

(** X16. The scan is symmetric: the cells stepped over from [a] in a direction
    hold [b] exactly when the cells stepped over from [b] in the opposite
    direction hold [a]. *)
Theorem scan_symmetry (self : GameBoard.t) (a b : Z) (d : Direction) :
  2 <= GameBoard.n self ->
  0 <= a < GameBoard.n self * GameBoard.n self ->
  0 <= b < GameBoard.n self * GameBoard.n self ->
  exists la lb,
    scanned self a d = Ok la /\
    scanned self b (opposite d) = Ok lb /\
    GameBoard.set_increment self (opposite d) = - GameBoard.set_increment self d /\
    (In b la <-> In a lb).
Proof.
  intros Hn Ha Hb.
  exists (Grid.reachable (GameBoard.n self) a d),
         (Grid.reachable (GameBoard.n self) b (opposite d)).
  split; [now apply scanned_reachable|]. split; [now apply scanned_reachable|].
  split; [destruct d; cbn; lia|]. split.
  - now apply reachable_opposite.
  - intros H. rewrite <- (opposite_opposite d). now apply reachable_opposite.
Qed.

Lemma scan_symmetry_witness :
  exists la lb,
    scanned board8 19 Dne = Ok la /\ scanned board8 37 Dsw = Ok lb /\
    (In 37 la <-> In 19 lb).
Proof.
  destruct (scan_symmetry board8 19 37 Dne) as (la & lb & E1 & E2 & _ & H).
  - vm_compute. discriminate.
  - vm_compute. split; [discriminate|reflexivity].
  - vm_compute. split; [discriminate|reflexivity].
  - exists la, lb. split; [exact E1|]. split; [exact E2|exact H].
Defined.

Lemma walk_length fuel : forall n r c d,
  0 <= r < n -> 0 <= c < n ->
  Z.of_nat (List.length (Grid.walk fuel n r c d)) <= room n r c d.
Proof.
  induction fuel as [|fuel IH]; intros n r c d Hr Hc.
  - cbn. destruct d; cbn [room]; lia.
  - cbn [Grid.walk].
    destruct (Grid.on_grid n (r + Grid.row_step d) (c + Grid.col_step d)) eqn:E.
    + apply on_grid_true in E. cbn [List.length].
      specialize (IH n _ _ d (proj1 E) (proj2 E)).
      destruct d; cbn [room Grid.row_step Grid.col_step] in *; lia.
    + cbn. destruct d; cbn [room]; lia.
Qed.

Lemma opponent_run_lengths ps mover cells :
  (List.length (fst (opponent_run ps mover cells))
   + List.length (snd (opponent_run ps mover cells)) = List.length cells)%nat.
Proof.
  induction cells as [|c tl IH]; cbn [opponent_run]; [reflexivity|].
  destruct (tile_at ps c) as [p|]; [|reflexivity].
  destruct (color_eqb (GamePiece.color p) mover); [reflexivity|].
  destruct (opponent_run ps mover tl) as [run after]. cbn [fst snd List.length] in *. lia.
Qed.

Lemma scan_result_length ps mover cells :
  cells <> [] ->
  (List.length (scan_result ps mover cells) < List.length cells)%nat.
Proof.
  intros Hne. unfold scan_result, terminated.
  pose proof (opponent_run_lengths ps mover cells) as H.
  destruct (snd (opponent_run ps mover cells)) as [|c after].
  - cbn. destruct cells; [congruence|cbn; lia].
  - destruct (holds ps mover c); cbn [List.length] in *; [lia|].
    destruct cells; [congruence|cbn; lia].
Qed.

(** X17. How many tiles one move can take: at most [n - 2] in one direction,
    the line from the square to the edge less the closing tile. *)
Theorem capture_count_bound (self : GameBoard.t) (loc : Z) (d : Direction) :
  2 <= GameBoard.n self ->
  Z.of_nat (List.length (GameBoard.pieces self)) = GameBoard.n self * GameBoard.n self ->
  0 <= loc < GameBoard.n self * GameBoard.n self ->
  exists r,
    GameBoard.can_capture_in_direction self loc d = Ok r /\
    Z.of_nat (List.length r) <= GameBoard.n self - 2.
Proof.
  intros Hn Hlen Hl. eexists. split; [now apply can_capture_in_direction_cells|].
  destruct (rc_of_loc (GameBoard.n self) loc ltac:(lia) Hl) as (_ & Hr & Hc).
  pose proof (walk_length (Z.to_nat (GameBoard.n self)) _ _ _ d Hr Hc) as Hw.
  pose proof (room_lt _ _ _ d Hr Hc) as Hroom.
  fold (Grid.reachable (GameBoard.n self) loc d) in Hw.
  destruct (Grid.reachable (GameBoard.n self) loc d) as [|c cells] eqn:E.
  - unfold scan_result, terminated. cbn [opponent_run snd fst List.length]. lia.
  - pose proof (scan_result_length (GameBoard.pieces self) (GameBoard.turn self)
                  (c :: cells) ltac:(discriminate)).
    lia.
Qed.

Lemma capture_count_bound_witness :
  exists r,
    GameBoard.can_capture_in_direction board8 19 Dn = Ok r /\
    Z.of_nat (List.length r) <= 6.
Proof.
  apply (capture_count_bound board8 19 Dn).
  - vm_compute. discriminate.
  - reflexivity.
  - vm_compute. split; [discriminate|reflexivity].
Defined.
